(** * Symbolic regression: expression-tree generation, mutation, scoring,
      data handling and plots

    A shallow embedding of [symb_regression/operators/mutation.py]
    ([mutate], [create_random_tree]), of
    [symb_regression/utils/data_handler.py] ([load_data], [split_data]) and
    of [symb_regression/utils/plotting.py] ([plot_prediction_analysis],
    [plot_evolution_metrics], [plot_expression_tree]), with the properties
    stated about them.

    Python floats are IEEE binary64 numbers: they are modelled by Rocq's
    primitive floats.  Python's ambient [random] module is modelled by a
    tape of draws that the primitives consume, together with a log of the
    calls made to the module.  The file system, [np.load], the permutation
    drawn by [numpy] and the axes drawn on are explicit inputs of the
    functions that use them. *)

From Stdlib Require Import ZArith List Ascii String Bool Lia Floats Uint63.
From Stdlib Require Import DecimalString Permutation.
Import ListNotations.
Local Open Scope string_scope.
Local Open Scope Z_scope.

(** ** Expression trees *)

(** Modelled from the spec: the class [Node] of [symb_regression.core.tree]
    is not part of the sources at hand.  A node carries an optional operator
    symbol (a variable is an operator-tagged leaf), an optional constant and
    up to two children; [Node(op=.., value=..)] leaves the other fields at
    [None]. *)
#[warnings="-register-all"]
Inductive Node : Type :=
  mkNode { op : option string;
           value : option float;
           left : option Node;
           right : option Node }.

(** [Node(op=s)] *)
Definition Node_op (s : string) : Node := mkNode (Some s) None None None.

(** [Node(value=v)] *)
Definition Node_value (v : float) : Node := mkNode None (Some v) None None.

(** Modelled from the spec: [Node.copy], a deep structural copy yielding a
    fully independent tree. *)
Fixpoint copy (n : Node) : Node :=
  match n with
  | mkNode o v l r =>
      mkNode o v
        (match l with Some l' => Some (copy l') | None => None end)
        (match r with Some r' => Some (copy r') | None => None end)
  end.

(** Number of edges on the longest path from the root of [n] to a leaf. *)
Fixpoint height (n : Node) : Z :=
  match n with
  | mkNode _ _ l r =>
      Z.max (match l with Some l' => 1 + height l' | None => 0 end)
            (match r with Some r' => 1 + height r' | None => 0 end)
  end.

(** ** Dictionaries of weights *)

(** A [Dict[K, float]] in insertion order, which is the order of [keys()] and
    [values()] and therefore of the population handed to [random.choices]. *)
Definition dict (K : Type) : Type := list (K * float).

Definition keys {K} (d : dict K) : list K := map fst d.
Definition values {K} (d : dict K) : list float := map snd d.

(** [s in REGISTRY] for a registry keyed by operator symbols; a node whose
    [op] is [None] belongs to no registry. *)
Definition mem (s : string) (registry : list string) : bool :=
  existsb (String.eqb s) registry.

Definition op_in (o : option string) (registry : list string) : bool :=
  match o with
  | Some s => mem s registry
  | None => false
  end.

(** ** The random source *)

(** One entry of the tape per call to the [random] module. *)
Inductive draw : Type :=
| DUnit (u : float)    (* result of [random.random()] *)
| DPick (i : nat)      (* index chosen by [random.choices] *)
| DInt (z : Z)         (* result of [random.randint] *)
| DFloat (x : float).  (* result of [random.uniform] or [random.gauss] *)

(** The calls made to the [random] module, as logged. *)
Inductive call : Type :=
| Crandom
| Cchoices (size : nat)
| Crandint (lo hi : Z)
| Cuniform (lo hi : float)
| Cgauss (mu sigma : float).

Record rng : Type := mkRng { tape : list draw; calls : list call }.

Inductive exn : Type := IndexError | ValueError.

(** A run either returns, raises a Python exception, is [Stuck] (the tape
    does not describe a possible run: it is exhausted or its next entry
    is not a value the call can return), or ran out of recursion fuel. *)
Inductive outcome (A : Type) : Type :=
| Ok (a : A)
| Raise (e : exn)
| Stuck
| OutOfFuel.
Arguments Ok {A} a.
Arguments Raise {A} e.
Arguments Stuck {A}.
Arguments OutOfFuel {A}.

Definition M (A : Type) : Type := rng -> outcome A * rng.

Definition ret {A} (a : A) : M A := fun st => (Ok a, st).

Definition bind {A B} (m : M A) (f : A -> M B) : M B :=
  fun st =>
    match m st with
    | (Ok a, st') => f a st'
    | (Raise e, st') => (Raise e, st')
    | (Stuck, st') => (Stuck, st')
    | (OutOfFuel, st') => (OutOfFuel, st')
    end.

Definition raise {A} (e : exn) : M A := fun st => (Raise e, st).
Definition out_of_fuel {A} : M A := fun st => (OutOfFuel, st).

Declare Scope rand_scope.
Delimit Scope rand_scope with rand.
Notation "x <- m ;; k" := (bind m (fun x => k))
  (at level 100, m at next level, right associativity) : rand_scope.
Local Open Scope rand_scope.

(** Logs the call [c] and hands the next tape entry to [k], which decides
    whether the entry is a possible result. *)
Definition draw_with {A} (c : call) (k : draw -> option A) : M A :=
  fun st =>
    let log := (calls st ++ [c])%list in
    match tape st with
    | d :: rest =>
        match k d with
        | Some a => (Ok a, mkRng rest log)
        | None => (Stuck, mkRng (tape st) log)
        end
    | [] => (Stuck, mkRng [] log)
    end.

Definition fail_with {A} (c : call) (e : exn) : M A :=
  fun st => (Raise e, mkRng (tape st) (calls st ++ [c])%list).

(** [random.random()]: a float in [[0, 1)]. *)
Definition random_random : M float :=
  draw_with Crandom
    (fun d => match d with
              | DUnit u => if PrimFloat.leb 0 u && PrimFloat.ltb u 1
                           then Some u else None
              | _ => None
              end).

Definition total_weight (weights : list float) : float :=
  fold_left PrimFloat.add weights 0%float.

Definition isfinite (x : float) : bool :=
  PrimFloat.ltb (PrimFloat.abs x) infinity.

(** [random.choices(population, weights=weights)[0]]: an element of
    [population]; the weights bias the choice, and any index is taken as
    possible.  [ValueError] when the lengths differ, [IndexError] on an empty
    population, [ValueError] when the total weight is not a positive finite
    number. *)
Definition random_choices {A} (population : list A) (weights : list float) : M A :=
  let c := Cchoices (List.length population) in
  if negb (Nat.eqb (List.length weights) (List.length population)) then fail_with c ValueError
  else match population with
       | [] => fail_with c IndexError
       | _ :: _ =>
           if PrimFloat.leb (total_weight weights) 0 then fail_with c ValueError
           else if negb (isfinite (total_weight weights)) then fail_with c ValueError
           else draw_with c
                  (fun d => match d with
                            | DPick i => nth_error population i
                            | _ => None
                            end)
       end.

(** [random.randint(lo, hi)]: an integer of the inclusive range;
    [ValueError] when the range is empty. *)
Definition random_randint (lo hi : Z) : M Z :=
  if hi <? lo then fail_with (Crandint lo hi) ValueError
  else draw_with (Crandint lo hi)
         (fun d => match d with
                   | DInt z => if (lo <=? z) && (z <=? hi) then Some z else None
                   | _ => None
                   end).

(** [random.uniform(a, b)], that is [a + (b - a) * random.random()]: a
    float, taken as any float (it lies between [a] and [b] unless the
    computation overflows). *)
Definition random_uniform (a b : float) : M float :=
  draw_with (Cuniform a b)
    (fun d => match d with
              | DFloat x => Some x
              | _ => None
              end).

(** [random.gauss(mu, sigma)]: any float. *)
Definition random_gauss (mu sigma : float) : M float :=
  draw_with (Cgauss mu sigma)
    (fun d => match d with
              | DFloat x => Some x
              | _ => None
              end).

(** ** Configuration *)

(** Modelled from the spec: [TreeConfig] of [symb_regression.config.settings],
    with the fields [create_random_tree] reads. *)
Module TreeConfig.
Record t : Type := mk {
  ROOT_VARIABLE_SIDE_PROBABILITY : float;
  VARIABLE_PROBABILITY : float;
  OPERATOR_PROBABILITY : float;
  UNARY_OPERATOR_PROBABILITY : float;
  CONSTANT_RANGE : float * float }.
End TreeConfig.

(** Modelled from the spec: the enumeration [MutationType].  [mutate] names
    the members [SUBTREE], [OPERATOR] and [SIMPLIFY]; [OTHER] stands for any
    further member of the enumeration. *)
Inductive MutationType : Type :=
| SUBTREE
| OPERATOR
| SIMPLIFY
| OTHER (name : string).

Definition MutationType_eqb (a b : MutationType) : bool :=
  match a, b with
  | SUBTREE, SUBTREE => true
  | OPERATOR, OPERATOR => true
  | SIMPLIFY, SIMPLIFY => true
  | OTHER x, OTHER y => String.eqb x y
  | _, _ => false
  end.

(** Modelled from the spec: [MutationConfig] of
    [symb_regression.config.settings], with the fields [mutate] reads. *)
Module MutationConfig.
Record t : Type := mk {
  MUTATION_WEIGHTS : dict MutationType;
  SUBTREE_DEPTH_RANGE : Z * Z;
  VALUE_STEP_FACTOR : float;
  VARIABLE_PROBABILITY : float }.
End MutationConfig.

(** [float(n)] for a length [n]. *)
Definition float_of_nat (n : nat) : float :=
  PrimFloat.of_uint63 (Uint63.of_Z (Z.of_nat n)).

(** [{op: 1.0 / len(OPS) for op in OPS}] *)
Definition uniform_weights (ops : list string) : dict string :=
  map (fun o => (o, PrimFloat.div 1 (float_of_nat (List.length ops)))) ops.

(** ** Comparisons on node fields *)

(** [v == c] for a field [v] that may be [None]. *)
Definition value_is (v : option float) (c : float) : bool :=
  match v with
  | Some x => PrimFloat.eqb x c
  | None => false
  end.

(** [child and child.value == c]; a [Node] object is truthy, so [child] alone
    tests that the child is present. *)
Definition child_value_is (child : option Node) (c : float) : bool :=
  match child with
  | Some n => value_is (value n) c
  | None => false
  end.

(** [node.op == s] *)
Definition op_is (o : option string) (s : string) : bool :=
  match o with
  | Some x => String.eqb x s
  | None => false
  end.

(** In-place assignments [node.op = o] and [node.value = v]. *)
Definition set_op (n : Node) (o : string) : Node :=
  mkNode (Some o) (value n) (left n) (right n).

Definition set_value (n : Node) (v : float) : Node :=
  mkNode (op n) (Some v) (left n) (right n).

(** How the block guarded by [random.random() < mutation_prob] ends: with a
    [return] of the function, or by falling through to the recursion into
    the children of the (possibly updated) node. *)
Inductive flow : Type :=
| Return (n : Node)
| Fallthrough (n : Node).

Section Program.

(** The operator registries of [symb_regression.operators.definitions], by
    their symbols, and its naming of variables. *)
Variable UNARY_OPS : list string.
Variable BINARY_OPS : list string.
Variable get_var_name : Z -> string.

(** The default arguments [TreeConfig()] and [MutationConfig()], built once
    when the functions are defined. *)
Variable default_TreeConfig : TreeConfig.t.
Variable default_MutationConfig : MutationConfig.t.

Definition weights_or_default (w : option (dict string)) (ops : list string)
  : dict string :=
  match w with
  | Some d => d
  | None => uniform_weights ops
  end.

(** [create_random_tree], by recursion on a bound of the nesting of calls.
    The recursive calls do not pass [config] on: they run under the default
    configuration. *)
Fixpoint create_random_tree_rec (fuel : nat) (depth max_depth n_variables : Z)
    (unary_weights binary_weights : option (dict string))
    (config : TreeConfig.t) {struct fuel} : M Node :=
  match fuel with
  | O => out_of_fuel
  | S fuel' =>
      let unary_weights := weights_or_default unary_weights UNARY_OPS in
      let binary_weights := weights_or_default binary_weights BINARY_OPS in
      let subtree :=
        create_random_tree_rec fuel' (depth + 1) max_depth n_variables
          (Some unary_weights) (Some binary_weights) default_TreeConfig in
      if depth =? 0 then
        op <- random_choices (keys binary_weights) (values binary_weights) ;;
        var_idx <- random_randint 0 n_variables ;;
        u <- random_random ;;
        if PrimFloat.ltb u (TreeConfig.ROOT_VARIABLE_SIDE_PROBABILITY config) then
          r <- subtree ;;
          ret (mkNode (Some op) None (Some (Node_op (get_var_name var_idx))) (Some r))
        else
          l <- subtree ;;
          ret (mkNode (Some op) None (Some l) (Some (Node_op (get_var_name var_idx))))
      else if depth >=? max_depth then
        u <- random_random ;;
        if PrimFloat.ltb u (TreeConfig.VARIABLE_PROBABILITY config) then
          var_idx <- random_randint 1 n_variables ;;
          ret (Node_op (get_var_name var_idx))
        else
          v <- random_uniform (-5)%float 5%float ;;
          ret (Node_value v)
      else
        u <- random_random ;;
        if PrimFloat.ltb u (TreeConfig.OPERATOR_PROBABILITY config) then
          u' <- random_random ;;
          if PrimFloat.ltb u' (TreeConfig.UNARY_OPERATOR_PROBABILITY config) then
            op <- random_choices (keys unary_weights) (values unary_weights) ;;
            l <- subtree ;;
            ret (mkNode (Some op) None (Some l) None)
          else
            op <- random_choices (keys binary_weights) (values binary_weights) ;;
            l <- subtree ;;
            r <- subtree ;;
            ret (mkNode (Some op) None (Some l) (Some r))
        else
          u' <- random_random ;;
          if PrimFloat.ltb u' (TreeConfig.VARIABLE_PROBABILITY config) then
            var_idx <- random_randint 1 n_variables ;;
            ret (Node_op (get_var_name var_idx))
          else
            v <- random_uniform (fst (TreeConfig.CONSTANT_RANGE config))
                                (snd (TreeConfig.CONSTANT_RANGE config)) ;;
            ret (Node_value v)
  end.

(** The number of nested calls a call at [depth] can make: the depth grows
    by one per call, the root case recurses once whatever [max_depth] is,
    and a call at a nonzero [depth >= max_depth] returns a leaf. *)
Definition nesting_bound (depth max_depth : Z) : nat :=
  S (Z.to_nat (Z.max max_depth 1 - depth)).

Definition create_random_tree (depth max_depth n_variables : Z)
    (unary_weights binary_weights : option (dict string))
    (config : TreeConfig.t) : M Node :=
  create_random_tree_rec (nesting_bound depth max_depth)
    depth max_depth n_variables unary_weights binary_weights config.

(** The block [if random.random() < mutation_prob: ...] of [mutate]. *)
Definition mutate_node (node : Node) (mutation_prob : float)
    (max_depth n_variables : Z) (unary_weights binary_weights : dict string)
    (config : MutationConfig.t) : M flow :=
  u <- random_random ;;
  if PrimFloat.ltb u mutation_prob then
    mutation_type <-
      random_choices (keys (MutationConfig.MUTATION_WEIGHTS config))
                     (values (MutationConfig.MUTATION_WEIGHTS config)) ;;
    if MutationType_eqb mutation_type SUBTREE then
      d <- random_randint (fst (MutationConfig.SUBTREE_DEPTH_RANGE config))
                          (snd (MutationConfig.SUBTREE_DEPTH_RANGE config)) ;;
      t <- create_random_tree d max_depth n_variables
             (Some unary_weights) (Some binary_weights) default_TreeConfig ;;
      ret (Return t)
    else if MutationType_eqb mutation_type OPERATOR then
      if op_in (op node) UNARY_OPS then
        o <- random_choices (keys unary_weights) (values unary_weights) ;;
        ret (Fallthrough (set_op node o))
      else if op_in (op node) BINARY_OPS then
        o <- random_choices (keys binary_weights) (values binary_weights) ;;
        ret (Fallthrough (set_op node o))
      else ret (Fallthrough node)
    else if MutationType_eqb mutation_type OPERATOR then
      match value node with
      | Some v =>
          let step :=
            if negb (PrimFloat.eqb v 0)
            then PrimFloat.mul (PrimFloat.abs v)
                   (MutationConfig.VALUE_STEP_FACTOR config)
            else MutationConfig.VALUE_STEP_FACTOR config in
          g <- random_gauss 0 step ;;
          ret (Fallthrough (set_value node (PrimFloat.add v g)))
      | None => ret (Fallthrough node)
      end
    else if MutationType_eqb mutation_type SIMPLIFY then
      if op_is (op node) "*" then
        if child_value_is (left node) 0 || child_value_is (right node) 0 then
          ret (Return (Node_value 0))
        else if child_value_is (left node) 1 then
          ret (Return (match right node with Some r => copy r | None => node end))
        else if child_value_is (right node) 1 then
          ret (Return (match left node with Some l => copy l | None => node end))
        else ret (Fallthrough node)
      else ret (Fallthrough node)
    else ret (Fallthrough node)
  else ret (Fallthrough node).

(** [mutate].  After the block above the children of the node are mutated
    with an attenuated probability; these recursive calls do not pass
    [config] on either.  The block assigns [node.op] or [node.value] only,
    so the children visited are those of the node as it was passed in
    (lemma [mutate_node_children]). *)
Fixpoint mutate (node : Node) (mutation_prob : float)
    (max_depth n_variables : Z) (unary_weights binary_weights : dict string)
    (config : MutationConfig.t) {struct node} : M Node :=
  fl <- mutate_node node mutation_prob max_depth n_variables
          unary_weights binary_weights config ;;
  match fl with
  | Return n => ret n
  | Fallthrough node' =>
      let p := PrimFloat.mul mutation_prob
                 (MutationConfig.VARIABLE_PROBABILITY config) in
      match node with
      | mkNode _ _ l r =>
          l' <- match l with
                | Some ln =>
                    x <- mutate ln p max_depth n_variables
                           unary_weights binary_weights default_MutationConfig ;;
                    ret (Some x)
                | None => ret None
                end ;;
          r' <- match r with
                | Some rn =>
                    x <- mutate rn p max_depth n_variables
                           unary_weights binary_weights default_MutationConfig ;;
                    ret (Some x)
                | None => ret None
                end ;;
          ret (mkNode (op node') (value node') l' r')
      end
  end.

End Program.

(** ** Scoring *)

(** A one-dimensional [float64] array. *)
Definition ndarray : Type := list float.

Inductive result (A : Type) : Type :=
| Returns (a : A)
| Raises (e : exn).
Arguments Returns {A} a.
Arguments Raises {A} e.

(** [np.sum] on a contiguous [float64] array is numpy's pairwise summation
    (the loop [DOUBLE_pairwise_sum] of its [loops_utils.h.src]), run once
    over the whole array. *)

(** [res += a[i]] for the entries of [a] in turn. *)
Definition accumulate (res : float) (a : ndarray) : float :=
  fold_left PrimFloat.add a res.

(** [r[j] += a[i + j]] for each of the accumulators [r]. *)
Fixpoint add_each (r a : list float) : list float :=
  match r, a with
  | x :: r', y :: a' => PrimFloat.add x y :: add_each r' a'
  | _, _ => r
  end.

(** The unrolled loop [for (i = 8; i < n - (n % 8); i += 8)]: the
    accumulators after [blocks] blocks of eight entries of [a], and the
    entries it leaves. *)
Fixpoint unrolled (blocks : nat) (r a : list float) : list float * list float :=
  match blocks with
  | O => (r, a)
  | S b => unrolled b (add_each r (firstn 8 a)) (skipn 8 a)
  end.

(** [((r[0] + r[1]) + (r[2] + r[3])) + ((r[4] + r[5]) + (r[6] + r[7]))]. *)
Definition combine8 (r : list float) : float :=
  match r with
  | [r0; r1; r2; r3; r4; r5; r6; r7] =>
      PrimFloat.add
        (PrimFloat.add (PrimFloat.add r0 r1) (PrimFloat.add r2 r3))
        (PrimFloat.add (PrimFloat.add r4 r5) (PrimFloat.add r6 r7))
  | _ => nan
  end.

(** The pairwise sum of [n] entries.  Fewer than 8 are added in turn, from
    [-0.0].  Up to 128 are added in eight interleaved partial sums, which
    start from the first eight entries and are combined two by two; the
    entries after the last multiple of eight are then added in turn.  A
    longer array is cut in two at [n / 2] rounded down to a multiple of
    eight, and the sums of the two parts are added.  [fuel] bounds the
    nesting of the cuts; the length of the array is more than is needed
    (lemma [pairwise_sum_fuel]). *)
Fixpoint pairwise_sum (fuel : nat) (a : ndarray) {struct fuel} : float :=
  let n := List.length a in
  if Nat.ltb n 8 then accumulate neg_zero a
  else if Nat.leb n 128 then
    let '(r, rest) := unrolled (n / 8 - 1) (firstn 8 a) (skipn 8 a) in
    accumulate (combine8 r) rest
  else
    match fuel with
    | O => nan
    | S fuel' =>
        let n2 := (n / 2 - (n / 2) mod 8)%nat in
        PrimFloat.add (pairwise_sum fuel' (firstn n2 a))
                      (pairwise_sum fuel' (skipn n2 a))
    end.

(** [np.sum(a)]: the pairwise sum added to [-0.0], the identity of the
    reduction; the sum of an empty array is [0.0]. *)
Definition np_sum (a : ndarray) : float :=
  match a with
  | [] => 0%float
  | _ :: _ => PrimFloat.add neg_zero (pairwise_sum (List.length a) a)
  end.

(** Releases of numpy differ in the zero that the accumulation and the
    reduction start from: [np_sum] follows those that start from [-0.0],
    this sum those that start from [+0.0].  The two differ in the sign of a
    sum that is zero, and the metrics below are the same with either
    (lemma [metrics_start_independent]). *)
Definition np_sum_from_zero (a : ndarray) : float :=
  match a with
  | [] => 0%float
  | _ :: _ =>
      PrimFloat.add 0
        (if Nat.ltb (List.length a) 8 then accumulate 0 a
         else pairwise_sum (List.length a) a)
  end.

(** [np.mean(a)]: the sum divided by the number of elements; no exception on
    an empty array, whose mean is the result of [0.0 / 0]. *)
Definition np_mean (a : ndarray) : float :=
  PrimFloat.div (np_sum a) (float_of_nat (List.length a)).

(** [a ** 2], elementwise. *)
Definition np_square (a : ndarray) : ndarray :=
  map (fun x => PrimFloat.mul x x) a.

Fixpoint zip_sub (a b : ndarray) : ndarray :=
  match a, b with
  | x :: a', y :: b' => PrimFloat.sub x y :: zip_sub a' b'
  | _, _ => []
  end.

(** [a - b] on arrays, with numpy's broadcasting of a one-element array;
    [ValueError] on shapes that do not match. *)
Definition np_sub (a b : ndarray) : result ndarray :=
  if Nat.eqb (List.length a) (List.length b) then Returns (zip_sub a b)
  else match a, b with
       | _, [y] => Returns (map (fun x => PrimFloat.sub x y) a)
       | [x], _ => Returns (map (fun y => PrimFloat.sub x y) b)
       | _, _ => Raises ValueError
       end.

(** [a - c] for a scalar [c]. *)
Definition np_sub_scalar (a : ndarray) (c : float) : ndarray :=
  map (fun x => PrimFloat.sub x c) a.

(** The sum of squares [np.sum((y - np.mean(y)) ** 2)], denominator of r2. *)
Definition total_sum_of_squares (y : ndarray) : float :=
  np_sum (np_square (np_sub_scalar y (np_mean y))).

(** The metrics of [plot_prediction_analysis], its lines 164 to 167, from
    the predictions [y_pred = expression.evaluate(x, config)] and the
    targets [y]. *)
Definition score (y_pred y : ndarray) : result (float * float) :=
  match np_sub y y_pred with
  | Raises e => Raises e
  | Returns residual =>
      let mse := np_mean (np_square residual) in
      let r2 :=
        PrimFloat.sub 1
          (PrimFloat.div (np_sum (np_square residual)) (total_sum_of_squares y)) in
      Returns (mse, r2)
  end.

(** ** Vocabulary of the properties *)

(** The run of [mutate] from [st] passes the test
    [random.random() < mutation_prob] and draws the mutation type [mt],
    which leaves the random source in [st']. *)
Definition draws_mutation (mutation_prob : float) (config : MutationConfig.t)
    (mt : MutationType) (st st' : rng) : Prop :=
  exists u st1,
    random_random st = (Ok u, st1) /\
    PrimFloat.ltb u mutation_prob = true /\
    random_choices (keys (MutationConfig.MUTATION_WEIGHTS config))
                   (values (MutationConfig.MUTATION_WEIGHTS config)) st1
    = (Ok mt, st').

(** Calls to [random.gauss] in a log. *)
Definition is_gauss (c : call) : bool :=
  match c with
  | Cgauss _ _ => true
  | _ => false
  end.

Definition gauss_calls (log : list call) : nat :=
  List.length (filter is_gauss log).

(** Structural equality of trees: the same operator symbols, the same shape,
    and constants that are the same object or compare equal with [==] (the
    integer [0] of [Node(value=0)] and the floats [0.0] and [-0.0] compare
    equal). *)
Definition same_op (a b : option string) : bool :=
  match a, b with
  | None, None => true
  | Some x, Some y => String.eqb x y
  | _, _ => false
  end.

Definition same_value (v w : option float) : bool :=
  match v, w with
  | None, None => true
  | Some x, Some y => PrimFloat.Leibniz.eqb x y || PrimFloat.eqb x y
  | _, _ => false
  end.

Fixpoint Node_eqb (a b : Node) : bool :=
  match a, b with
  | mkNode o v l r, mkNode o' v' l' r' =>
      same_op o o' && same_value v v'
      && match l, l' with
         | None, None => true
         | Some x, Some y => Node_eqb x y
         | _, _ => false
         end
      && match r, r' with
         | None, None => true
         | Some x, Some y => Node_eqb x y
         | _, _ => false
         end
  end.

(** The data model's constant nodes: a node that carries a value carries no
    operator symbol and has no children. *)
Definition constant_ok (n : Node) : bool :=
  match value n, op n, left n, right n with
  | Some _, None, None, None => true
  | Some _, _, _, _ => false
  | None, _, _, _ => true
  end.

(** [child is not None] *)
Definition is_some {A} (o : option A) : bool :=
  match o with
  | Some _ => true
  | None => false
  end.

(** The arity invariant of the data model, on every node of a tree: a node
    whose symbol is a binary operator has both children, a node whose symbol
    is a unary operator has its left child and no right child. *)
Fixpoint arity_ok (UNARY_OPS BINARY_OPS : list string) (n : Node) : bool :=
  match n with
  | mkNode o _ l r =>
      (if op_in o BINARY_OPS then is_some l && is_some r else true)
      && (if op_in o UNARY_OPS then is_some l && negb (is_some r) else true)
      && match l with
         | Some l' => arity_ok UNARY_OPS BINARY_OPS l'
         | None => true
         end
      && match r with
         | Some r' => arity_ok UNARY_OPS BINARY_OPS r'
         | None => true
         end
  end.

(** The tree contains a variable-reference leaf. *)
Inductive has_variable_leaf (get_var_name : Z -> string) : Node -> Prop :=
| variable_here i :
    has_variable_leaf get_var_name (Node_op (get_var_name i))
| variable_left o v l r :
    has_variable_leaf get_var_name l ->
    has_variable_leaf get_var_name (mkNode o v (Some l) r)
| variable_right o v l r :
    has_variable_leaf get_var_name r ->
    has_variable_leaf get_var_name (mkNode o v l (Some r)).

(** Every leaf of the tree that carries a symbol is a variable whose index
    lies in the inclusive range [[lo, hi]]. *)
Fixpoint leaf_indices_within (get_var_name : Z -> string) (lo hi : Z)
    (n : Node) : Prop :=
  match n with
  | mkNode o _ l r =>
      match o, l, r with
      | Some s, None, None => exists i, lo <= i <= hi /\ s = get_var_name i
      | _, _, _ => True
      end
      /\ match l with
         | Some l' => leaf_indices_within get_var_name lo hi l'
         | None => True
         end
      /\ match r with
         | Some r' => leaf_indices_within get_var_name lo hi r'
         | None => True
         end
  end.

(** A logged call that, if it is a call of [random.randint], has the
    bounds [lo] and [hi]. *)
Definition randint_bounds_are (lo hi : Z) (c : call) : Prop :=
  match c with
  | Crandint a b => a = lo /\ b = hi
  | _ => True
  end.

(** The trees [create_random_tree] can return from a call at a given depth,
    for the weights in force: at depth 0 a binary node with a forced variable
    leaf on one side; elsewhere a variable leaf, a constant leaf or, below
    [max_depth], a unary or binary node over trees of the next depth. *)
Inductive generated (get_var_name : Z -> string) (max_depth n_variables : Z)
    (unary_weights binary_weights : dict string) : Z -> Node -> Prop :=
| generated_root_left o idx sub :
    In o (keys binary_weights) -> 0 <= idx <= n_variables ->
    generated get_var_name max_depth n_variables unary_weights binary_weights
      1 sub ->
    generated get_var_name max_depth n_variables unary_weights binary_weights
      0 (mkNode (Some o) None (Some (Node_op (get_var_name idx))) (Some sub))
| generated_root_right o idx sub :
    In o (keys binary_weights) -> 0 <= idx <= n_variables ->
    generated get_var_name max_depth n_variables unary_weights binary_weights
      1 sub ->
    generated get_var_name max_depth n_variables unary_weights binary_weights
      0 (mkNode (Some o) None (Some sub) (Some (Node_op (get_var_name idx))))
| generated_variable depth idx :
    depth <> 0 -> 1 <= idx <= n_variables ->
    generated get_var_name max_depth n_variables unary_weights binary_weights
      depth (Node_op (get_var_name idx))
| generated_constant depth v :
    depth <> 0 ->
    generated get_var_name max_depth n_variables unary_weights binary_weights
      depth (Node_value v)
| generated_unary depth o l :
    depth <> 0 -> depth < max_depth -> In o (keys unary_weights) ->
    generated get_var_name max_depth n_variables unary_weights binary_weights
      (depth + 1) l ->
    generated get_var_name max_depth n_variables unary_weights binary_weights
      depth (mkNode (Some o) None (Some l) None)
| generated_binary depth o l r :
    depth <> 0 -> depth < max_depth -> In o (keys binary_weights) ->
    generated get_var_name max_depth n_variables unary_weights binary_weights
      (depth + 1) l ->
    generated get_var_name max_depth n_variables unary_weights binary_weights
      (depth + 1) r ->
    generated get_var_name max_depth n_variables unary_weights binary_weights
      depth (mkNode (Some o) None (Some l) (Some r)).

(** ** Vocabulary of the scoring properties *)

(** The sign bit of a specification float is clear, if it has one. *)
Definition SFnonneg (x : SpecFloat.spec_float) : Prop :=
  match x with
  | SpecFloat.S754_zero s => s = false
  | SpecFloat.S754_infinity s => s = false
  | SpecFloat.S754_finite s _ _ => s = false
  | SpecFloat.S754_nan => True
  end.

(** A float that is not negative: [+0.0], a positive number, [+inf] or NaN. *)
Definition nonneg (x : float) : Prop := SFnonneg (Prim2SF x).

(** An array of [+0.0]. *)
Definition all_zero (a : ndarray) : Prop := Forall (fun v => v = 0%float) a.

(** A sum started from [+0.0] beside the same sum started from [-0.0]: the
    two are equal, or they are [+0.0] and [-0.0]. *)
Definition same_or_zeros (p q : float) : Prop :=
  p = q \/ (p = 0%float /\ q = neg_zero).

(** [np.sum((y - y_pred) ** 2)], for arrays of the same length. *)
Definition residual_sum_of_squares (y_pred y : ndarray) : float :=
  np_sum (np_square (zip_sub y y_pred)).

(** The formulas of the specification:
    [mse = mean((y - y_pred)^2)] and
    [r2 = 1 - sum((y - y_pred)^2) / sum((y - mean(y))^2)]. *)
Definition spec_mse (y_pred y : ndarray) : float :=
  PrimFloat.div (np_sum (np_square (zip_sub y y_pred)))
                (float_of_nat (List.length y)).

Definition spec_r2 (y_pred y : ndarray) : float :=
  PrimFloat.sub 1
    (PrimFloat.div (np_sum (np_square (zip_sub y y_pred)))
                   (np_sum (np_square (np_sub_scalar y (np_mean y))))).

(** ** Properties of computations in the random monad *)

(** A computation that never calls [random.gauss]. *)
Definition quiet {A} (m : M A) : Prop :=
  forall st, gauss_calls (calls (snd (m st))) = gauss_calls (calls st).

(** A computation whose run appends to the log calls that all satisfy [P]. *)
Definition logs {A} (P : call -> Prop) (m : M A) : Prop :=
  forall st, exists log,
    calls (snd (m st)) = (calls st ++ log)%list /\ Forall P log.

(** A computation that does not exhaust its recursion fuel. *)
Definition fueled {A} (m : M A) : Prop :=
  forall st, fst (m st) <> OutOfFuel.

(** ** Vocabulary of the further properties of generation and mutation *)

(** Number of nodes of a tree. *)
Fixpoint size (n : Node) : nat :=
  match n with
  | mkNode _ _ l r =>
      S ((match l with Some l' => size l' | None => 0 end)
         + (match r with Some r' => size r' | None => 0 end))
  end.

(** A probability that no draw of [random.random()] is below: a zero or NaN. *)
Definition zero_or_nan (p : float) : Prop :=
  match Prim2SF p with
  | SpecFloat.S754_zero _ => True
  | SpecFloat.S754_nan => True
  | _ => False
  end.

(** Weights [random.choices] accepts: at least one entry, and a total that is
    a positive finite number. *)
Definition usable_weights {K} (d : dict K) : bool :=
  negb (Nat.eqb (List.length d) 0)
  && negb (PrimFloat.leb (total_weight (values d)) 0)
  && isfinite (total_weight (values d)).

(** A computation that raises no exception. *)
Definition unraising {A} (m : M A) : Prop :=
  forall st e, fst (m st) <> Raise e.

(** A mutation configuration [mutate] can draw from: usable mutation weights
    and a non-empty range of start depths. *)
Definition usable_MutationConfig (c : MutationConfig.t) : bool :=
  usable_weights (MutationConfig.MUTATION_WEIGHTS c)
  && (fst (MutationConfig.SUBTREE_DEPTH_RANGE c)
      <=? snd (MutationConfig.SUBTREE_DEPTH_RANGE c)).

(** What a node of a generated tree can be: a constant leaf, a variable leaf
    with an index from 0 to [n_variables], a node with a symbol of the unary
    weights over one (left) child, or a node with a symbol of the binary
    weights over two children. *)
Definition node_form (get_var_name : Z -> string) (n_variables : Z)
    (unary_weights binary_weights : dict string) (t : Node) : Prop :=
  match t with
  | mkNode None (Some _) None None => True
  | mkNode (Some s) None None None =>
      exists i, 0 <= i <= n_variables /\ s = get_var_name i
  | mkNode (Some s) None (Some _) None => In s (keys unary_weights)
  | mkNode (Some s) None (Some _) (Some _) => In s (keys binary_weights)
  | _ => False
  end.

(** A property of every node of a tree. *)
Fixpoint every_node (P : Node -> Prop) (t : Node) : Prop :=
  P t
  /\ match t with
     | mkNode _ _ l r =>
         match l with Some l' => every_node P l' | None => True end
         /\ match r with Some r' => every_node P r' | None => True end
     end.

(** A configuration whose mutation weights name neither [SUBTREE] nor
    [SIMPLIFY]. *)
Definition operator_only (c : MutationConfig.t) : bool :=
  forallb (fun mt => match mt with
                     | SUBTREE | SIMPLIFY => false
                     | _ => true
                     end)
          (keys (MutationConfig.MUTATION_WEIGHTS c)).

(** The symbol [o'] of a node after Operator mutations of a node of symbol
    [o]: the same symbol, or, for a unary operator, a symbol of the unary
    weights and, for a binary operator that is not unary, a symbol of the
    binary weights. *)
Definition symbol_swapped (UNARY_OPS BINARY_OPS : list string)
    (unary_weights binary_weights : dict string) (o o' : option string)
  : Prop :=
  o' = o
  \/ (op_in o UNARY_OPS = true
      /\ exists s, o' = Some s /\ In s (keys unary_weights))
  \/ (op_in o UNARY_OPS = false /\ op_in o BINARY_OPS = true
      /\ exists s, o' = Some s /\ In s (keys binary_weights)).

(** [b] is [a] with some operator symbols swapped: the same shape, the same
    constants, and at each node a symbol swapped within its arity. *)
Fixpoint symbols_swapped (UNARY_OPS BINARY_OPS : list string)
    (unary_weights binary_weights : dict string) (a b : Node) : Prop :=
  match a, b with
  | mkNode o v l r, mkNode o' v' l' r' =>
      symbol_swapped UNARY_OPS BINARY_OPS unary_weights binary_weights o o'
      /\ v' = v
      /\ match l, l' with
         | Some x, Some y =>
             symbols_swapped UNARY_OPS BINARY_OPS unary_weights binary_weights
               x y
         | None, None => True
         | _, _ => False
         end
      /\ match r, r' with
         | Some x, Some y =>
             symbols_swapped UNARY_OPS BINARY_OPS unary_weights binary_weights
               x y
         | None, None => True
         | _, _ => False
         end
  end.

(** ** Data handling

    [load_data] and [split_data] of [symb_regression/utils/data_handler.py],
    on arrays of one or two dimensions.  The file system, [np.load] and the
    permutation drawn by [np.random.permutation] are inputs of the model;
    what [load_data] prints is left out, what can stop its printing is
    kept. *)

(** Exceptions beyond [IndexError] and [ValueError]. *)
Inductive exception : Type :=
| Builtin (e : exn)
| OverflowError
| FileNotFoundError
| KeyError
| OtherException
| NetworkXError.

(** A call that returns or raises. *)
Inductive attempt (A : Type) : Type :=
| Done (a : A)
| Failed (e : exception).
Arguments Done {A} a.
Arguments Failed {A} e.

Definition and_then {A B} (m : attempt A) (f : A -> attempt B) : attempt B :=
  match m with
  | Done a => f a
  | Failed e => Failed e
  end.

(** A [float64] array of one or two dimensions; a two-dimensional array of
    shape [(len(rows), ncols)] is the list of its rows. *)
Inductive array : Type :=
| Array1 (data : list float)
| Array2 (rows : list (list float)) (ncols : nat).

(** [x.ndim], [len(x)] (that is [x.shape[0]]) and [x.shape[1]]. *)
Definition ndim (x : array) : nat :=
  match x with
  | Array1 _ => 1
  | Array2 _ _ => 2
  end.

Definition len (x : array) : nat :=
  match x with
  | Array1 data => List.length data
  | Array2 rows _ => List.length rows
  end.

Definition shape1 (x : array) : nat :=
  match x with
  | Array1 _ => 0
  | Array2 _ ncols => ncols
  end.

(** [x.T]: the columns of a two-dimensional array as rows; a one-dimensional
    array is its own transpose. *)
Definition transpose (x : array) : array :=
  match x with
  | Array1 data => Array1 data
  | Array2 rows ncols =>
      Array2 (map (fun j => map (fun row => nth j row 0%float) rows)
                  (seq 0 ncols))
             (List.length rows)
  end.

(** [l[i] for i in idx], with the [IndexError] of an index out of bounds. *)
Fixpoint take_list {A} (l : list A) (idx : list nat) : attempt (list A) :=
  match idx with
  | [] => Done []
  | i :: idx' =>
      match nth_error l i with
      | Some a => and_then (take_list l idx') (fun rest => Done (a :: rest))
      | None => Failed (Builtin IndexError)
      end
  end.

(** [x[idx]] for an array [idx] of indices: the selection along the first
    axis. *)
Definition take (x : array) (idx : list nat) : attempt array :=
  match x with
  | Array1 data => and_then (take_list data idx) (fun d => Done (Array1 d))
  | Array2 rows ncols =>
      and_then (take_list rows idx) (fun r => Done (Array2 r ncols))
  end.

(** The slices [l[:k]] and [l[k:]] of Python, for any integer [k]: a
    negative [k] counts from the end, and the bound is clamped. *)
Definition slice_bound {A} (k : Z) (l : list A) : nat :=
  Z.to_nat (if k <? 0 then k + Z.of_nat (List.length l) else k).

Definition slice_to {A} (k : Z) (l : list A) : list A :=
  firstn (slice_bound k l) l.

Definition slice_from {A} (k : Z) (l : list A) : list A :=
  skipn (slice_bound k l) l.

(** [int(f)]: truncation towards zero; [OverflowError] on an infinity and
    [ValueError] on NaN. *)
Definition py_int (f : float) : attempt Z :=
  match Prim2SF f with
  | SpecFloat.S754_zero _ => Done 0
  | SpecFloat.S754_finite s m e =>
      let v := if 0 <=? e then Z.pos m * 2 ^ e
               else Z.pos m / 2 ^ (- e) in
      Done (if s then - v else v)
  | SpecFloat.S754_infinity _ => Failed OverflowError
  | SpecFloat.S754_nan => Failed (Builtin ValueError)
  end.

(** [split_data(x, y, train_ratio)]; [permutation] is what
    [np.random.permutation(n)] returns, a permutation of [range(n)]. *)
Definition split_data (permutation : list nat) (x y : array)
    (train_ratio : float) : attempt (array * array * array * array) :=
  let n := len x in
  let x := if Nat.eqb (ndim x) 2 && Nat.ltb (shape1 x) (len x)
           then transpose x else x in
  let idx := permutation in
  and_then (py_int (PrimFloat.mul (float_of_nat n) train_ratio))
    (fun train_size =>
       and_then (take x (slice_to train_size idx)) (fun x_train =>
       and_then (take x (slice_from train_size idx)) (fun x_val =>
       and_then (take y (slice_to train_size idx)) (fun y_train =>
       and_then (take y (slice_from train_size idx)) (fun y_val =>
       Done (x_train, x_val, y_train, y_val)))))).

(** The entries of an array along its first axis: the elements of a
    one-dimensional array (each as a one-element row), the rows of a
    two-dimensional one. *)
Definition entries (x : array) : list (list float) :=
  match x with
  | Array1 data => map (fun v => [v]) data
  | Array2 rows _ => rows
  end.


(** [a.min()], [a.max()], [a.mean()] and [a.std()] are only printed; of
    [a.min()] the model keeps what can stop the call: the [ValueError] of
    an empty array. *)
Definition np_min_defined (a : list float) : attempt unit :=
  match a with
  | [] => Failed (Builtin ValueError)
  | _ :: _ => Done tt
  end.

(** [np.corrcoef(a, y)[0, 1]] for one-dimensional [a] and [y], likewise:
    the two are stacked as rows, a [ValueError] unless they are equally
    long. *)
Definition np_corrcoef_defined (a y : list float) : attempt unit :=
  if Nat.eqb (List.length a) (List.length y) then Done tt
  else Failed (Builtin ValueError).

(** [x[:, i]]. *)
Definition column_of (rows : list (list float)) (i : nat) : list float :=
  map (fun row => nth i row 0%float) rows.

Fixpoint for_each {A} (l : list A) (body : A -> attempt unit) : attempt unit :=
  match l with
  | [] => Done tt
  | a :: l' => and_then (body a) (fun _ => for_each l' body)
  end.

(** Lines 25-42 of [load_data]: the statistics printed for every column of
    [x] and for [y]. *)
Definition print_statistics (x : array) (y : list float) : attempt unit :=
  and_then
    match x with
    | Array1 _ => Done tt
    | Array2 rows ncols =>
        for_each (seq 0 ncols) (fun i =>
          and_then (np_min_defined (column_of rows i)) (fun _ =>
          np_corrcoef_defined (column_of rows i) y))
    end
    (fun _ => np_min_defined y).

(** What [np.load] returns for an [.npz] file whose [y] is one-dimensional,
    as the comment on line 19 says: [data[key]] is [None] where the file has
    no such entry. *)
Record npz : Type := mkNpz
  { npz_x : option array;
    npz_y : option (list float) }.

Definition entry {A} (o : option A) : attempt A :=
  match o with
  | Some a => Done a
  | None => Failed KeyError
  end.

(** [try: body except Exception as e: raise ValueError(...) from e]. *)
Definition reraise_ValueError {A} (body : attempt A) : attempt A :=
  match body with
  | Done a => Done a
  | Failed _ => Failed (Builtin ValueError)
  end.

Section Files.

Variable os_path_join : string -> string -> string.
Variable os_path_exists : string -> bool.
Variable np_load : string -> attempt npz.

Definition load_data (data_dir problem_name : string)
    : attempt (array * list float) :=
  reraise_ValueError
    (let file_path := os_path_join data_dir (problem_name ++ ".npz") in
     if negb (os_path_exists file_path) then Failed FileNotFoundError
     else
       and_then (np_load file_path) (fun data =>
       and_then (entry (npz_x data)) (fun x =>
       and_then (entry (npz_y data)) (fun y =>
       let x := if Nat.eqb (ndim x) 2 && Nat.ltb (len x) (shape1 x)
                then transpose x else x in
       and_then (print_statistics x y) (fun _ =>
       Done (x, y)))))).

End Files.


(** A configuration whose mutation weights name neither [SUBTREE] nor
    [OPERATOR]. *)
Definition simplify_only (c : MutationConfig.t) : bool :=
  forallb (fun mt => match mt with
                     | SUBTREE | OPERATOR => false
                     | _ => true
                     end)
          (keys (MutationConfig.MUTATION_WEIGHTS c)).

(** ** Drawing of expression trees

    [plot_expression_tree] of [symb_regression/utils/plotting.py].  The
    nodes of a tree are taken to be distinct objects: [id(node)] is modelled
    by the path from the root to the node.  Of [networkx] the model keeps the
    adjacency of a [DiGraph] and the errors of its lookups; of [matplotlib],
    nothing: the result is what is handed over to be drawn. *)

Inductive side : Type := Left | Right.

(** [id(node)]. *)
Definition ident : Type := list side.

Definition side_eqb (a b : side) : bool :=
  match a, b with
  | Left, Left | Right, Right => true
  | _, _ => false
  end.

Fixpoint ident_eqb (p q : ident) : bool :=
  match p, q with
  | [], [] => true
  | a :: p', b :: q' => side_eqb a b && ident_eqb p' q'
  | _, _ => false
  end.

(** A dictionary keyed by identities, in insertion order; an assignment to
    a key already there keeps its place. *)
Definition id_dict (V : Type) : Type := list (ident * V).

Fixpoint get_item {V} (d : id_dict V) (k : ident) : option V :=
  match d with
  | [] => None
  | (k', v) :: d' => if ident_eqb k' k then Some v else get_item d' k
  end.

Fixpoint set_item {V} (k : ident) (v : V) (d : id_dict V) : id_dict V :=
  match d with
  | [] => [(k, v)]
  | (k', v') :: d' =>
      if ident_eqb k' k then (k', v) :: d' else (k', v') :: set_item k v d'
  end.

(** [nx.DiGraph]: its successor dictionary, from each node to its
    successors in the order the edges were added. *)
Definition DiGraph : Type := id_dict (list ident).

Definition add_node (G : DiGraph) (n : ident) : DiGraph :=
  match get_item G n with
  | Some _ => G
  | None => set_item n [] G
  end.

(** [G.add_edge(u, v)]: both ends become nodes if they are not, and [v] a
    successor of [u] if it is not. *)
Definition add_edge (u v : ident) (G : DiGraph) : DiGraph :=
  let G := add_node (add_node G u) v in
  match get_item G u with
  | Some s => set_item u (if existsb (ident_eqb v) s then s else s ++ [v])%list G
  | None => G
  end.

(** [list(G.neighbors(n))]: [NetworkXError] when [n] is not a node of
    [G]. *)
Definition neighbors (G : DiGraph) (n : ident) : attempt (list ident) :=
  match get_item G n with
  | Some s => Done s
  | None => Failed NetworkXError
  end.

(** [collect_nodes(node, parent_id)], with the graph [G] and the list
    [nodes_list] it updates; [current_id] is [id(node)]. *)
Fixpoint collect_nodes (node : Node) (current_id : ident)
    (parent_id : option ident) (st : DiGraph * list (ident * Node))
    {struct node} : DiGraph * list (ident * Node) :=
  match node with
  | mkNode _ _ l r =>
      let nodes_list := (snd st ++ [(current_id, node)])%list in
      let G := match parent_id with
               | Some p => add_edge p current_id (fst st)
               | None => fst st
               end in
      let st := match l with
                | Some ln =>
                    collect_nodes ln (current_id ++ [Left])%list
                      (Some current_id) (G, nodes_list)
                | None => (G, nodes_list)
                end in
      match r with
      | Some rn =>
          collect_nodes rn (current_id ++ [Right])%list (Some current_id) st
      | None => st
      end
  end.

(** The state of [_hierarchy_pos]: the dictionary [pos] and the list
    [parsed], both updated in place. *)
Definition layout : Type := id_dict (float * float) * list ident.

(** The loop [for neighbor in neighbors] of [_hierarchy_pos]; [visit] is the
    recursive call.  [None] is a recursion cut short by the bound of the
    model. *)
Fixpoint visit_neighbors
    (visit : ident -> float -> layout -> option (attempt layout))
    (neighbors : list ident) (dx nextx : float) (st : layout)
  : option (attempt layout) :=
  match neighbors with
  | [] => Some (Done st)
  | neighbor :: rest =>
      let nextx := PrimFloat.add nextx dx in
      match visit neighbor nextx st with
      | Some (Done st') => visit_neighbors visit rest dx nextx st'
      | other => other
      end
  end.

Fixpoint _hierarchy_pos (fuel : nat) (G : DiGraph) (root : ident)
    (width vert_gap vert_loc xcenter : float) (st : layout)
  : option (attempt layout) :=
  match fuel with
  | O => None
  | S fuel' =>
      let '(pos, parsed) := st in
      if existsb (ident_eqb root) parsed then Some (Done (pos, parsed))
      else
        let parsed := (parsed ++ [root])%list in
        match neighbors G root with
        | Failed e => Some (Failed e)
        | Done [] =>
            Some (Done (set_item root (xcenter, vert_loc) pos, parsed))
        | Done nbrs =>
            let dx := PrimFloat.div width (float_of_nat (List.length nbrs)) in
            let nextx :=
              PrimFloat.sub (PrimFloat.sub xcenter (PrimFloat.div width 2))
                            (PrimFloat.div dx 2) in
            match
              visit_neighbors
                (fun neighbor nextx st =>
                   _hierarchy_pos fuel' G neighbor dx vert_gap
                     (PrimFloat.sub vert_loc vert_gap) nextx st)
                nbrs dx nextx (pos, parsed)
            with
            | Some (Done (pos, parsed)) =>
                Some (Done (set_item root (xcenter, vert_loc) pos, parsed))
            | other => other
            end
        end
  end.

(** [hierarchical_layout(G, root=root)], with the defaults [width=4.0],
    [vert_gap=1.0], [vert_loc=0], [xcenter=0.5], an empty [pos] and the
    empty [parsed] of the default argument. *)
Definition hierarchical_layout (fuel : nat) (G : DiGraph) (root : ident)
  : option (attempt (id_dict (float * float))) :=
  match _hierarchy_pos fuel G root 4 1 0 0.5 ([], []) with
  | Some (Done (pos, _)) => Some (Done pos)
  | Some (Failed e) => Some (Failed e)
  | None => None
  end.

(** [nx.draw(G, pos, ...)]: [NetworkXError] for a node without position. *)
Definition nx_draw (G : DiGraph) (pos : id_dict (float * float))
  : attempt unit :=
  if forallb (fun n => match get_item pos (fst n) with
                       | Some _ => true
                       | None => false
                       end) G
  then Done tt else Failed NetworkXError.

(** [nx.draw_networkx_labels(G, pos, labels, ...)]: [pos[n]] is looked up
    for every labelled [n]. *)
Definition nx_draw_networkx_labels (pos : id_dict (float * float))
    (labels : id_dict string) : attempt unit :=
  if forallb (fun n => match get_item pos (fst n) with
                       | Some _ => true
                       | None => false
                       end) labels
  then Done tt else Failed KeyError.

(** What is drawn. *)
Record drawing : Type := mkDrawing
  { drawn_graph : DiGraph;
    drawn_pos : id_dict (float * float);
    drawn_labels : id_dict string }.

Section Drawing.

(** [str(v)] for a constant. *)
Variable str : float -> string.

(** The label of a node. *)
Definition label (n : Node) : string :=
  match op n with
  | Some o => o
  | None =>
      match value n with
      | Some v => str v
      | None => "None"
      end
  end.

Definition plot_expression_tree (fuel : nat) (root_node : Node)
  : option (attempt drawing) :=
  let '(G, nodes_list) := collect_nodes root_node [] None ([], []) in
  let root_id : ident := [] in
  match hierarchical_layout fuel G root_id with
  | None => None
  | Some (Failed e) => Some (Failed e)
  | Some (Done pos) =>
      Some
        (and_then (nx_draw G pos) (fun _ =>
         let labels :=
           fold_left (fun labels n => set_item (fst n) (label (snd n)) labels)
                     nodes_list [] in
         and_then (nx_draw_networkx_labels pos labels) (fun _ =>
         Done (mkDrawing G pos labels))))
  end.

End Drawing.


(** The node at a path of a tree. *)
Fixpoint subtree_at (n : Node) (p : ident) {struct p} : option Node :=
  match p with
  | [] => Some n
  | a :: p' =>
      match (match a with Left => left n | Right => right n end) with
      | Some c => subtree_at c p'
      | None => None
      end
  end.

(** The identities of the children of the node [n] of identity [p]. *)
Definition children_ids (p : ident) (n : Node) : list ident :=
  ((match left n with Some _ => [p ++ [Left]] | None => [] end)
   ++ (match right n with Some _ => [p ++ [Right]] | None => [] end))%list.

Definition is_leaf (n : Node) : bool :=
  match left n, right n with
  | None, None => true
  | _, _ => false
  end.

(** The vertical coordinate [k] levels below [y]: [y - 1.0 - ... - 1.0]. *)
Fixpoint level (k : nat) (y : float) : float :=
  match k with
  | O => y
  | S k' => level k' (PrimFloat.sub y 1)
  end.

(** The nodes of a tree with their identities, a node before its children
    and the left subtree before the right one. *)
Fixpoint preorder (n : Node) (p : ident) : list (ident * Node) :=
  match n with
  | mkNode _ _ l r =>
      ((p, n)
       :: (match l with Some ln => preorder ln (p ++ [Left]) | None => [] end)
       ++ (match r with Some rn => preorder rn (p ++ [Right]) | None => [] end))%list
  end.

(** The successors of a node of a graph, none for what is not a node. *)
Definition successors_or_none (G : DiGraph) (n : ident) : list ident :=
  match get_item G n with
  | Some s => s
  | None => []
  end.

(** ** The plot of the evolution

    [plot_evolution_metrics] of [symb_regression/utils/plotting.py]: the
    fields of the metrics it reads, and the calls it makes on the axes, in
    order (the keyword arguments of style left out). *)

(** The calls on the axes, of this plot and of the plot of the
    predictions. *)

Record metrics : Type := mkMetrics
  { generation : Z;
    best_fitness : float;
    avg_fitness : float;
    worst_fitness : float }.

Inductive ax_call : Type :=
| ax_plot (x : list Z) (y : list float) (fmt label : string)
| ax_plot_line (x y : list float) (fmt label : string)
| ax_scatter (x y : list float) (label : string)
| ax_text (x y : float) (s : string)
| ax_axvline (x : Z)
| ax_set_xlabel (s : string)
| ax_set_ylabel (s : string)
| ax_set_title (s : string)
| ax_legend
| ax_grid (b : bool).

(** [max(l)] on integers: [ValueError] on an empty list. *)
Definition py_max (l : list Z) : attempt Z :=
  match l with
  | [] => Failed (Builtin ValueError)
  | x :: l' => Done (fold_left Z.max l' x)
  end.

(** The scan of [np.argmax] over the elements after the first: [mp] is the
    maximum so far, found at [max_ind]; an element takes its place unless it
    is [<= mp], and a NaN ends the scan. *)
Fixpoint argmax_scan (l : list float) (i : nat) (mp : float) (max_ind : nat)
  : nat :=
  match l with
  | [] => max_ind
  | x :: l' =>
      if negb (PrimFloat.leb x mp) then
        if PrimFloat.is_nan x then i else argmax_scan l' (S i) x i
      else argmax_scan l' (S i) mp max_ind
  end.

(** [np.argmax(l)]: [ValueError] on an empty sequence. *)
Definition np_argmax (l : list float) : attempt nat :=
  match l with
  | [] => Failed (Builtin ValueError)
  | x :: l' => Done (if PrimFloat.is_nan x then 0%nat else argmax_scan l' 1 x 0)
  end.

(** [l[i]] for a non-negative [i]. *)
Definition list_item {A} (l : list A) (i : nat) : attempt A :=
  match nth_error l i with
  | Some a => Done a
  | None => Failed (Builtin IndexError)
  end.

(** [plot_evolution_metrics(metrics_history, ax)]; [ax] is the list of the
    calls already made on the axes drawn on, those passed or the current
    ones. *)
Definition plot_evolution_metrics (metrics_history : list metrics)
    (ax : list ax_call) : attempt (list ax_call) :=
  let generations := map generation metrics_history in
  and_then (py_max generations) (fun max_gen =>
  let best := map best_fitness metrics_history in
  and_then (np_argmax best) (fun i =>
  and_then (list_item generations i) (fun best_gen =>
  let avg := map avg_fitness metrics_history in
  let worst := map worst_fitness metrics_history in
  Done (ax ++ [ax_plot generations best "g-" "Best";
               ax_plot generations avg "b-" "Average";
               ax_plot generations worst "r-" "Worst";
               ax_axvline best_gen;
               ax_set_xlabel "Generation";
               ax_set_ylabel "Fitness (1 / (1 + MSE))";
               ax_set_title "Fitness Evolution";
               ax_legend;
               ax_grid true])%list))).

(** ** The plot of the predictions

    [plot_prediction_analysis] as a whole: the metrics, then the calls on
    the axes.  [np.min] and [np.max] of a non-empty array and the formatting
    of the metrics are inputs of the model. *)

Section PredictionPlot.

(** Modelled from the spec: [Node.evaluate] is not part of the sources at
    hand; it maps an input matrix to one prediction per row. *)
Variable matrix : Type.
Variable evaluate : Node -> matrix -> ndarray.

(** [np.min(a)] and [np.max(a)] for a non-empty [a]. *)
Variable np_min_value : ndarray -> float.
Variable np_max_value : ndarray -> float.

(** The text of the metrics, from [mse] and [r2]. *)
Variable metrics_text : float -> float -> string.

(** [np.min(a)], [np.max(a)]: [ValueError] on an empty array. *)
Definition np_min (a : ndarray) : attempt float :=
  match a with
  | [] => Failed (Builtin ValueError)
  | _ :: _ => Done (np_min_value a)
  end.

Definition np_max (a : ndarray) : attempt float :=
  match a with
  | [] => Failed (Builtin ValueError)
  | _ :: _ => Done (np_max_value a)
  end.

(** [ax.scatter(x, y, ...)]: [ValueError] unless [x] and [y] have the same
    size. *)
Definition scatter (x y : ndarray) (label : string) (ax : list ax_call)
  : attempt (list ax_call) :=
  if Nat.eqb (List.length x) (List.length y)
  then Done (ax ++ [ax_scatter x y label])%list
  else Failed (Builtin ValueError).

Definition plot_prediction_analysis (expression : Node) (x : matrix)
    (y : ndarray) (ax : list ax_call)
  : attempt ((float * float) * list ax_call) :=
  let y_pred := evaluate expression x in
  match score y_pred y with
  | Raises e => Failed (Builtin e)
  | Returns (mse, r2) =>
      and_then (scatter y y_pred "Predictions" ax) (fun ax =>
      and_then (np_min y) (fun min_y =>
      and_then (np_min y_pred) (fun min_pred =>
      let min_val := np_min_value [min_y; min_pred] in
      and_then (np_max y) (fun max_y =>
      and_then (np_max y_pred) (fun max_pred =>
      let max_val := np_max_value [max_y; max_pred] in
      Done ((mse, r2),
            (ax ++ [ax_plot_line [min_val; max_val] [min_val; max_val]
                      "r--" "Perfect Prediction";
                    ax_set_xlabel "True Values";
                    ax_set_ylabel "Predicted Values";
                    ax_set_title "Predicted vs True Values";
                    ax_grid true;
                    ax_legend;
                    ax_text 0x1.0333333333333p+2 1.5 (metrics_text mse r2)])%list))))))
  end.

(** The operation the specification calls [evaluate_and_score]: the pair
    that [plot_prediction_analysis] returns, or the exception it raises. *)
Definition evaluate_and_score (expression : Node) (x : matrix) (y : ndarray)
    (ax : list ax_call) : attempt (float * float) :=
  and_then (plot_prediction_analysis expression x y ax)
           (fun returned => Done (fst returned)).

End PredictionPlot.


(** * A concrete instance: registries, a naming of variables and
    configurations on which the statements are exercised *)

Definition ex_UNARY_OPS : list string := ["sin"; "cos"; "exp"; "log"].
Definition ex_BINARY_OPS : list string := ["+"; "-"; "*"; "/"].

(** [x0], [x1], ... *)
Definition ex_get_var_name (i : Z) : string :=
  String "x"%char (NilEmpty.string_of_int (Z.to_int i)).

Definition ex_TreeConfig : TreeConfig.t :=
  TreeConfig.mk 0.5 0.5 0.5 0.5 (-1, 1)%float.

Definition ex_MutationConfig : MutationConfig.t :=
  MutationConfig.mk
    [(SUBTREE, 0.25%float); (OPERATOR, 0.25%float); (SIMPLIFY, 0.5%float)]
    (1, 3) 0.125 0.5.

Definition ex_unary_weights : dict string :=
  [("sin", 1%float); ("cos", 1%float)].
Definition ex_binary_weights : dict string :=
  [("+", 1%float); ("*", 3%float)].

Definition ex_create_random_tree :=
  create_random_tree ex_UNARY_OPS ex_BINARY_OPS ex_get_var_name ex_TreeConfig.
Definition ex_mutate_node :=
  mutate_node ex_UNARY_OPS ex_BINARY_OPS ex_get_var_name ex_TreeConfig.
Definition ex_mutate :=
  mutate ex_UNARY_OPS ex_BINARY_OPS ex_get_var_name ex_TreeConfig
    ex_MutationConfig.

Definition leaf_x0 : Node := Node_op "x0".
Definition leaf_x1 : Node := Node_op "x1".
Definition leaf_x2 : Node := Node_op "x2".
Definition unary (o : string) (a : Node) : Node :=
  mkNode (Some o) None (Some a) None.
Definition binary (o : string) (a b : Node) : Node :=
  mkNode (Some o) None (Some a) (Some b).

(** A source of draws freshly started on a tape, and one that has consumed
    its tape. *)
Definition on_tape (t : list draw) : rng := mkRng t [].
Definition spent (log : list call) : rng := mkRng [] log.

(** A root-level run under [max_depth = 2]: [x0 * sin(2.5)]. *)
Definition ex_root_tape : list draw :=
  [DPick 1; DInt 0; DUnit 0.25;          (* "*", index 0, variable on the left *)
   DUnit 0.25; DUnit 0.25; DPick 0;      (* depth 1: operator, unary, "sin" *)
   DUnit 0.75; DFloat 2.5].              (* depth 2: constant 2.5 *)

Definition ex_root_tree : Node :=
  binary "*" leaf_x0 (unary "sin" (Node_value 2.5)).

Definition ex_root_log : list call :=
  [Cchoices 2; Crandint 0 2; Crandom; Crandom; Crandom; Cchoices 2; Crandom;
   Cuniform (-5) 5].

(** A run at depth 1 under [max_depth = 2]: [x1 * x2]. *)
Definition ex_inner_tape : list draw :=
  [DUnit 0.25; DUnit 0.75; DPick 1;      (* operator, binary, "*" *)
   DUnit 0.25; DInt 1;                   (* depth 2: variable, index 1 *)
   DUnit 0.25; DInt 2].                  (* depth 2: variable, index 2 *)

Definition ex_inner_log : list call :=
  [Crandom; Crandom; Cchoices 2; Crandom; Crandint 1 2; Crandom; Crandint 1 2].

(** A subtree replacement under [max_depth = 2]: in [(x0 + x1) + x1] the
    leaf [x0], at depth 2, is replaced by [create_random_tree(1, 2, ...)],
    which returns [sin(x1)]. *)
Definition ex_mutation_tape : list draw :=
  [DUnit 0.75;                           (* root: 0.75 >= 0.5, kept *)
   DUnit 0.75;                           (* x0 + x1: 0.75 >= 0.25, kept *)
   DUnit 0; DPick 0; DInt 1;             (* x0: 0 < 0.125, SUBTREE, depth 1 *)  
   DUnit 0.25; DUnit 0.25; DPick 0;      (* depth 1: operator, unary, "sin" *)
   DUnit 0.25; DInt 1;                   (* depth 2: variable, index 1 *)
   DUnit 0.75;                           (* x1: kept *)
   DUnit 0.75].                          (* x1: kept *)

Definition ex_mutation_log : list call :=
  [Crandom; Crandom; Crandom; Cchoices 3; Crandint 1 3; Crandom; Crandom;
   Cchoices 2; Crandom; Crandint 1 2; Crandom; Crandom].

(** Modelled from the spec: [Node.evaluate], on the fragment of constants,
    the variables [x0], [x1], [x2] and the operators [+] and [*]; one
    prediction per row of the input, NaN for any other node. *)
Definition ex_column (s : string) : option nat :=
  if String.eqb s "x0" then Some 0%nat
  else if String.eqb s "x1" then Some 1%nat
  else if String.eqb s "x2" then Some 2%nat
  else None.

Fixpoint ex_evaluate_row (n : Node) (row : list float) : float :=
  match n with
  | mkNode o v l r =>
      match v, o, l, r with
      | Some c, _, _, _ => c
      | None, Some s, None, None =>
          match ex_column s with
          | Some i => nth i row nan
          | None => nan
          end
      | None, Some s, Some a, Some b =>
          if String.eqb s "+" then
            PrimFloat.add (ex_evaluate_row a row) (ex_evaluate_row b row)
          else if String.eqb s "*" then
            PrimFloat.mul (ex_evaluate_row a row) (ex_evaluate_row b row)
          else nan
      | _, _, _, _ => nan
      end
  end.

Definition ex_evaluate (n : Node) (x : list (list float)) : ndarray :=
  map (ex_evaluate_row n) x.


(** A configuration whose only mutation is the Operator mutation. *)
Definition ex_operator_MutationConfig : MutationConfig.t :=
  MutationConfig.mk [(OPERATOR, 1%float)] (1, 3) 0.125 0.5.

Definition ex_operator_mutate :=
  mutate ex_UNARY_OPS ex_BINARY_OPS ex_get_var_name ex_TreeConfig
    ex_operator_MutationConfig.

(** An Operator mutation of the root of [sin(x0) + x1], nothing below. *)
Definition ex_operator_tape : list draw :=
  [DUnit 0.25; DPick 0; DPick 1;         (* root: OPERATOR, "+" becomes "*" *)
   DUnit 0.75;                           (* sin(x0): 0.75 >= 0.5, kept *)
   DUnit 0.75;                           (* x0: kept *)
   DUnit 0.75].                          (* x1: kept *)

(** A file system with the one file [data/problem_1.npz], which holds an
    [x] of shape (2, 3), two variables over three samples, and three
    targets. *)
Definition ex_os_path_join (a b : string) : string := a ++ "/" ++ b.

Definition ex_os_path_exists (p : string) : bool :=
  String.eqb p "data/problem_1.npz".

Definition ex_np_load (p : string) : attempt npz :=
  if String.eqb p "data/problem_1.npz"
  then Done (mkNpz (Some (Array2 [[1; 2; 3]; [4; 5; 6]]%float 3))
                   (Some [7; 8; 9]%float))
  else Failed OtherException.

Definition ex_load_data :=
  load_data ex_os_path_join ex_os_path_exists ex_np_load.

(** The array [load_data] returns for it, of shape (3, 2). *)
Definition ex_loaded_x : array :=
  Array2 [[1; 4]; [2; 5]; [3; 6]]%float 2.

(** The ratio [0.8], as the binary64 number it denotes. *)
Definition ex_train_ratio : float := 0x1.999999999999ap-1%float.


(** A configuration whose only mutation is the Simplify mutation. *)
Definition ex_simplify_MutationConfig : MutationConfig.t :=
  MutationConfig.mk [(SIMPLIFY, 1%float)] (1, 3) 0.125 0.5.

Definition ex_simplify_mutate :=
  mutate ex_UNARY_OPS ex_BINARY_OPS ex_get_var_name ex_TreeConfig
    ex_simplify_MutationConfig.

(** A stand-in for [str] on constants. *)
Definition ex_str (v : float) : string :=
  if PrimFloat.eqb v 2.5 then "2.5" else "?".

Definition ex_plot_expression_tree := plot_expression_tree ex_str.

(** Three generations, the best fitness reached at the second. *)
Definition ex_metrics_history : list metrics :=
  [mkMetrics 0 0.25 0.125 0.0625;
   mkMetrics 1 0.75 0.5 0.125;
   mkMetrics 2 0.75 0.5 0.25].

(** Stand-ins for [np.min] and [np.max] on non-empty arrays, and for the
    formatting of the metrics. *)
Definition ex_np_min_value (a : ndarray) : float :=
  fold_left (fun m v => if PrimFloat.ltb v m then v else m) (tl a) (hd 0%float a).

Definition ex_np_max_value (a : ndarray) : float :=
  fold_left (fun m v => if PrimFloat.ltb m v then v else m) (tl a) (hd 0%float a).

Definition ex_metrics_text (mse r2 : float) : string := "MSE, R2".

Definition ex_plot_prediction_analysis :=
  plot_prediction_analysis (list (list float)) ex_evaluate
    ex_np_min_value ex_np_max_value ex_metrics_text.

Definition ex_evaluate_and_score :=
  evaluate_and_score (list (list float)) ex_evaluate
    ex_np_min_value ex_np_max_value ex_metrics_text.

(** The numbers that the literals [0.1], [1.9] and [2.9] denote. *)
Definition ex_tenth : float := 0x1.999999999999ap-4%float.
Definition ex_1_9 : float := 0x1.e666666666666p+0%float.
Definition ex_2_9 : float := 0x1.7333333333333p+1%float.


(** * Properties *)

(** ** Runs of the random monad *)

Lemma bind_Ok {A B} (m : M A) (f : A -> M B) st b st' :
  bind m f st = (Ok b, st') ->
  exists a st1, m st = (Ok a, st1) /\ f a st1 = (Ok b, st').
Proof.
  unfold bind. destruct (m st) as [[a | e | | ] st1]; intros H; try discriminate.
  exists a, st1. split; [reflexivity | exact H].
Qed.

Lemma bind_run {A B} (m : M A) (f : A -> M B) st a st1 :
  m st = (Ok a, st1) -> bind m f st = f a st1.
Proof. unfold bind. intros ->. reflexivity. Qed.

Lemma draw_with_Ok {A} c (k : draw -> option A) st a st' :
  draw_with c k st = (Ok a, st') ->
  exists d, tape st = d :: tape st' /\ k d = Some a /\
            calls st' = (calls st ++ [c])%list.
Proof.
  unfold draw_with. destruct (tape st) as [| d rest]; [discriminate |].
  destruct (k d) as [a' |] eqn:Hk; [| discriminate].
  intros H. injection H as <- <-. exists d. simpl. auto.
Qed.

Lemma draw_with_calls {A} c (k : draw -> option A) st :
  calls (snd (draw_with c k st)) = (calls st ++ [c])%list.
Proof.
  unfold draw_with. destruct (tape st) as [| d rest]; [reflexivity |].
  destruct (k d); reflexivity.
Qed.

Lemma random_random_Ok st u st' :
  random_random st = (Ok u, st') ->
  tape st = DUnit u :: tape st' /\ calls st' = (calls st ++ [Crandom])%list.
Proof.
  intros H. apply draw_with_Ok in H. destruct H as (d & Ht & Hk & Hc).
  destruct d as [u' | | |]; try discriminate.
  destruct (PrimFloat.leb 0 u' && PrimFloat.ltb u' 1); [| discriminate].
  injection Hk as <-. auto.
Qed.

Lemma random_choices_Ok {A} (population : list A) weights st a st' :
  random_choices population weights st = (Ok a, st') ->
  In a population /\
  exists i, tape st = DPick i :: tape st' /\ nth_error population i = Some a.
Proof.
  unfold random_choices.
  destruct (negb (Nat.eqb (List.length weights) (List.length population)));
    [discriminate |].
  destruct population as [| x xs]; [discriminate |].
  destruct (PrimFloat.leb (total_weight weights) 0); [discriminate |].
  destruct (negb (isfinite (total_weight weights))); [discriminate |].
  intros H. apply draw_with_Ok in H. destruct H as (d & Ht & Hk & _).
  destruct d as [| i | |]; try discriminate. split.
  - eapply nth_error_In. exact Hk.
  - exists i. auto.
Qed.

Lemma random_choices_calls {A} (population : list A) weights st a st' :
  random_choices population weights st = (Ok a, st') ->
  calls st' = (calls st ++ [Cchoices (List.length population)])%list.
Proof.
  unfold random_choices.
  destruct (negb (Nat.eqb (List.length weights) (List.length population)));
    [discriminate |].
  destruct population as [| x xs]; [discriminate |].
  destruct (PrimFloat.leb (total_weight weights) 0); [discriminate |].
  destruct (negb (isfinite (total_weight weights))); [discriminate |].
  intros H. apply draw_with_Ok in H. destruct H as (d & _ & _ & Hc). exact Hc.
Qed.

Lemma random_randint_Ok lo hi st z st' :
  random_randint lo hi st = (Ok z, st') ->
  lo <= z <= hi /\ tape st = DInt z :: tape st' /\
  calls st' = (calls st ++ [Crandint lo hi])%list.
Proof.
  unfold random_randint. destruct (hi <? lo); [discriminate |].
  intros H. apply draw_with_Ok in H. destruct H as (d & Ht & Hk & Hc).
  destruct d as [| | z' |]; try discriminate.
  destruct ((lo <=? z') && (z' <=? hi)) eqn:Hr; [| discriminate].
  injection Hk as <-. apply andb_true_iff in Hr. destruct Hr as [H1 H2].
  apply Z.leb_le in H1. apply Z.leb_le in H2. auto.
Qed.

Lemma random_uniform_Ok a b st x st' :
  random_uniform a b st = (Ok x, st') -> tape st = DFloat x :: tape st'.
Proof.
  intros H. apply draw_with_Ok in H. destruct H as (d & Ht & Hk & _).
  destruct d as [| | | x']; try discriminate.
  injection Hk as <-. exact Ht.
Qed.

(** Inversion of a run that returned, through the binds and tests. *)
Ltac run_inversion H :=
  repeat match type of H with
         | bind _ _ _ = (Ok _, _) =>
             let a := fresh "a" in
             let st := fresh "st" in
             let Hm := fresh "Hrun" in
             apply bind_Ok in H; destruct H as (a & st & Hm & H)
         | (if ?b then _ else _) _ = (Ok _, _) =>
             let Hb := fresh "Hb" in destruct b eqn:Hb
         | ret _ _ = (Ok _, _) => unfold ret in H; injection H as <- <-
         | out_of_fuel _ = (Ok _, _) => discriminate H
         end.

(** Structural induction on trees, through the optional children. *)
Lemma Node_induction (P : Node -> Prop) :
  (forall o v l r,
      (forall ln, l = Some ln -> P ln) ->
      (forall rn, r = Some rn -> P rn) ->
      P (mkNode o v l r)) ->
  forall n, P n.
Proof.
  intros step. fix IH 1. intros [o v l r]. apply step.
  - intros ln E. destruct l as [l' |]; [| discriminate].
    injection E as <-. apply IH.
  - intros rn E. destruct r as [r' |]; [| discriminate].
    injection E as <-. apply IH.
Qed.

Lemma copy_id : forall n, copy n = n.
Proof.
  induction n as [o v l r IHl IHr] using Node_induction. simpl.
  destruct l as [l' |]; destruct r as [r' |];
    rewrite ?(IHl _ eq_refl), ?(IHr _ eq_refl); reflexivity.
Qed.

Lemma same_value_refl v : same_value v v = true.
Proof.
  destruct v as [x |]; [| reflexivity]. simpl.
  assert (H : PrimFloat.Leibniz.eqb x x = true)
    by (apply FloatAxioms.Leibniz.eqb_spec; reflexivity).
  rewrite H. reflexivity.
Qed.

Lemma same_op_refl o : same_op o o = true.
Proof. destruct o as [x |]; [apply String.eqb_refl | reflexivity]. Qed.

Lemma Node_eqb_refl : forall n, Node_eqb n n = true.
Proof.
  induction n as [o v l r IHl IHr] using Node_induction. simpl.
  rewrite same_op_refl, same_value_refl. simpl.
  destruct l as [l' |]; destruct r as [r' |];
    rewrite ?(IHl _ eq_refl), ?(IHr _ eq_refl); reflexivity.
Qed.

(** ** Floating-point facts *)

Lemma Prim2SF_one :
  Prim2SF 1%float = SpecFloat.S754_finite false 4503599627370496 (-52).
Proof. reflexivity. Qed.

(** [x == 1] holds of the float [1.0] only. *)
Lemma eqb_one x : PrimFloat.eqb x 1 = true -> x = 1%float.
Proof.
  rewrite FloatAxioms.eqb_spec, Prim2SF_one. intros H. apply Prim2SF_inj.
  rewrite Prim2SF_one.
  destruct (Prim2SF x) as [s | s | | s m e]; simpl in H; try discriminate;
    try (destruct s; discriminate).
  unfold SpecFloat.SFeqb, SpecFloat.SFcompare in H.
  destruct s; [discriminate |].
  destruct (Z.compare e (-52)) eqn:He; try discriminate.
  apply Z.compare_eq in He. subst e.
  destruct (Pos.compare_cont Eq m 4503599627370496) eqn:Hm; try discriminate.
  apply Pos.compare_eq in Hm. subst m. reflexivity.
Qed.

Lemma value_one_not_zero v : value_is v 1 = true -> value_is v 0 = false.
Proof.
  destruct v as [x |]; [| reflexivity]. simpl. intros H.
  rewrite (eqb_one _ H). reflexivity.
Qed.

(** [x == 0] holds of the floats [0.0] and [-0.0] only. *)
Lemma eqb_zero x :
  PrimFloat.eqb x 0 = true -> x = 0%float \/ x = (-0)%float.
Proof.
  rewrite FloatAxioms.eqb_spec. intros H.
  destruct (Prim2SF x) as [s | s | | s m e] eqn:Hx;
    try (destruct s; discriminate); try discriminate.
  destruct s; [right | left]; apply Prim2SF_inj; rewrite Hx; reflexivity.
Qed.

(** A constant node obeying the data model and whose value is 1 is the node
    [Node(value=1)]. *)
Lemma constant_one n :
  constant_ok n = true -> value_is (value n) 1 = true -> n = Node_value 1.
Proof.
  destruct n as [o v l r]. unfold constant_ok. simpl.
  destruct v as [x |]; [| discriminate]. simpl. intros Hok H1.
  rewrite (eqb_one _ H1).
  destruct o; [discriminate |]. destruct l; [discriminate |].
  destruct r; [discriminate |]. reflexivity.
Qed.

(** [Node(value=0)] is structurally equal to any constant node whose value
    compares equal to 0. *)
Lemma Node_eqb_zero_constant n :
  value_is (value n) 0 = true -> constant_ok n = true ->
  Node_eqb (Node_value 0) n = true.
Proof.
  destruct n as [o v l r]. unfold constant_ok. simpl.
  destruct v as [x |]; [| discriminate]. simpl. intros H0 Hok.
  destruct o; [discriminate |]. destruct l; [discriminate |].
  destruct r; [discriminate |].
  destruct (eqb_zero _ H0) as [-> | ->]; reflexivity.
Qed.

(** ** Signs and classes of floats, through their specification *)

Lemma binary_round_aux_nonneg mx ex lx :
  SFnonneg (SpecFloat.binary_round_aux prec emax false mx ex lx).
Proof.
  unfold SpecFloat.binary_round_aux.
  destruct (SpecFloat.shr_fexp prec emax mx ex lx) as [mrs' e'].
  destruct (SpecFloat.shr_fexp prec emax _ e' SpecFloat.loc_Exact)
    as [mrs'' e''].
  destruct (SpecFloat.shr_m mrs''); simpl; auto.
  match goal with |- context [if ?b then _ else _] => destruct b end;
    reflexivity.
Qed.

Lemma binary_round_nonneg mx ex :
  SFnonneg (SpecFloat.binary_round prec emax false mx ex).
Proof.
  unfold SpecFloat.binary_round.
  destruct (SpecFloat.shl_align mx ex _) as [mz ez].
  apply binary_round_aux_nonneg.
Qed.

Lemma mul_self_nonneg x : nonneg (PrimFloat.mul x x).
Proof.
  unfold nonneg. rewrite FloatAxioms.mul_spec. unfold SF64mul, SpecFloat.SFmul.
  destruct (Prim2SF x) as [s | s | | s m e]; try (destruct s; reflexivity);
    try exact I.
  replace (xorb s s) with false by (destruct s; reflexivity).
  apply binary_round_aux_nonneg.
Qed.

Lemma add_nonneg x y : nonneg x -> nonneg y -> nonneg (PrimFloat.add x y).
Proof.
  unfold nonneg. rewrite FloatAxioms.add_spec. unfold SF64add, SpecFloat.SFadd.
  destruct (Prim2SF x) as [s | s | | s m e];
    destruct (Prim2SF y) as [s' | s' | | s' m' e'];
    simpl; intros Hx Hy; subst; simpl; auto.
  apply binary_round_nonneg.
Qed.

Lemma np_square_nonneg a : Forall nonneg (np_square a).
Proof.
  induction a as [| x a IH]; simpl; constructor;
    [apply mul_self_nonneg | exact IH].
Qed.

Lemma fold_add_nonneg a : forall x,
  nonneg x -> Forall nonneg a -> nonneg (fold_left PrimFloat.add a x).
Proof.
  induction a as [| y a IH]; intros x Hx Ha; simpl; [exact Hx |].
  inversion Ha; subst. apply IH; [apply add_nonneg |]; assumption.
Qed.

(** Adding to [-0.0] changes nothing: [-0.0 + y] is [y]. *)
Lemma add_neg_zero_nonneg y : nonneg y -> nonneg (PrimFloat.add neg_zero y).
Proof.
  unfold nonneg. rewrite FloatAxioms.add_spec. unfold SF64add, SpecFloat.SFadd.
  replace (Prim2SF neg_zero) with (SpecFloat.S754_zero true) by reflexivity.
  destruct (Prim2SF y) as [s | s | | s m e]; simpl; intros Hy; subst;
    simpl; auto.
Qed.

Lemma accumulate_nonneg a res :
  nonneg res -> Forall nonneg a -> nonneg (accumulate res a).
Proof. intros Hr Ha. apply fold_add_nonneg; assumption. Qed.

Lemma accumulate_neg_zero_nonneg a :
  a <> [] -> Forall nonneg a -> nonneg (accumulate neg_zero a).
Proof.
  destruct a as [| x a]; [congruence |]. intros _ Ha. inversion Ha; subst.
  cbn [accumulate fold_left]. apply fold_add_nonneg; [| assumption].
  apply add_neg_zero_nonneg. assumption.
Qed.

Lemma add_each_nonneg r : forall a,
  Forall nonneg r -> Forall nonneg a -> Forall nonneg (add_each r a).
Proof.
  induction r as [| x r IH]; intros [| y a] Hr Ha; simpl; auto.
  inversion Hr; inversion Ha; subst. constructor;
    [apply add_nonneg; assumption | apply IH; assumption].
Qed.

Lemma Forall_take {A} (P : A -> Prop) n l : Forall P l -> Forall P (firstn n l).
Proof.
  intros H. rewrite <- (firstn_skipn n l) in H. apply Forall_app in H. tauto.
Qed.

Lemma Forall_drop {A} (P : A -> Prop) n l : Forall P l -> Forall P (skipn n l).
Proof.
  intros H. rewrite <- (firstn_skipn n l) in H. apply Forall_app in H. tauto.
Qed.

Lemma unrolled_nonneg blocks : forall r a,
  Forall nonneg r -> Forall nonneg a ->
  Forall nonneg (fst (unrolled blocks r a))
  /\ Forall nonneg (snd (unrolled blocks r a)).
Proof.
  induction blocks as [| b IH]; intros r a Hr Ha; cbn [unrolled fst snd];
    [auto |].
  apply IH.
  - apply add_each_nonneg; [assumption | apply Forall_take; assumption].
  - apply Forall_drop; assumption.
Qed.

Lemma combine8_nonneg r : Forall nonneg r -> nonneg (combine8 r).
Proof.
  intros H. unfold combine8.
  destruct r as [| r0 [| r1 [| r2 [| r3 [| r4 [| r5 [| r6 [| r7 [| r8 r]]]]]]]]];
    try exact I.
  repeat match goal with
         | H : Forall _ (_ :: _) |- _ => inversion H; subst; clear H
         end.
  repeat apply add_nonneg; assumption.
Qed.

(** The sum of entries that are not negative is not negative. *)
Lemma pairwise_sum_nonneg fuel : forall a,
  a <> [] -> Forall nonneg a -> nonneg (pairwise_sum fuel a).
Proof.
  induction fuel as [| fuel IH]; intros a Hne Ha; cbn [pairwise_sum].
  - destruct (Nat.ltb _ 8); [apply accumulate_neg_zero_nonneg; assumption |].
    destruct (Nat.leb _ 128); [| exact I].
    destruct (unrolled _ _ _) as [r rest] eqn:E.
    pose proof (unrolled_nonneg (List.length a / 8 - 1)%nat (firstn 8 a)
                  (skipn 8 a) (Forall_take _ _ _ Ha) (Forall_drop _ _ _ Ha))
      as [Hr Hrest].
    rewrite E in Hr, Hrest. apply accumulate_nonneg;
      [apply combine8_nonneg |]; assumption.
  - destruct (Nat.ltb _ 8); [apply accumulate_neg_zero_nonneg; assumption |].
    destruct (Nat.leb_spec (List.length a) 128) as [Hle | Hgt].
    + destruct (unrolled _ _ _) as [r rest] eqn:E.
      pose proof (unrolled_nonneg (List.length a / 8 - 1)%nat (firstn 8 a)
                    (skipn 8 a) (Forall_take _ _ _ Ha)
                    (Forall_drop _ _ _ Ha))
        as [Hr Hrest].
      rewrite E in Hr, Hrest. apply accumulate_nonneg;
        [apply combine8_nonneg |]; assumption.
    + set (n2 := (List.length a / 2 - (List.length a / 2) mod 8)%nat).
      assert (Hn2 : (1 <= n2 < List.length a)%nat).
      { subst n2.
        pose proof (Nat.div_mod_eq (List.length a) 2).
        pose proof (Nat.mod_upper_bound (List.length a) 2 ltac:(lia)).
        pose proof (Nat.mod_upper_bound (List.length a / 2) 8 ltac:(lia)).
        lia. }
      apply add_nonneg; apply IH.
      * intros E. apply (f_equal (@List.length float)) in E.
        rewrite length_firstn in E. simpl in E. lia.
      * apply Forall_take; assumption.
      * intros E. apply (f_equal (@List.length float)) in E.
        rewrite length_skipn in E. simpl in E. lia.
      * apply Forall_drop; assumption.
Qed.

Lemma np_sum_nonneg a : Forall nonneg a -> nonneg (np_sum a).
Proof.
  destruct a as [| x a]; intros Ha; [reflexivity |].
  cbn [np_sum]. apply add_neg_zero_nonneg, pairwise_sum_nonneg;
    [discriminate | exact Ha].
Qed.

(** A float that is not negative and compares equal to 0 is [+0.0]. *)
Lemma nonneg_zero x :
  nonneg x -> PrimFloat.eqb x 0 = true ->
  Prim2SF x = SpecFloat.S754_zero false.
Proof.
  unfold nonneg. rewrite FloatAxioms.eqb_spec.
  destruct (Prim2SF x) as [s | s | | s m e]; simpl; intros Hx H0; subst;
    try discriminate; reflexivity.
Qed.

(** Division of a float that is not negative by [+0.0]: NaN for 0 and NaN,
    [+inf] otherwise; and [1 - q] for such a quotient [q]. *)
Lemma one_minus_div_zero num den :
  nonneg num -> Prim2SF den = SpecFloat.S754_zero false ->
  PrimFloat.sub 1 (PrimFloat.div num den)
  = if PrimFloat.eqb num 0 || PrimFloat.is_nan num then nan else neg_infinity.
Proof.
  unfold nonneg, PrimFloat.is_nan. intros Hn Hd.
  rewrite !FloatAxioms.eqb_spec.
  apply Prim2SF_inj. rewrite FloatAxioms.sub_spec, FloatAxioms.div_spec, Hd.
  destruct (Prim2SF num) as [s | s | | s m e] eqn:Hnum; simpl in Hn; subst;
    try reflexivity.
  unfold SpecFloat.SFeqb. simpl.
  rewrite Z.compare_refl, Pos.compare_cont_refl. reflexivity.
Qed.

(** A finite float is a zero or a finite number. *)
Lemma is_finite_spec x :
  PrimFloat.is_finite x = true ->
  (exists s, Prim2SF x = SpecFloat.S754_zero s)
  \/ (exists s m e, Prim2SF x = SpecFloat.S754_finite s m e).
Proof.
  unfold PrimFloat.is_finite, PrimFloat.is_nan, PrimFloat.is_infinity.
  rewrite !FloatAxioms.eqb_spec, FloatAxioms.abs_spec.
  replace (Prim2SF infinity) with (SpecFloat.S754_infinity false)
    by reflexivity.
  destruct (Prim2SF x) as [s | s | | s m e]; simpl; intros H;
    try discriminate; eauto.
  destruct s; discriminate.
Qed.

(** [x - x] is [+0.0] for a finite [x]. *)
Lemma sub_diag_finite x :
  PrimFloat.is_finite x = true -> PrimFloat.sub x x = 0%float.
Proof.
  intros H. apply Prim2SF_inj. rewrite FloatAxioms.sub_spec.
  destruct (is_finite_spec x H) as [(s & ->) | (s & m & e & ->)].
  - destruct s; reflexivity.
  - unfold SF64sub, SpecFloat.SFsub. rewrite Z.sub_diag. reflexivity.
Qed.

Lemma zip_sub_diag y :
  Forall (fun v => PrimFloat.is_finite v = true) y -> all_zero (zip_sub y y).
Proof.
  induction 1 as [| v y Hv Hy IH]; simpl; constructor;
    [apply sub_diag_finite, Hv | exact IH].
Qed.

Lemma np_square_zero a : all_zero a -> all_zero (np_square a).
Proof.
  induction 1 as [| v a Hv Ha IH]; simpl; constructor;
    [subst v; reflexivity | exact IH].
Qed.

Lemma split_point n :
  (128 < n)%nat -> (1 <= n / 2 - (n / 2) mod 8 < n)%nat.
Proof.
  intros Hn.
  pose proof (Nat.div_mod_eq n 2).
  pose proof (Nat.mod_upper_bound n 2 ltac:(lia)).
  pose proof (Nat.mod_upper_bound (n / 2) 8 ltac:(lia)).
  lia.
Qed.

(** The bound on the nesting of the splits is never reached: any fuel that
    is at least the length of the array gives the same sum. *)
Lemma pairwise_sum_fuel fuel : forall fuel' a,
  (List.length a <= fuel)%nat -> (List.length a <= fuel')%nat ->
  pairwise_sum fuel a = pairwise_sum fuel' a.
Proof.
  induction fuel as [| fuel IH]; intros fuel' a H H'.
  - destruct a; [| simpl in H; lia]. destruct fuel'; reflexivity.
  - destruct fuel' as [| fuel'].
    + destruct a; [reflexivity | simpl in H'; lia].
    + cbn [pairwise_sum].
      destruct (Nat.ltb _ 8); [reflexivity |].
      destruct (Nat.leb_spec (List.length a) 128) as [Hle | Hgt];
        [reflexivity |].
      pose proof (split_point _ Hgt) as Hn2.
      f_equal; apply IH; rewrite ?length_firstn, ?length_skipn; lia.
Qed.

Lemma pairwise_sum_small fuel a :
  (List.length a < 8)%nat -> pairwise_sum fuel a = accumulate neg_zero a.
Proof.
  intros H. apply Nat.ltb_lt in H.
  destruct fuel; cbn [pairwise_sum]; rewrite H; reflexivity.
Qed.

Lemma accumulate_zero a : all_zero a -> accumulate 0 a = 0%float.
Proof.
  induction 1 as [| v a Hv Ha IH]; [reflexivity |].
  subst v. cbn [accumulate fold_left]. exact IH.
Qed.

Lemma accumulate_neg_zero_zero a :
  a <> [] -> all_zero a -> accumulate neg_zero a = 0%float.
Proof.
  destruct a as [| v a]; [congruence |]. intros _ Ha.
  inversion Ha; subst. cbn [accumulate fold_left].
  apply accumulate_zero. assumption.
Qed.

Lemma add_each_zero r : forall a,
  all_zero r -> all_zero a -> all_zero (add_each r a).
Proof.
  induction r as [| x r IH]; intros [| y a] Hr Ha; cbn [add_each]; auto.
  inversion Hr; inversion Ha; subst. constructor;
    [reflexivity | apply IH; assumption].
Qed.

Lemma length_add_each r : forall a,
  List.length (add_each r a) = List.length r.
Proof.
  induction r as [| x r IH]; intros [| y a]; cbn [add_each List.length];
    auto.
Qed.

Lemma unrolled_zero blocks : forall r a,
  all_zero r -> all_zero a ->
  all_zero (fst (unrolled blocks r a))
  /\ all_zero (snd (unrolled blocks r a))
  /\ List.length (fst (unrolled blocks r a)) = List.length r.
Proof.
  induction blocks as [| b IH]; intros r a Hr Ha; cbn [unrolled fst snd];
    [auto |].
  destruct (IH (add_each r (firstn 8 a)) (skipn 8 a)) as (H1 & H2 & H3).
  - apply add_each_zero; [assumption | apply Forall_take; assumption].
  - apply Forall_drop; assumption.
  - rewrite length_add_each in H3. auto.
Qed.

Lemma combine8_zero r :
  all_zero r -> List.length r = 8%nat -> combine8 r = 0%float.
Proof.
  intros H Hlen.
  destruct r as [| r0 [| r1 [| r2 [| r3 [| r4 [| r5 [| r6 [| r7 [| r8 r]]]]]]]]];
    try discriminate.
  repeat match goal with
         | H : all_zero (_ :: _) |- _ => inversion H; subst; clear H
         | H : Forall _ (_ :: _) |- _ => inversion H; subst; clear H
         end.
  reflexivity.
Qed.

(** A sum of [+0.0] entries is [+0.0]. *)
Lemma pairwise_sum_zero fuel : forall a,
  a <> [] -> all_zero a -> (List.length a <= fuel)%nat ->
  pairwise_sum fuel a = 0%float.
Proof.
  induction fuel as [| fuel IH]; intros a Hne Ha Hfuel.
  - destruct a; [congruence | simpl in Hfuel; lia].
  - cbn [pairwise_sum].
    destruct (Nat.ltb_spec (List.length a) 8) as [Hlt | Hge];
      [apply accumulate_neg_zero_zero; assumption |].
    destruct (Nat.leb_spec (List.length a) 128) as [Hle | Hgt].
    + destruct (unrolled _ _ _) as [r rest] eqn:E.
      destruct (unrolled_zero (List.length a / 8 - 1)%nat (firstn 8 a)
                  (skipn 8 a) (Forall_take _ _ _ Ha) (Forall_drop _ _ _ Ha))
        as (Hr & Hrest & Hlen).
      rewrite E in Hr, Hrest, Hlen. cbn [fst snd] in Hr, Hrest, Hlen.
      rewrite length_firstn in Hlen.
      rewrite (Nat.min_l _ _ Hge) in Hlen.
      rewrite (combine8_zero r Hr Hlen).
      apply accumulate_zero. assumption.
    + pose proof (split_point _ Hgt) as Hn2.
      set (n2 := (List.length a / 2 - (List.length a / 2) mod 8)%nat) in *.
      clearbody n2.
      assert (H1 : firstn n2 a <> []).
      { intros E. apply (f_equal (@List.length float)) in E.
        rewrite length_firstn in E. cbn [List.length] in E. lia. }
      assert (H2 : skipn n2 a <> []).
      { intros E. apply (f_equal (@List.length float)) in E.
        rewrite length_skipn in E. cbn [List.length] in E. lia. }
      rewrite (IH (firstn n2 a) H1 (Forall_take _ _ _ Ha))
        by (rewrite length_firstn; lia).
      rewrite (IH (skipn n2 a) H2 (Forall_drop _ _ _ Ha))
        by (rewrite length_skipn; lia).
      reflexivity.
Qed.

Lemma np_sum_zero a : all_zero a -> np_sum a = 0%float.
Proof.
  destruct a as [| v a]; intros Ha; [reflexivity |].
  cbn [np_sum]. rewrite pairwise_sum_zero;
    [reflexivity | discriminate | exact Ha | lia].
Qed.

(** The number of binary digits of a positive number below [2 ^ k]. *)
Lemma digits2_pos_le p : forall k,
  0 <= k -> Z.pos p < 2 ^ k -> Z.pos (SpecFloat.digits2_pos p) <= k.
Proof.
  induction p as [p IH | p IH |]; intros k Hk Hp; simpl.
  - assert (k <> 0) by (intros ->; simpl in Hp; lia).
    replace k with (Z.succ (k - 1)) in Hp by lia.
    rewrite Z.pow_succ_r in Hp by lia.
    specialize (IH (k - 1) ltac:(lia) ltac:(lia)). lia.
  - assert (k <> 0) by (intros ->; simpl in Hp; lia).
    replace k with (Z.succ (k - 1)) in Hp by lia.
    rewrite Z.pow_succ_r in Hp by lia.
    specialize (IH (k - 1) ltac:(lia) ltac:(lia)). lia.
  - assert (k <> 0) by (intros ->; simpl in Hp; lia). lia.
Qed.

Lemma digits2_pos_iter_xO p k :
  SpecFloat.digits2_pos (Pos.iter xO p k)
  = (SpecFloat.digits2_pos p + k)%positive.
Proof.
  induction k as [| k IH] using Pos.peano_ind.
  - simpl. lia.
  - rewrite Pos.iter_succ. simpl. rewrite IH. lia.
Qed.

(** A mantissa of 53 digits with an exponent in range is not rounded. *)
Lemma binary_round_aux_exact m e :
  Z.pos (SpecFloat.digits2_pos m) = 53 -> -1074 <= e <= 971 ->
  SpecFloat.binary_round_aux prec emax false (Z.pos m) e SpecFloat.loc_Exact
  = SpecFloat.S754_finite false m e.
Proof.
  intros Hm He.
  assert (Hshift : forall l,
             SpecFloat.shr_fexp prec emax (Z.pos m) e l
             = (SpecFloat.shr_record_of_loc (Z.pos m) l, e)).
  { intros l. unfold SpecFloat.shr_fexp, SpecFloat.fexp, SpecFloat.emin.
    simpl SpecFloat.Zdigits2. rewrite Hm.
    replace (Z.max (53 + e - prec) (3 - emax - prec) - e) with 0
      by (unfold prec, emax; lia).
    reflexivity. }
  unfold SpecFloat.binary_round_aux. rewrite Hshift. simpl.
  rewrite Hshift. simpl.
  replace (e <=? 971) with true by (symmetry; apply Z.leb_le; lia).
  reflexivity.
Qed.

(** [float(n)] is a positive finite number for [1 <= n < 2 ^ 53]. *)
Lemma float_of_nat_positive n :
  (1 <= n)%nat -> Z.of_nat n < 2 ^ 53 ->
  exists m e, Prim2SF (float_of_nat n) = SpecFloat.S754_finite false m e.
Proof.
  intros H1 H2. unfold float_of_nat. rewrite of_uint63_spec, of_Z_spec.
  rewrite Z.mod_small by (unfold wB; simpl; lia).
  destruct (Z.of_nat n) as [| p |] eqn:Hn; try lia.
  unfold SpecFloat.binary_normalize, SpecFloat.binary_round.
  pose proof (digits2_pos_le p 53 ltac:(lia) H2) as Hd.
  unfold SpecFloat.shl_align, SpecFloat.fexp, SpecFloat.emin.
  replace (Z.max (Z.pos (SpecFloat.digits2_pos p) + 0 - prec)
             (3 - emax - prec) - 0)
    with (Z.pos (SpecFloat.digits2_pos p) - 53)
    by (unfold prec, emax; lia).
  destruct (Z.pos (SpecFloat.digits2_pos p) - 53) as [| k | k] eqn:Hk;
    try lia.
  - eexists. eexists. apply binary_round_aux_exact; lia.
  - eexists. eexists. apply binary_round_aux_exact.
    + rewrite digits2_pos_iter_xO. lia.
    + unfold prec, emax. lia.
Qed.

(** [+0.0 / d] is [+0.0] for a positive [d]. *)
Lemma zero_div_positive d :
  (exists m e, Prim2SF d = SpecFloat.S754_finite false m e)
  \/ Prim2SF d = SpecFloat.S754_infinity false ->
  PrimFloat.div 0 d = 0%float.
Proof.
  intros H. apply Prim2SF_inj. rewrite FloatAxioms.div_spec.
  destruct H as [(m & e & ->) | ->]; reflexivity.
Qed.

Lemma ltb_zero_positive d :
  PrimFloat.ltb 0 d = true ->
  (exists m e, Prim2SF d = SpecFloat.S754_finite false m e)
  \/ Prim2SF d = SpecFloat.S754_infinity false.
Proof.
  rewrite FloatAxioms.ltb_spec.
  destruct (Prim2SF d) as [s | s | | s m e]; simpl;
    try destruct s; try discriminate; eauto.
Qed.

(** ** The log of calls *)

Lemma gauss_calls_snoc log c :
  is_gauss c = false -> gauss_calls (log ++ [c]) = gauss_calls log.
Proof.
  intros H. unfold gauss_calls. rewrite filter_app. simpl. rewrite H.
  rewrite app_nil_r. reflexivity.
Qed.

Lemma quiet_ret {A} (a : A) : quiet (ret a).
Proof. intros st. reflexivity. Qed.

Lemma quiet_out_of_fuel {A} : quiet (@out_of_fuel A).
Proof. intros st. reflexivity. Qed.

Lemma quiet_bind {A B} (m : M A) (f : A -> M B) :
  quiet m -> (forall a, quiet (f a)) -> quiet (bind m f).
Proof.
  intros Hm Hf st. unfold bind. specialize (Hm st).
  destruct (m st) as [[a | e | | ] st1]; simpl in *; try exact Hm.
  rewrite Hf. exact Hm.
Qed.

Lemma quiet_draw_with {A} c (k : draw -> option A) :
  is_gauss c = false -> quiet (draw_with c k).
Proof.
  intros Hc st. rewrite draw_with_calls. apply gauss_calls_snoc, Hc.
Qed.

Lemma quiet_fail_with {A} c e : is_gauss c = false -> quiet (@fail_with A c e).
Proof. intros Hc st. simpl. apply gauss_calls_snoc, Hc. Qed.

Lemma quiet_random_random : quiet random_random.
Proof. apply quiet_draw_with. reflexivity. Qed.

Lemma quiet_random_choices {A} (population : list A) weights :
  quiet (random_choices population weights).
Proof.
  unfold random_choices.
  destruct (negb (Nat.eqb (List.length weights) (List.length population)));
    [apply quiet_fail_with; reflexivity |].
  destruct population as [| x xs]; [apply quiet_fail_with; reflexivity |].
  destruct (PrimFloat.leb (total_weight weights) 0);
    [apply quiet_fail_with; reflexivity |].
  destruct (negb (isfinite (total_weight weights)));
    [apply quiet_fail_with; reflexivity |].
  apply quiet_draw_with. reflexivity.
Qed.

Lemma quiet_random_randint lo hi : quiet (random_randint lo hi).
Proof.
  unfold random_randint. destruct (hi <? lo).
  - apply quiet_fail_with. reflexivity.
  - apply quiet_draw_with. reflexivity.
Qed.

Lemma quiet_random_uniform a b : quiet (random_uniform a b).
Proof. apply quiet_draw_with. reflexivity. Qed.

Create HintDb quiet.

#[local] Hint Resolve quiet_ret quiet_out_of_fuel quiet_random_random
  quiet_random_choices quiet_random_randint quiet_random_uniform : quiet.

Ltac quiet_step :=
  match goal with
  | |- quiet (bind _ _) => apply quiet_bind; [| intros ?]
  | |- quiet (if ?b then _ else _) => destruct b
  | |- quiet (match ?x with Some _ => _ | None => _ end) => destruct x
  | |- quiet _ => solve [auto with quiet]
  end.

Lemma logs_ret {A} P (a : A) : logs P (ret a).
Proof. intros st. exists []. simpl. rewrite app_nil_r. auto. Qed.

Lemma logs_out_of_fuel {A} P : logs P (@out_of_fuel A).
Proof. intros st. exists []. simpl. rewrite app_nil_r. auto. Qed.

Lemma logs_bind {A B} P (m : M A) (f : A -> M B) :
  logs P m -> (forall a, logs P (f a)) -> logs P (bind m f).
Proof.
  intros Hm Hf st. unfold bind. destruct (Hm st) as (log & Hlog & HP).
  destruct (m st) as [[a | e | | ] st1]; simpl in *;
    try solve [exists log; auto].
  destruct (Hf a st1) as (log' & Hlog' & HP').
  exists (log ++ log')%list. rewrite Hlog', Hlog, app_assoc. split; [reflexivity |].
  apply Forall_app. auto.
Qed.

Lemma logs_draw_with {A} (P : call -> Prop) c (k : draw -> option A) :
  P c -> logs P (draw_with c k).
Proof. intros Hc st. exists [c]. rewrite draw_with_calls. auto. Qed.

Lemma logs_fail_with {A} (P : call -> Prop) c e :
  P c -> logs P (@fail_with A c e).
Proof. intros Hc st. exists [c]. simpl. auto. Qed.

Lemma logs_random_random (P : call -> Prop) : P Crandom -> logs P random_random.
Proof. intros HP. apply logs_draw_with, HP. Qed.

Lemma logs_random_choices {A} (P : call -> Prop) (population : list A) weights :
  P (Cchoices (List.length population)) ->
  logs P (random_choices population weights).
Proof.
  intros HP. unfold random_choices.
  destruct (negb (Nat.eqb (List.length weights) (List.length population)));
    [apply logs_fail_with, HP |].
  destruct population as [| x xs]; [apply logs_fail_with, HP |].
  destruct (PrimFloat.leb (total_weight weights) 0);
    [apply logs_fail_with, HP |].
  destruct (negb (isfinite (total_weight weights)));
    [apply logs_fail_with, HP |].
  apply logs_draw_with, HP.
Qed.

Lemma logs_random_randint (P : call -> Prop) lo hi :
  P (Crandint lo hi) -> logs P (random_randint lo hi).
Proof.
  intros HP. unfold random_randint. destruct (hi <? lo).
  - apply logs_fail_with, HP.
  - apply logs_draw_with, HP.
Qed.

Lemma logs_random_uniform (P : call -> Prop) a b :
  P (Cuniform a b) -> logs P (random_uniform a b).
Proof. intros HP. apply logs_draw_with, HP. Qed.

(** The log after a run that returned. *)
Lemma logs_Ok {A} P (m : M A) st a st' :
  logs P m -> m st = (Ok a, st') ->
  exists log, calls st' = (calls st ++ log)%list /\ Forall P log.
Proof. intros Hm H. specialize (Hm st). rewrite H in Hm. exact Hm. Qed.

Lemma fueled_ret {A} (a : A) : fueled (ret a).
Proof. intros st. discriminate. Qed.

Lemma fueled_bind {A B} (m : M A) (f : A -> M B) :
  fueled m -> (forall a, fueled (f a)) -> fueled (bind m f).
Proof.
  intros Hm Hf st. unfold bind. specialize (Hm st).
  destruct (m st) as [[a | e | | ] st1]; simpl in *;
    try discriminate; try (exfalso; apply Hm; reflexivity).
  apply Hf.
Qed.

Lemma fueled_draw_with {A} c (k : draw -> option A) : fueled (draw_with c k).
Proof.
  intros st. unfold draw_with. destruct (tape st) as [| d rest]; [discriminate |].
  destruct (k d); discriminate.
Qed.

Lemma fueled_fail_with {A} c e : fueled (@fail_with A c e).
Proof. intros st. discriminate. Qed.

Lemma fueled_random_random : fueled random_random.
Proof. apply fueled_draw_with. Qed.

Lemma fueled_random_choices {A} (population : list A) weights :
  fueled (random_choices population weights).
Proof.
  unfold random_choices.
  repeat match goal with
         | |- fueled (if ?b then _ else _) => destruct b
         | |- fueled (match ?p with [] => _ | _ :: _ => _ end) => destruct p
         | |- fueled (fail_with _ _) => apply fueled_fail_with
         | |- fueled (draw_with _ _) => apply fueled_draw_with
         end.
Qed.

Lemma fueled_random_randint lo hi : fueled (random_randint lo hi).
Proof.
  unfold random_randint. destruct (hi <? lo);
    [apply fueled_fail_with | apply fueled_draw_with].
Qed.

Lemma fueled_random_uniform a b : fueled (random_uniform a b).
Proof. apply fueled_draw_with. Qed.

Lemma fueled_random_gauss mu sigma : fueled (random_gauss mu sigma).
Proof. apply fueled_draw_with. Qed.

Create HintDb fueled.

#[local] Hint Resolve fueled_ret fueled_random_random fueled_random_choices
  fueled_random_randint fueled_random_uniform fueled_random_gauss : fueled.

Ltac fueled_step :=
  match goal with
  | |- fueled (bind _ _) => apply fueled_bind; [| intros ?]
  | |- fueled (if ?b then _ else _) => destruct b
  | |- fueled (match ?x with Some _ => _ | None => _ end) => destruct x
  | |- fueled _ => solve [auto with fueled]
  end.

(** The top-level call runs the recursion with the bound on its nesting. *)
Lemma create_random_tree_eq UNARY_OPS BINARY_OPS get_var_name default_TreeConfig
    depth max_depth n_variables unary_weights binary_weights config :
  create_random_tree UNARY_OPS BINARY_OPS get_var_name default_TreeConfig
    depth max_depth n_variables unary_weights binary_weights config
  = create_random_tree_rec UNARY_OPS BINARY_OPS get_var_name default_TreeConfig
      (nesting_bound depth max_depth)
      depth max_depth n_variables unary_weights binary_weights config.
Proof. reflexivity. Qed.

Section MutationProperties.

Variable UNARY_OPS : list string.
Variable BINARY_OPS : list string.
Variable get_var_name : Z -> string.
Variable default_TreeConfig : TreeConfig.t.
Variable default_MutationConfig : MutationConfig.t.

Local Abbreviation create_random_tree_rec :=
  (create_random_tree_rec UNARY_OPS BINARY_OPS get_var_name default_TreeConfig).
Local Abbreviation create_random_tree :=
  (create_random_tree UNARY_OPS BINARY_OPS get_var_name default_TreeConfig).
Local Abbreviation mutate_node :=
  (mutate_node UNARY_OPS BINARY_OPS get_var_name default_TreeConfig).
Local Abbreviation mutate :=
  (mutate UNARY_OPS BINARY_OPS get_var_name default_TreeConfig
     default_MutationConfig).

Lemma quiet_create_random_tree_rec fuel :
  forall depth max_depth n_variables unary_weights binary_weights config,
    quiet (create_random_tree_rec fuel depth max_depth n_variables
             unary_weights binary_weights config).
Proof.
  induction fuel as [| fuel IH]; intros; simpl; [apply quiet_out_of_fuel |].
  repeat first [apply IH | quiet_step].
Qed.

Lemma quiet_mutate_node node mutation_prob max_depth n_variables
    unary_weights binary_weights config :
  quiet (mutate_node node mutation_prob max_depth n_variables
           unary_weights binary_weights config).
Proof.
  unfold mutate_node.
  apply quiet_bind; [apply quiet_random_random | intros u].
  destruct (PrimFloat.ltb u mutation_prob); [| apply quiet_ret].
  apply quiet_bind; [apply quiet_random_choices | intros mutation_type].
  destruct (MutationType_eqb mutation_type SUBTREE).
  - repeat first [rewrite create_random_tree_eq;
                    apply quiet_create_random_tree_rec
                  | quiet_step].
  - (* the two tests of [OPERATOR] are decided together *)
    destruct (MutationType_eqb mutation_type OPERATOR).
    + repeat quiet_step.
    + repeat quiet_step.
Qed.

(** The equation of [mutate], whatever the node. *)
Lemma mutate_eq node mutation_prob max_depth n_variables
    unary_weights binary_weights config :
  mutate node mutation_prob max_depth n_variables unary_weights binary_weights
    config
  = (fl <- mutate_node node mutation_prob max_depth n_variables
             unary_weights binary_weights config ;;
     match fl with
     | Return n => ret n
     | Fallthrough node' =>
         let p := PrimFloat.mul mutation_prob
                    (MutationConfig.VARIABLE_PROBABILITY config) in
         l' <- match left node with
               | Some ln =>
                   x <- mutate ln p max_depth n_variables
                          unary_weights binary_weights default_MutationConfig ;;
                   ret (Some x)
               | None => ret None
               end ;;
         r' <- match right node with
               | Some rn =>
                   x <- mutate rn p max_depth n_variables
                          unary_weights binary_weights default_MutationConfig ;;
                   ret (Some x)
               | None => ret None
               end ;;
         ret (mkNode (op node') (value node') l' r')
     end).
Proof. destruct node. reflexivity. Qed.

(** The block of [mutate] never assigns [node.value]: a node that is kept
    has the value it came with. *)
Lemma mutate_node_value node mutation_prob max_depth n_variables
    unary_weights binary_weights config st node' st' :
  mutate_node node mutation_prob max_depth n_variables
    unary_weights binary_weights config st = (Ok (Fallthrough node'), st') ->
  value node' = value node.
Proof.
  unfold mutate_node. intros H.
  apply bind_Ok in H. destruct H as (u & st1 & _ & H).
  destruct (PrimFloat.ltb u mutation_prob);
    [| injection H as <- <-; reflexivity].
  apply bind_Ok in H. destruct H as (mutation_type & st2 & _ & H).
  destruct (MutationType_eqb mutation_type SUBTREE).
  - run_inversion H. discriminate H.
  - (* the second test of [OPERATOR] fails whenever it is reached *)
    destruct (MutationType_eqb mutation_type OPERATOR).
    + run_inversion H; reflexivity.
    + run_inversion H; try discriminate H; reflexivity.
Qed.

(** C1: in [mutate] the constant-perturbation branch is dead code.  Its
    statement [node.value += random.gauss(0, step)] is the only call of
    [random.gauss] and the only assignment of [node.value]; whatever the
    node, the mutation probability, the configuration and the random draws,
    a run of [mutate] (returning, raising or cut short) adds no call of
    [random.gauss] to the log of the random source, and the block that
    dispatches on the mutation type leaves the value of a node it keeps as
    it was. *)
Theorem mutate_never_perturbs_constants :
  forall node mutation_prob max_depth n_variables unary_weights binary_weights
         config st,
    gauss_calls
      (calls (snd (mutate node mutation_prob max_depth n_variables
                     unary_weights binary_weights config st)))
    = gauss_calls (calls st)
    /\ (forall node' st',
           mutate_node node mutation_prob max_depth n_variables
             unary_weights binary_weights config st
           = (Ok (Fallthrough node'), st') ->
           value node' = value node).
Proof.
  assert (Hquiet : forall node mutation_prob max_depth n_variables
                          unary_weights binary_weights config,
             quiet (mutate node mutation_prob max_depth n_variables
                      unary_weights binary_weights config)).
  { induction node as [o v l r IHl IHr] using Node_induction. intros.
    rewrite mutate_eq. apply quiet_bind; [apply quiet_mutate_node |].
    intros [n | node']; [apply quiet_ret |]. simpl.
    apply quiet_bind.
    - destruct l as [ln |]; [| apply quiet_ret].
      apply quiet_bind; [apply (IHl _ eq_refl) | intros; apply quiet_ret].
    - intros l'. apply quiet_bind; [| intros; apply quiet_ret].
      destruct r as [rn |]; [| apply quiet_ret].
      apply quiet_bind; [apply (IHr _ eq_refl) | intros; apply quiet_ret]. }
  intros. split; [apply Hquiet |].
  intros node' st'. apply mutate_node_value.
Qed.

Lemma random_gauss_logged mu sigma st :
  gauss_calls (calls (snd (random_gauss mu sigma st)))
  = S (gauss_calls (calls st)).
Proof.
  unfold random_gauss. rewrite draw_with_calls. unfold gauss_calls.
  rewrite filter_app, length_app. simpl. lia.
Qed.

(** The block of [mutate] once the mutation type is drawn. *)
Lemma mutate_node_drawn node mutation_prob max_depth n_variables
    unary_weights binary_weights config mt st st' :
  draws_mutation mutation_prob config mt st st' ->
  mutate_node node mutation_prob max_depth n_variables
    unary_weights binary_weights config st
  = (if MutationType_eqb mt SUBTREE then
       d <- random_randint (fst (MutationConfig.SUBTREE_DEPTH_RANGE config))
                           (snd (MutationConfig.SUBTREE_DEPTH_RANGE config)) ;;
       t <- create_random_tree d max_depth n_variables
              (Some unary_weights) (Some binary_weights) default_TreeConfig ;;
       ret (Return t)
     else if MutationType_eqb mt OPERATOR then
       if op_in (op node) UNARY_OPS then
         o <- random_choices (keys unary_weights) (values unary_weights) ;;
         ret (Fallthrough (set_op node o))
       else if op_in (op node) BINARY_OPS then
         o <- random_choices (keys binary_weights) (values binary_weights) ;;
         ret (Fallthrough (set_op node o))
       else ret (Fallthrough node)
     else if MutationType_eqb mt SIMPLIFY then
       if op_is (op node) "*" then
         if child_value_is (left node) 0 || child_value_is (right node) 0 then
           ret (Return (Node_value 0))
         else if child_value_is (left node) 1 then
           ret (Return (match right node with Some r => copy r | None => node end))
         else if child_value_is (right node) 1 then
           ret (Return (match left node with Some l => copy l | None => node end))
         else ret (Fallthrough node)
       else ret (Fallthrough node)
     else ret (Fallthrough node)) st'.
Proof.
  intros (u & st1 & Hu & Hlt & Hmt). unfold mutate_node.
  rewrite (bind_run _ _ _ _ _ Hu), Hlt, (bind_run _ _ _ _ _ Hmt).
  destruct (MutationType_eqb mt SUBTREE); [reflexivity |].
  destruct (MutationType_eqb mt OPERATOR); reflexivity.
Qed.

(** The block of [mutate] assigns [node.op] or [node.value] only: a node
    that is kept has the children it came with. *)
Lemma mutate_node_children node mutation_prob max_depth n_variables
    unary_weights binary_weights config st node' st' :
  mutate_node node mutation_prob max_depth n_variables
    unary_weights binary_weights config st = (Ok (Fallthrough node'), st') ->
  left node' = left node /\ right node' = right node.
Proof.
  unfold mutate_node. intros H.
  repeat match type of H with
         | bind _ _ _ = _ =>
             apply bind_Ok in H; destruct H as (? & ? & _ & H)
         | (if ?b then _ else _) _ = _ => destruct b
         | (match ?x with Some _ => _ | None => _ end) _ = _ => destruct x
         | ret _ _ = _ => injection H as <- <-
         end; try discriminate; auto.
Qed.

(** C9: on a node whose operator symbol is in neither registry (or which has
    none), the Operator branch of [mutate] does nothing: once the mutation
    type drawn is [OPERATOR], the block returns normally, falls through with
    the node as it was (same symbol, value and children) and makes no
    further call to the random source. *)
Theorem operator_mutation_unregistered_noop :
  forall node mutation_prob max_depth n_variables unary_weights binary_weights
         config st st',
    op_in (op node) UNARY_OPS = false ->
    op_in (op node) BINARY_OPS = false ->
    draws_mutation mutation_prob config OPERATOR st st' ->
    mutate_node node mutation_prob max_depth n_variables
      unary_weights binary_weights config st
    = (Ok (Fallthrough node), st').
Proof.
  intros node mutation_prob max_depth n_variables unary_weights binary_weights
         config st st' Hu Hb Hd.
  rewrite (mutate_node_drawn _ _ _ _ _ _ _ _ _ _ Hd). simpl.
  rewrite Hu, Hb. reflexivity.
Qed.

Lemma mutate_returns node mutation_prob max_depth n_variables
    unary_weights binary_weights config st t st' :
  mutate_node node mutation_prob max_depth n_variables
    unary_weights binary_weights config st = (Ok (Return t), st') ->
  mutate node mutation_prob max_depth n_variables
    unary_weights binary_weights config st = (Ok t, st').
Proof.
  intros H. rewrite mutate_eq, (bind_run _ _ _ _ _ H). reflexivity.
Qed.

(** The Simplify branch on a multiplication node. *)
Lemma mutate_node_simplify node mutation_prob max_depth n_variables
    unary_weights binary_weights config st st' :
  draws_mutation mutation_prob config SIMPLIFY st st' ->
  op node = Some "*" ->
  mutate_node node mutation_prob max_depth n_variables
    unary_weights binary_weights config st
  = (if child_value_is (left node) 0 || child_value_is (right node) 0 then
       ret (Return (Node_value 0))
     else if child_value_is (left node) 1 then
       ret (Return (match right node with Some r => copy r | None => node end))
     else if child_value_is (right node) 1 then
       ret (Return (match left node with Some l => copy l | None => node end))
     else ret (Fallthrough node)) st'.
Proof.
  intros Hd Hop. rewrite (mutate_node_drawn _ _ _ _ _ _ _ _ _ _ Hd).
  simpl. rewrite Hop. reflexivity.
Qed.

(** C7: under the Simplify mutation, a multiplication node whose left child
    has the constant 0 becomes the node [Node(value=0)], whatever its right
    subtree; a multiplication node whose right child is the constant 1
    becomes a node structurally equal to a deep copy of its left subtree
    (the nodes obeying the data model: a node with a value is a leaf
    without an operator symbol).  In both cases [mutate] returns at once. *)
Theorem simplify_multiplication_identities :
  forall node mutation_prob max_depth n_variables unary_weights binary_weights
         config st st',
    draws_mutation mutation_prob config SIMPLIFY st st' ->
    op node = Some "*" ->
    (child_value_is (left node) 0 = true ->
     mutate node mutation_prob max_depth n_variables
       unary_weights binary_weights config st
     = (Ok (Node_value 0), st'))
    /\
    (forall l r,
        left node = Some l -> right node = Some r ->
        value_is (value r) 1 = true ->
        constant_ok l = true -> constant_ok r = true ->
        exists t,
          mutate node mutation_prob max_depth n_variables
            unary_weights binary_weights config st
          = (Ok t, st')
          /\ Node_eqb t (copy l) = true).
Proof.
  intros node mutation_prob max_depth n_variables unary_weights binary_weights
         config st st' Hd Hop.
  pose proof (mutate_node_simplify node mutation_prob max_depth n_variables
                unary_weights binary_weights config st st' Hd Hop) as Hblock.
  split.
  - intros H0. apply mutate_returns. rewrite Hblock, H0. reflexivity.
  - intros l r Hl Hr Hr1 Hlok Hrok.
    rewrite Hl, Hr in Hblock. simpl in Hblock.
    rewrite (value_one_not_zero _ Hr1), Hr1, orb_false_r in Hblock.
    destruct (value_is (value l) 0) eqn:Hl0.
    + exists (Node_value 0). split; [apply mutate_returns, Hblock |].
      rewrite copy_id. apply Node_eqb_zero_constant; assumption.
    + destruct (value_is (value l) 1) eqn:Hl1.
      * exists (copy r). split; [apply mutate_returns, Hblock |].
        rewrite (constant_one _ Hrok Hr1), (constant_one _ Hlok Hl1).
        apply Node_eqb_refl.
      * exists (copy l). split; [apply mutate_returns, Hblock |].
        apply Node_eqb_refl.
Qed.

(** C10: the Simplify mutation folds the mirrored patterns too.  A
    multiplication node whose right child has the constant 0 becomes
    [Node(value=0)]; one whose left child is the constant 1 becomes a node
    structurally equal to a deep copy of its right subtree; and when the
    child with the constant 1 has no sibling, the node itself is returned,
    unchanged. *)
Theorem simplify_mirrored_identities :
  forall node mutation_prob max_depth n_variables unary_weights binary_weights
         config st st',
    draws_mutation mutation_prob config SIMPLIFY st st' ->
    op node = Some "*" ->
    (child_value_is (right node) 0 = true ->
     mutate node mutation_prob max_depth n_variables
       unary_weights binary_weights config st
     = (Ok (Node_value 0), st'))
    /\
    (forall l r,
        left node = Some l -> right node = Some r ->
        value_is (value l) 1 = true ->
        constant_ok r = true ->
        exists t,
          mutate node mutation_prob max_depth n_variables
            unary_weights binary_weights config st
          = (Ok t, st')
          /\ Node_eqb t (copy r) = true)
    /\
    (child_value_is (left node) 1 = true -> right node = None ->
     mutate node mutation_prob max_depth n_variables
       unary_weights binary_weights config st
     = (Ok node, st'))
    /\
    (child_value_is (right node) 1 = true -> left node = None ->
     mutate node mutation_prob max_depth n_variables
       unary_weights binary_weights config st
     = (Ok node, st')).
Proof.
  intros node mutation_prob max_depth n_variables unary_weights binary_weights
         config st st' Hd Hop.
  pose proof (mutate_node_simplify node mutation_prob max_depth n_variables
                unary_weights binary_weights config st st' Hd Hop) as Hblock.
  repeat split.
  - intros H0. apply mutate_returns.
    rewrite Hblock, H0, orb_true_r. reflexivity.
  - intros l r Hl Hr Hl1 Hrok.
    rewrite Hl, Hr in Hblock. simpl in Hblock.
    rewrite (value_one_not_zero _ Hl1), Hl1 in Hblock. simpl in Hblock.
    destruct (value_is (value r) 0) eqn:Hr0.
    + exists (Node_value 0). split; [apply mutate_returns, Hblock |].
      rewrite copy_id. apply Node_eqb_zero_constant; assumption.
    + exists (copy r). split; [apply mutate_returns, Hblock |].
      apply Node_eqb_refl.
  - intros Hl1 Hr. apply mutate_returns. rewrite Hblock, Hr, Hl1.
    destruct (left node) as [l |]; [| discriminate]. simpl in *.
    rewrite (value_one_not_zero _ Hl1). reflexivity.
  - intros Hr1 Hl. apply mutate_returns. rewrite Hblock, Hl, Hr1.
    destruct (right node) as [r |]; [| discriminate]. simpl in *.
    rewrite (value_one_not_zero _ Hr1). reflexivity.
Qed.

End MutationProperties.

(** ** Generation *)

Section GenerationProperties.

Variable UNARY_OPS : list string.
Variable BINARY_OPS : list string.
Variable get_var_name : Z -> string.
Variable default_TreeConfig : TreeConfig.t.

Local Abbreviation create_random_tree_rec :=
  (create_random_tree_rec UNARY_OPS BINARY_OPS get_var_name default_TreeConfig).
Local Abbreviation create_random_tree :=
  (create_random_tree UNARY_OPS BINARY_OPS get_var_name default_TreeConfig).

(** Every tree returned by the recursion is one of the trees [generated]
    describes. *)
Lemma create_random_tree_rec_generated fuel :
  forall depth max_depth n_variables unary_weights binary_weights config
         st t st',
    create_random_tree_rec fuel depth max_depth n_variables
      unary_weights binary_weights config st = (Ok t, st') ->
    generated get_var_name max_depth n_variables
      (weights_or_default unary_weights UNARY_OPS)
      (weights_or_default binary_weights BINARY_OPS) depth t.
Proof.
  induction fuel as [| fuel IH]; intros depth max_depth n_variables
    unary_weights binary_weights config st t st' H; [discriminate |].
  simpl in H.
  destruct (depth =? 0) eqn:Hd0.
  - apply Z.eqb_eq in Hd0. subst depth.
    run_inversion H;
      apply random_choices_Ok in Hrun; destruct Hrun as [Hin _];
      apply random_randint_Ok in Hrun0; destruct Hrun0 as [Hidx _];
      apply IH in Hrun2; simpl in Hrun2.
    + apply generated_root_left; assumption.
    + apply generated_root_right; assumption.
  - apply Z.eqb_neq in Hd0.
    destruct (depth >=? max_depth) eqn:Hfloor.
    + run_inversion H.
      * apply random_randint_Ok in Hrun0. destruct Hrun0 as [Hidx _].
        apply generated_variable; assumption.
      * apply generated_constant; assumption.
    + assert (Hlt : depth < max_depth).
      { rewrite Z.geb_leb in Hfloor. apply Z.leb_gt in Hfloor. exact Hfloor. }
      run_inversion H.
      * apply random_choices_Ok in Hrun1. destruct Hrun1 as [Hin _].
        apply IH in Hrun2. simpl in Hrun2.
        apply generated_unary; assumption.
      * apply random_choices_Ok in Hrun1. destruct Hrun1 as [Hin _].
        apply IH in Hrun2. apply IH in Hrun3. simpl in Hrun2, Hrun3.
        apply generated_binary; assumption.
      * apply random_randint_Ok in Hrun1. destruct Hrun1 as [Hidx _].
        apply generated_variable; assumption.
      * apply generated_constant; assumption.
Qed.

Lemma create_random_tree_generated :
  forall depth max_depth n_variables unary_weights binary_weights config
         st t st',
    create_random_tree depth max_depth n_variables
      unary_weights binary_weights config st = (Ok t, st') ->
    generated get_var_name max_depth n_variables
      (weights_or_default unary_weights UNARY_OPS)
      (weights_or_default binary_weights BINARY_OPS) depth t.
Proof.
  intros until st'. rewrite create_random_tree_eq.
  apply create_random_tree_rec_generated.
Qed.

(** The depth reached below a call at [depth]. *)
Lemma generated_height max_depth n_variables unary_weights binary_weights
    depth t :
  generated get_var_name max_depth n_variables unary_weights binary_weights
    depth t ->
  depth + height t <= Z.max max_depth (Z.max depth 1).
Proof.
  induction 1; cbn [height Node_op Node_value]; lia.
Qed.

Lemma generated_arity max_depth n_variables unary_weights binary_weights
    depth t :
  (forall o, In o (keys unary_weights) -> mem o BINARY_OPS = false) ->
  (forall o, In o (keys binary_weights) -> mem o UNARY_OPS = false) ->
  (forall i, mem (get_var_name i) UNARY_OPS = false
             /\ mem (get_var_name i) BINARY_OPS = false) ->
  generated get_var_name max_depth n_variables unary_weights binary_weights
    depth t ->
  arity_ok UNARY_OPS BINARY_OPS t = true.
Proof.
  intros Hu Hb Hv. induction 1; simpl;
    repeat match goal with
           | H : In _ (keys unary_weights) |- _ => apply Hu in H
           | H : In _ (keys binary_weights) |- _ => apply Hb in H
           | |- context [mem (get_var_name ?i) _] =>
               destruct (Hv i) as [-> ->]
           | H : arity_ok _ _ _ = true |- _ => rewrite H; clear H
           | H : mem _ _ = false |- _ => rewrite H; clear H
           end;
    simpl;
    repeat match goal with
           | |- context [if ?b then _ else _] => destruct b
           end;
    reflexivity.
Qed.

Lemma generated_leaves max_depth n_variables unary_weights binary_weights
    depth t :
  generated get_var_name max_depth n_variables unary_weights binary_weights
    depth t ->
  1 <= depth ->
  leaf_indices_within get_var_name 1 n_variables t.
Proof.
  induction 1; intros Hd; simpl; try lia;
    repeat split; eauto;
    match goal with
    | IH : _ -> leaf_indices_within _ _ _ ?t
      |- leaf_indices_within _ _ _ ?t => apply IH; lia
    end.
Qed.

Lemma generated_root_variable max_depth n_variables unary_weights
    binary_weights t :
  generated get_var_name max_depth n_variables unary_weights binary_weights
    0 t ->
  has_variable_leaf get_var_name t.
Proof.
  inversion 1; subst; try (exfalso; auto; fail).
  - apply variable_left, variable_here.
  - apply variable_right, variable_here.
Qed.

(** Below the root every call of [random.randint] has the bounds 1 and
    [n_variables]. *)
Lemma create_random_tree_rec_logs fuel :
  forall depth max_depth n_variables unary_weights binary_weights config,
    1 <= depth ->
    logs (randint_bounds_are 1 n_variables)
      (create_random_tree_rec fuel depth max_depth n_variables
         unary_weights binary_weights config).
Proof.
  induction fuel as [| fuel IH]; intros depth max_depth n_variables
    unary_weights binary_weights config Hd; simpl;
    [apply logs_out_of_fuel |].
  destruct (depth =? 0) eqn:Hd0; [apply Z.eqb_eq in Hd0; lia |].
  repeat match goal with
         | |- logs _ (bind _ _) => apply logs_bind; [| intros ?]
         | |- logs _ (if ?b then _ else _) => destruct b
         | |- logs _ (ret _) => apply logs_ret
         | |- logs _ random_random => apply logs_random_random; exact I
         | |- logs _ (random_choices _ _) => apply logs_random_choices; exact I
         | |- logs _ (random_uniform _ _) => apply logs_random_uniform; exact I
         | |- logs _ (random_randint 1 _) =>
             apply logs_random_randint; split; reflexivity
         | |- logs _ (create_random_tree_rec _ _ _ _ _ _ _) => apply IH; lia
         end.
Qed.

(** The recursion bound of [create_random_tree] is never exhausted. *)
Lemma create_random_tree_rec_fueled fuel :
  forall depth max_depth n_variables unary_weights binary_weights config,
    (nesting_bound depth max_depth <= fuel)%nat ->
    fueled (create_random_tree_rec fuel depth max_depth n_variables
              unary_weights binary_weights config).
Proof.
  unfold nesting_bound.
  induction fuel as [| fuel IH]; intros depth max_depth n_variables
    unary_weights binary_weights config Hfuel; [lia |]. simpl.
  destruct (depth =? 0) eqn:Hd0.
  - apply Z.eqb_eq in Hd0. subst depth.
    repeat first [apply IH; lia | fueled_step].
  - destruct (depth >=? max_depth) eqn:Hfloor; [repeat fueled_step |].
    rewrite Z.geb_leb in Hfloor. apply Z.leb_gt in Hfloor.
    repeat first [apply IH; lia | fueled_step].
Qed.

Lemma create_random_tree_fueled depth max_depth n_variables unary_weights
    binary_weights config :
  fueled (create_random_tree depth max_depth n_variables
            unary_weights binary_weights config).
Proof.
  rewrite create_random_tree_eq. apply create_random_tree_rec_fueled. lia.
Qed.

(** C3, with the inputs it holds for: for a call at a depth between 0 and
    [max_depth], with [max_depth] at least 1, whose unary weights name no
    binary operator, whose binary weights name no unary operator, and with
    variable names that are not operator symbols, the returned tree obeys
    the arity invariant at every node and has no node at a depth greater
    than [max_depth], the root of the returned tree being at [depth]. *)
Theorem create_random_tree_valid_and_bounded :
  forall depth max_depth n_variables unary_weights binary_weights config
         st t st',
    0 <= depth <= max_depth ->
    1 <= max_depth ->
    (forall o, In o (keys (weights_or_default unary_weights UNARY_OPS)) ->
               mem o BINARY_OPS = false) ->
    (forall o, In o (keys (weights_or_default binary_weights BINARY_OPS)) ->
               mem o UNARY_OPS = false) ->
    (forall i, mem (get_var_name i) UNARY_OPS = false
               /\ mem (get_var_name i) BINARY_OPS = false) ->
    create_random_tree depth max_depth n_variables
      unary_weights binary_weights config st = (Ok t, st') ->
    arity_ok UNARY_OPS BINARY_OPS t = true
    /\ depth + height t <= max_depth.
Proof.
  intros depth max_depth n_variables unary_weights binary_weights config
         st t st' Hd Hmax Hu Hb Hv Hrun.
  apply create_random_tree_generated in Hrun. split.
  - eapply generated_arity; eassumption.
  - apply generated_height in Hrun. lia.
Qed.

(** C4: a tree returned by a root-level call [create_random_tree(0, ...)] is
    a node carrying a symbol drawn from the binary weights, with a variable
    leaf forced on exactly one chosen side (its index in [0, n_variables])
    and a tree generated at depth 1 on the other side; so it contains a
    variable-reference leaf. *)
Theorem root_tree_has_variable :
  forall max_depth n_variables unary_weights binary_weights config st t st',
    create_random_tree 0 max_depth n_variables
      unary_weights binary_weights config st = (Ok t, st') ->
    (exists o idx sub,
        In o (keys (weights_or_default binary_weights BINARY_OPS))
        /\ 0 <= idx <= n_variables
        /\ generated get_var_name max_depth n_variables
             (weights_or_default unary_weights UNARY_OPS)
             (weights_or_default binary_weights BINARY_OPS) 1 sub
        /\ (t = mkNode (Some o) None
                  (Some (Node_op (get_var_name idx))) (Some sub)
            \/ t = mkNode (Some o) None
                     (Some sub) (Some (Node_op (get_var_name idx)))))
    /\ has_variable_leaf get_var_name t.
Proof.
  intros max_depth n_variables unary_weights binary_weights config st t st'
         Hrun.
  apply create_random_tree_generated in Hrun. split.
  - inversion Hrun; subst; try (exfalso; auto; fail);
      exists o, idx, sub; auto.
  - eapply generated_root_variable. exact Hrun.
Qed.

(** The calls and draws of a root-level call before it recurses. *)
Lemma create_random_tree_rec_root fuel :
  forall max_depth n_variables unary_weights binary_weights config st t st',
    create_random_tree_rec fuel 0 max_depth n_variables
      unary_weights binary_weights config st = (Ok t, st') ->
    exists o idx sub i rest log,
      0 <= idx <= n_variables
      /\ (t = mkNode (Some o) None
                (Some (Node_op (get_var_name idx))) (Some sub)
          \/ t = mkNode (Some o) None
                   (Some sub) (Some (Node_op (get_var_name idx))))
      /\ leaf_indices_within get_var_name 1 n_variables sub
      /\ tape st = DPick i :: DInt idx :: rest
      /\ calls st'
         = (calls st
            ++ Cchoices
                 (List.length (keys (weights_or_default binary_weights BINARY_OPS)))
               :: Crandint 0 n_variables :: Crandom :: log)%list
      /\ Forall (randint_bounds_are 1 n_variables) log.
Proof.
  intros max_depth n_variables unary_weights binary_weights config st t st' H.
  destruct fuel as [| fuel]; [discriminate |]. simpl in H.
  run_inversion H;
    pose proof (random_choices_calls _ _ _ _ _ Hrun) as Hc0;
    apply random_choices_Ok in Hrun; destruct Hrun as (_ & i & Ht0 & _);
    apply random_randint_Ok in Hrun0; destruct Hrun0 as (Hidx & Ht1 & Hc1);
    apply random_random_Ok in Hrun1; destruct Hrun1 as (Ht2 & Hc2);
    pose proof (create_random_tree_rec_generated _ _ _ _ _ _ _ _ _ _ Hrun2)
      as Hgen;
    (apply generated_leaves in Hgen; [| lia]);
    destruct (logs_Ok _ _ _ _ _
                (create_random_tree_rec_logs fuel 1 max_depth n_variables _ _
                   default_TreeConfig ltac:(lia)) Hrun2)
      as (log & Hlog & HP);
    exists a, a0, a2, i, (tape st1), log;
    (split; [exact Hidx |]);
    (split; [auto |]);
    (split; [exact Hgen |]);
    (split; [rewrite Ht0, Ht1; reflexivity |]);
    (split; [| exact HP]);
    rewrite Hlog, Hc2, Hc1, Hc0, <- !app_assoc; reflexivity.
Qed.

(** C8: the two ranges of variable indices.  In a root-level call
    ([depth = 0]) the forced variable leaf is named after the result of
    [random.randint(0, n_variables)], an index of the inclusive range
    [[0, n_variables]]; a variable leaf returned by a call at any other
    depth, at the floor or at an intermediate depth, has its index in the
    inclusive range [[1, n_variables]]; and below the root every call of
    [random.randint] is [random.randint(1, n_variables)], so that all the
    other variable leaves of the tree have their index in
    [[1, n_variables]]. *)
Theorem variable_index_ranges :
  forall depth max_depth n_variables unary_weights binary_weights config
         st t st',
    create_random_tree depth max_depth n_variables
      unary_weights binary_weights config st = (Ok t, st') ->
    (depth = 0 ->
     exists o idx sub i rest log,
       0 <= idx <= n_variables
       /\ (t = mkNode (Some o) None
                 (Some (Node_op (get_var_name idx))) (Some sub)
           \/ t = mkNode (Some o) None
                    (Some sub) (Some (Node_op (get_var_name idx))))
       /\ leaf_indices_within get_var_name 1 n_variables sub
       /\ tape st = DPick i :: DInt idx :: rest
       /\ calls st'
          = (calls st
             ++ Cchoices
                  (List.length
                     (keys (weights_or_default binary_weights BINARY_OPS)))
                :: Crandint 0 n_variables :: Crandom :: log)%list
       /\ Forall (randint_bounds_are 1 n_variables) log)
    /\
    (depth <> 0 ->
     forall s, op t = Some s -> left t = None -> right t = None ->
               exists i, 1 <= i <= n_variables /\ s = get_var_name i)
    /\
    (1 <= depth ->
     leaf_indices_within get_var_name 1 n_variables t
     /\ exists log,
         calls st' = (calls st ++ log)%list
         /\ Forall (randint_bounds_are 1 n_variables) log).
Proof.
  intros depth max_depth n_variables unary_weights binary_weights config
         st t st' Hrun.
  split; [| split].
  - intros ->. rewrite create_random_tree_eq in Hrun.
    eapply create_random_tree_rec_root. exact Hrun.
  - intros Hd s Hs Hl Hr. apply create_random_tree_generated in Hrun.
    inversion Hrun; subst; simpl in *; try discriminate;
      try (exfalso; apply Hd; reflexivity).
    injection Hs as <-. eauto.
  - intros Hd. split.
    + apply create_random_tree_generated in Hrun.
      eapply generated_leaves; [exact Hrun | exact Hd].
    + rewrite create_random_tree_eq in Hrun.
      eapply logs_Ok; [| exact Hrun].
      apply create_random_tree_rec_logs. exact Hd.
Qed.

End GenerationProperties.

(** ** Subtree replacement *)

Section SubtreeMutation.

Variable UNARY_OPS : list string.
Variable BINARY_OPS : list string.
Variable get_var_name : Z -> string.
Variable default_TreeConfig : TreeConfig.t.
Variable default_MutationConfig : MutationConfig.t.

Local Abbreviation create_random_tree :=
  (create_random_tree UNARY_OPS BINARY_OPS get_var_name default_TreeConfig).
Local Abbreviation mutate_node :=
  (mutate_node UNARY_OPS BINARY_OPS get_var_name default_TreeConfig).
Local Abbreviation mutate :=
  (mutate UNARY_OPS BINARY_OPS get_var_name default_TreeConfig
     default_MutationConfig).

(** [mutate] is defined by recursion on the tree and calls the generator
    with its own bound: it never runs out of fuel. *)
Lemma fueled_mutate :
  forall node mutation_prob max_depth n_variables unary_weights binary_weights
         config,
    fueled (mutate node mutation_prob max_depth n_variables
              unary_weights binary_weights config).
Proof.
  induction node as [o v l r IHl IHr] using Node_induction. intros.
  rewrite mutate_eq. apply fueled_bind.
  - unfold mutate_node.
    repeat first [apply create_random_tree_fueled | fueled_step].
  - intros [n | node']; [apply fueled_ret |]. simpl.
    apply fueled_bind.
    + destruct l as [ln |]; [| apply fueled_ret].
      apply fueled_bind; [apply (IHl _ eq_refl) | intros; apply fueled_ret].
    + intros l'. apply fueled_bind; [| intros; apply fueled_ret].
      destruct r as [rn |]; [| apply fueled_ret].
      apply fueled_bind; [apply (IHr _ eq_refl) | intros; apply fueled_ret].
Qed.

(** C2, as the code has it: when the mutation type drawn at a node is
    [SUBTREE], [mutate] returns at once the tree
    [create_random_tree(s, max_depth, ...)] for a start depth [s] drawn from
    [config.SUBTREE_DEPTH_RANGE].  The height of the replacement is bounded
    from [s]: at most [max_depth - s] when [1 <= s <= max_depth].  The depth
    of the replaced node in the whole tree plays no part. *)
Theorem subtree_mutation_depth :
  forall node mutation_prob max_depth n_variables unary_weights binary_weights
         config st st1 t st',
    draws_mutation mutation_prob config SUBTREE st st1 ->
    mutate node mutation_prob max_depth n_variables
      unary_weights binary_weights config st = (Ok t, st') ->
    exists s st2,
      random_randint (fst (MutationConfig.SUBTREE_DEPTH_RANGE config))
                     (snd (MutationConfig.SUBTREE_DEPTH_RANGE config)) st1
      = (Ok s, st2)
      /\ fst (MutationConfig.SUBTREE_DEPTH_RANGE config) <= s
         <= snd (MutationConfig.SUBTREE_DEPTH_RANGE config)
      /\ create_random_tree s max_depth n_variables
           (Some unary_weights) (Some binary_weights) default_TreeConfig st2
         = (Ok t, st')
      /\ s + height t <= Z.max max_depth (Z.max s 1)
      /\ (1 <= s <= max_depth -> height t <= max_depth - s).
Proof.
  intros node mutation_prob max_depth n_variables unary_weights binary_weights
         config st st1 t st' Hd Hrun.
  rewrite mutate_eq in Hrun. apply bind_Ok in Hrun.
  destruct Hrun as (fl & st3 & Hblock & Hrest).
  rewrite (mutate_node_drawn _ _ _ _ _ _ _ _ _ _ _ _ _ _ Hd) in Hblock.
  simpl in Hblock. run_inversion Hblock. simpl in Hrest.
  injection Hrest as <- <-.
  pose proof (random_randint_Ok _ _ _ _ _ Hrun) as (Hs & _ & _).
  pose proof (generated_height _ _ _ _ _ _ _
                (create_random_tree_generated _ _ _ _ _ _ _ _ _ _ _ _ _ Hrun0))
    as Hh.
  exists a, st0. repeat split; try assumption; lia.
Qed.

End SubtreeMutation.

(** ** Scoring *)

Lemma np_sub_same_length a b :
  List.length a = List.length b -> np_sub a b = Returns (zip_sub a b).
Proof. intros H. unfold np_sub. rewrite H, Nat.eqb_refl. reflexivity. Qed.

Lemma length_zip_sub a : forall b,
  List.length a = List.length b -> List.length (zip_sub a b) = List.length a.
Proof.
  induction a as [| x a IH]; intros [| y b] H; simpl in *; try discriminate;
    [reflexivity |]. rewrite IH; [reflexivity | lia].
Qed.

Lemma length_np_square a : List.length (np_square a) = List.length a.
Proof. apply length_map. Qed.

(** Equal finite targets whose mean is computed exactly make the
    denominator of r2 zero. *)
Lemma constant_targets_zero_denominator c n :
  PrimFloat.is_finite c = true ->
  np_mean (repeat c n) = c ->
  total_sum_of_squares (repeat c n) = 0%float.
Proof.
  intros Hc Hmean. unfold total_sum_of_squares. rewrite Hmean.
  apply np_sum_zero, np_square_zero. unfold np_sub_scalar. clear Hmean.
  induction n as [| n IH]; simpl; constructor;
    [apply sub_diag_finite, Hc | exact IH].
Qed.

Lemma total_sum_of_squares_nonneg y : nonneg (total_sum_of_squares y).
Proof. apply np_sum_nonneg, np_square_nonneg. Qed.

Lemma residual_sum_of_squares_nonneg y_pred y :
  nonneg (residual_sum_of_squares y_pred y).
Proof. apply np_sum_nonneg, np_square_nonneg. Qed.


(** ** Mutation without effect, and without exception *)

Lemma random_random_range st u st' :
  random_random st = (Ok u, st') ->
  PrimFloat.leb 0 u = true /\ PrimFloat.ltb u 1 = true.
Proof.
  intros H. apply draw_with_Ok in H. destruct H as (d & _ & Hk & _).
  destruct d as [u' | | |]; try discriminate.
  destruct (PrimFloat.leb 0 u' && PrimFloat.ltb u' 1) eqn:Hr; [| discriminate].
  injection Hk as <-. apply andb_true_iff in Hr. exact Hr.
Qed.

Lemma mul_zero_or_nan p v : zero_or_nan p -> zero_or_nan (PrimFloat.mul p v).
Proof.
  unfold zero_or_nan. rewrite FloatAxioms.mul_spec.
  unfold SF64mul, SpecFloat.SFmul.
  destruct (Prim2SF p) as [s | s | | s m e]; intros H; try contradiction;
    destruct (Prim2SF v) as [s' | s' | | s' m' e']; exact I.
Qed.

Lemma ltb_zero_or_nan u p :
  PrimFloat.leb 0 u = true -> zero_or_nan p -> PrimFloat.ltb u p = false.
Proof.
  unfold zero_or_nan. rewrite FloatAxioms.leb_spec, FloatAxioms.ltb_spec.
  replace (Prim2SF 0) with (SpecFloat.S754_zero false) by reflexivity.
  destruct (Prim2SF p) as [s | s | | s m e]; intros Hu Hp; try contradiction;
    destruct (Prim2SF u) as [s' | s' | | s' m' e']; simpl in *;
    try reflexivity; destruct s'; try discriminate; reflexivity.
Qed.

Section SkippedMutation.

Variable UNARY_OPS : list string.
Variable BINARY_OPS : list string.
Variable get_var_name : Z -> string.
Variable default_TreeConfig : TreeConfig.t.
Variable default_MutationConfig : MutationConfig.t.

Local Abbreviation mutate_node :=
  (mutate_node UNARY_OPS BINARY_OPS get_var_name default_TreeConfig).
Local Abbreviation mutate :=
  (mutate UNARY_OPS BINARY_OPS get_var_name default_TreeConfig
     default_MutationConfig).

(** The block of [mutate] when the draw is not below the probability. *)
Lemma mutate_node_skipped node mutation_prob max_depth n_variables
    unary_weights binary_weights config st fl st' :
  zero_or_nan mutation_prob ->
  mutate_node node mutation_prob max_depth n_variables
    unary_weights binary_weights config st = (Ok fl, st') ->
  fl = Fallthrough node /\ calls st' = (calls st ++ [Crandom])%list.
Proof.
  intros Hp H. unfold mutate_node in H.
  apply bind_Ok in H. destruct H as (u & st1 & Hu & H).
  destruct (random_random_range _ _ _ Hu) as [H0 _].
  rewrite (ltb_zero_or_nan _ _ H0 Hp) in H.
  injection H as <- <-. apply random_random_Ok in Hu. tauto.
Qed.

(** X1: with a mutation probability of zero (or NaN), [mutate] changes
    nothing and still walks the whole tree: a run that returns gives back a
    tree equal to its argument, having called [random.random()] once per
    node and nothing else. *)
Theorem mutate_zero_probability :
  forall node mutation_prob max_depth n_variables unary_weights binary_weights
         config st t st',
    zero_or_nan mutation_prob ->
    mutate node mutation_prob max_depth n_variables
      unary_weights binary_weights config st = (Ok t, st') ->
    t = node /\ calls st' = (calls st ++ repeat Crandom (size node))%list.
Proof.
  induction node as [o v l r IHl IHr] using Node_induction.
  intros mutation_prob max_depth n_variables unary_weights binary_weights
         config st t st' Hp H.
  rewrite mutate_eq in H. apply bind_Ok in H.
  destruct H as (fl & st1 & Hblock & H).
  destruct (mutate_node_skipped _ _ _ _ _ _ _ _ _ _ Hp Hblock) as [-> Hc1].
  pose proof (mul_zero_or_nan _ (MutationConfig.VARIABLE_PROBABILITY config) Hp)
    as Hp'.
  cbn zeta in H. cbn [left right op value] in H.
  apply bind_Ok in H. destruct H as (l' & st2 & Hl & H).
  apply bind_Ok in H. destruct H as (r' & st3 & Hr & H).
  injection H as <- <-.
  assert (Hleft : l' = l
                  /\ calls st2
                     = (calls st1
                        ++ repeat Crandom
                             (match l with Some ln => size ln | None => 0%nat end))%list).
  { destruct l as [ln |].
    - apply bind_Ok in Hl. destruct Hl as (x & st4 & Hx & Hl).
      injection Hl as <- <-.
      destruct (IHl _ eq_refl _ _ _ _ _ _ _ _ _ Hp' Hx) as [-> Hc]. auto.
    - injection Hl as <- <-. simpl. rewrite app_nil_r. auto. }
  assert (Hright : r' = r
                  /\ calls st3
                     = (calls st2
                        ++ repeat Crandom
                             (match r with Some rn => size rn | None => 0%nat end))%list).
  { destruct r as [rn |].
    - apply bind_Ok in Hr. destruct Hr as (x & st4 & Hx & Hr).
      injection Hr as <- <-.
      destruct (IHr _ eq_refl _ _ _ _ _ _ _ _ _ Hp' Hx) as [-> Hc]. auto.
    - injection Hr as <- <-. simpl. rewrite app_nil_r. auto. }
  destruct Hleft as [-> Hc2]. destruct Hright as [-> Hc3].
  split; [reflexivity |].
  rewrite Hc3, Hc2, Hc1. cbn [size]. rewrite <- !app_assoc. simpl.
  rewrite repeat_app. reflexivity.
Qed.

End SkippedMutation.

Lemma unraising_ret {A} (a : A) : unraising (ret a).
Proof. intros st e. discriminate. Qed.

Lemma unraising_out_of_fuel {A} : unraising (@out_of_fuel A).
Proof. intros st e. discriminate. Qed.

Lemma unraising_bind {A B} (m : M A) (f : A -> M B) :
  unraising m -> (forall a, unraising (f a)) -> unraising (bind m f).
Proof.
  intros Hm Hf st e. unfold bind. specialize (Hm st).
  destruct (m st) as [[a | e' | | ] st1]; simpl in *; try discriminate.
  - apply Hf.
  - exfalso. apply (Hm e'). reflexivity.
Qed.

Lemma unraising_draw_with {A} c (k : draw -> option A) :
  unraising (draw_with c k).
Proof.
  intros st e. unfold draw_with. destruct (tape st) as [| d rest];
    [discriminate |]. destruct (k d); discriminate.
Qed.

Lemma unraising_random_random : unraising random_random.
Proof. apply unraising_draw_with. Qed.

Lemma unraising_random_uniform a b : unraising (random_uniform a b).
Proof. apply unraising_draw_with. Qed.

Lemma unraising_random_randint lo hi :
  lo <= hi -> unraising (random_randint lo hi).
Proof.
  intros H. unfold random_randint.
  replace (hi <? lo) with false by (symmetry; apply Z.ltb_ge; exact H).
  apply unraising_draw_with.
Qed.

Lemma unraising_random_choices {K} (d : dict K) :
  usable_weights d = true -> unraising (random_choices (keys d) (values d)).
Proof.
  unfold usable_weights, random_choices, keys, values. intros H.
  apply andb_true_iff in H. destruct H as [H Hfin].
  apply andb_true_iff in H. destruct H as [Hne Hpos].
  rewrite !length_map, Nat.eqb_refl.
  destruct d as [| kv d]; [discriminate |].
  apply negb_true_iff in Hpos.
  remember (map snd (kv :: d)) as w. cbn [map negb]. rewrite Hpos, Hfin.
  apply unraising_draw_with.
Qed.

Section NoException.

Variable UNARY_OPS : list string.
Variable BINARY_OPS : list string.
Variable get_var_name : Z -> string.
Variable default_TreeConfig : TreeConfig.t.
Variable default_MutationConfig : MutationConfig.t.

Local Abbreviation create_random_tree_rec :=
  (create_random_tree_rec UNARY_OPS BINARY_OPS get_var_name default_TreeConfig).
Local Abbreviation create_random_tree :=
  (create_random_tree UNARY_OPS BINARY_OPS get_var_name default_TreeConfig).
Local Abbreviation mutate_node :=
  (mutate_node UNARY_OPS BINARY_OPS get_var_name default_TreeConfig).
Local Abbreviation mutate :=
  (mutate UNARY_OPS BINARY_OPS get_var_name default_TreeConfig
     default_MutationConfig).

Ltac unraising_step :=
  match goal with
  | |- unraising (bind _ _) => apply unraising_bind; [| intros ?]
  | |- unraising (if ?b then _ else _) => destruct b
  | |- unraising (ret _) => apply unraising_ret
  | |- unraising random_random => apply unraising_random_random
  | |- unraising (random_uniform _ _) => apply unraising_random_uniform
  | |- unraising (random_randint _ _) => apply unraising_random_randint; lia
  | |- unraising (random_choices _ _) =>
      apply unraising_random_choices; assumption
  end.

Lemma unraising_create_random_tree_rec fuel :
  forall depth max_depth n_variables unary_weights binary_weights config,
    1 <= n_variables ->
    usable_weights (weights_or_default unary_weights UNARY_OPS) = true ->
    usable_weights (weights_or_default binary_weights BINARY_OPS) = true ->
    unraising (create_random_tree_rec fuel depth max_depth n_variables
                 unary_weights binary_weights config).
Proof.
  induction fuel as [| fuel IH]; intros depth max_depth n_variables
    unary_weights binary_weights config Hn Hu Hb; simpl;
    [apply unraising_out_of_fuel |].
  repeat first [apply IH; assumption | unraising_step].
Qed.

(** X2: with at least one variable and weights [random.choices] accepts
    (some entry, a total that is positive and finite), [create_random_tree]
    raises no exception, whatever the depths, the configuration and the
    draws; nor does its recursion exceed the bound on its nesting. *)
Theorem create_random_tree_never_raises :
  forall depth max_depth n_variables unary_weights binary_weights config st,
    1 <= n_variables ->
    usable_weights (weights_or_default unary_weights UNARY_OPS) = true ->
    usable_weights (weights_or_default binary_weights BINARY_OPS) = true ->
    (forall e,
        fst (create_random_tree depth max_depth n_variables
               unary_weights binary_weights config st) <> Raise e)
    /\ fst (create_random_tree depth max_depth n_variables
              unary_weights binary_weights config st) <> OutOfFuel.
Proof.
  intros depth max_depth n_variables unary_weights binary_weights config st
         Hn Hu Hb.
  split.
  - intros e. rewrite create_random_tree_eq.
    apply unraising_create_random_tree_rec; assumption.
  - apply create_random_tree_fueled.
Qed.

(** X3: with at least one variable, usable operator weights, and usable
    mutation weights and a non-empty range of start depths both in the
    configuration passed and in the default one (which the recursive calls
    use), [mutate] raises no exception, whatever the tree, the probability
    and the draws. *)
Theorem mutate_never_raises :
  forall node mutation_prob max_depth n_variables unary_weights binary_weights
         config st,
    1 <= n_variables ->
    usable_weights unary_weights = true ->
    usable_weights binary_weights = true ->
    usable_MutationConfig config = true ->
    usable_MutationConfig default_MutationConfig = true ->
    (forall e,
        fst (mutate node mutation_prob max_depth n_variables
               unary_weights binary_weights config st) <> Raise e)
    /\ fst (mutate node mutation_prob max_depth n_variables
              unary_weights binary_weights config st) <> OutOfFuel.
Proof.
  intros node mutation_prob max_depth n_variables unary_weights binary_weights
         config st Hn Hu Hb Hc Hd.
  split; [| apply fueled_mutate].
  assert (Hall : forall node mutation_prob config,
             usable_MutationConfig config = true ->
             unraising (mutate node mutation_prob max_depth n_variables
                          unary_weights binary_weights config));
    [| intros e; apply Hall; exact Hc].
  clear node mutation_prob config st Hc.
  induction node as [o v l r IHl IHr] using Node_induction.
  intros mutation_prob config Hc.
  rewrite mutate_eq. apply unraising_bind.
  - unfold mutate_node, usable_MutationConfig in *.
    apply andb_true_iff in Hc. destruct Hc as [Hw Hrange].
    apply Z.leb_le in Hrange.
    repeat first [ rewrite create_random_tree_eq;
                   apply unraising_create_random_tree_rec; assumption
                 | match goal with
                   | |- unraising (match ?x with Some _ => _ | None => _ end) =>
                       destruct x
                   | |- unraising (bind (random_gauss _ _) _) =>
                       apply unraising_bind;
                       [apply unraising_draw_with | intros ?]
                   end
                 | unraising_step ].
  - intros [n | node']; [apply unraising_ret |]. simpl.
    apply unraising_bind.
    + destruct l as [ln |]; [| apply unraising_ret].
      apply unraising_bind; [| intros; apply unraising_ret].
      apply (IHl _ eq_refl). exact Hd.
    + intros l'. apply unraising_bind; [| intros; apply unraising_ret].
      destruct r as [rn |]; [| apply unraising_ret].
      apply unraising_bind; [| intros; apply unraising_ret].
      apply (IHr _ eq_refl). exact Hd.
Qed.

End NoException.

(** ** Operator mutation alone *)

Section OperatorOnly.

Variable UNARY_OPS : list string.
Variable BINARY_OPS : list string.
Variable get_var_name : Z -> string.
Variable default_TreeConfig : TreeConfig.t.
Variable default_MutationConfig : MutationConfig.t.

Local Abbreviation mutate_node :=
  (mutate_node UNARY_OPS BINARY_OPS get_var_name default_TreeConfig).
Local Abbreviation mutate :=
  (mutate UNARY_OPS BINARY_OPS get_var_name default_TreeConfig
     default_MutationConfig).

Lemma mutate_node_operator_only node mutation_prob max_depth n_variables
    unary_weights binary_weights config st fl st' :
  operator_only config = true ->
  mutate_node node mutation_prob max_depth n_variables
    unary_weights binary_weights config st = (Ok fl, st') ->
  exists node',
    fl = Fallthrough node'
    /\ symbol_swapped UNARY_OPS BINARY_OPS unary_weights binary_weights
         (op node) (op node')
    /\ value node' = value node.
Proof.
  intros Hc H. unfold mutate_node in H.
  apply bind_Ok in H. destruct H as (u & st1 & _ & H).
  destruct (PrimFloat.ltb u mutation_prob).
  2:{ injection H as <- <-. exists node. repeat split. left. reflexivity. }
  apply bind_Ok in H. destruct H as (mt & st2 & Hmt & H).
  apply random_choices_Ok in Hmt. destruct Hmt as [Hin _].
  unfold operator_only in Hc. rewrite forallb_forall in Hc.
  specialize (Hc _ Hin).
  destruct mt as [| | | name]; try discriminate; cbn [MutationType_eqb] in H.
  - destruct (op_in (op node) UNARY_OPS) eqn:HU.
    + apply bind_Ok in H. destruct H as (s & st3 & Hs & H).
      injection H as <- <-. apply random_choices_Ok in Hs.
      destruct Hs as [Hs _].
      exists (set_op node s). repeat split. right. left.
      split; [exact HU |]. exists s. split; [reflexivity | exact Hs].
    + destruct (op_in (op node) BINARY_OPS) eqn:HB.
      * apply bind_Ok in H. destruct H as (s & st3 & Hs & H).
        injection H as <- <-. apply random_choices_Ok in Hs.
        destruct Hs as [Hs _].
        exists (set_op node s). repeat split. right. right.
        split; [exact HU |]. split; [exact HB |].
        exists s. split; [reflexivity | exact Hs].
      * injection H as <- <-. exists node. repeat split. left. reflexivity.
  - injection H as <- <-. exists node. repeat split. left. reflexivity.
Qed.

(** X4: when the mutation weights of the configuration and of the default
    configuration name neither [SUBTREE] nor [SIMPLIFY], [mutate] keeps the
    shape of the tree and every constant: the tree returned differs from the
    argument only in operator symbols, each replaced, if at all, by a symbol
    of the unary weights at a node whose symbol is a unary operator and by a
    symbol of the binary weights at a node whose symbol is a binary
    operator. *)
Theorem operator_mutation_keeps_shape :
  forall node mutation_prob max_depth n_variables unary_weights binary_weights
         config st t st',
    operator_only config = true ->
    operator_only default_MutationConfig = true ->
    mutate node mutation_prob max_depth n_variables
      unary_weights binary_weights config st = (Ok t, st') ->
    symbols_swapped UNARY_OPS BINARY_OPS unary_weights binary_weights node t.
Proof.
  intros node mutation_prob max_depth n_variables unary_weights binary_weights
         config st t st' Hc Hd.
  revert mutation_prob config st t st' Hc.
  induction node as [o v l r IHl IHr] using Node_induction.
  intros mutation_prob config st t st' Hc H.
  rewrite mutate_eq in H. apply bind_Ok in H.
  destruct H as (fl & st1 & Hblock & H).
  destruct (mutate_node_operator_only _ _ _ _ _ _ _ _ _ _ Hc Hblock)
    as (node' & -> & Hop & Hval).
  cbn zeta in H. cbn [left right op value] in H, Hop, Hval.
  apply bind_Ok in H. destruct H as (l' & st2 & Hl & H).
  apply bind_Ok in H. destruct H as (r' & st3 & Hr & H).
  injection H as <- <-. cbn [symbols_swapped].
  split; [exact Hop |]. split; [exact Hval |]. split.
  - destruct l as [ln |].
    + apply bind_Ok in Hl. destruct Hl as (x & st4 & Hx & Hl).
      injection Hl as <- <-. eapply (IHl _ eq_refl); [exact Hd | exact Hx].
    + injection Hl as <- <-. exact I.
  - destruct r as [rn |].
    + apply bind_Ok in Hr. destruct Hr as (x & st4 & Hx & Hr).
      injection Hr as <- <-. eapply (IHr _ eq_refl); [exact Hd | exact Hx].
    + injection Hr as <- <-. exact I.
Qed.

End OperatorOnly.

(** ** Forms and sizes of generated trees *)

Lemma height_nonneg : forall t, 0 <= height t.
Proof.
  induction t as [o v l r IHl IHr] using Node_induction. cbn [height].
  destruct l as [l' |]; destruct r as [r' |];
    try specialize (IHl _ eq_refl); try specialize (IHr _ eq_refl); lia.
Qed.

(** A tree of height [h] has at most [2 ^ (h + 1) - 1] nodes. *)
Lemma size_height : forall t, Z.of_nat (size t) <= 2 ^ (height t + 1) - 1.
Proof.
  induction t as [o v l r IHl IHr] using Node_induction.
  cbn [size height].
  set (hl := match l with Some l' => 1 + height l' | None => 0 end).
  set (hr := match r with Some r' => 1 + height r' | None => 0 end).
  assert (Hl : Z.of_nat (match l with Some l' => size l' | None => 0%nat end)
               <= 2 ^ hl - 1).
  { subst hl. destruct l as [l' |]; [| simpl; lia].
    specialize (IHl _ eq_refl). rewrite Z.add_comm. exact IHl. }
  assert (Hr : Z.of_nat (match r with Some r' => size r' | None => 0%nat end)
               <= 2 ^ hr - 1).
  { subst hr. destruct r as [r' |]; [| simpl; lia].
    specialize (IHr _ eq_refl). rewrite Z.add_comm. exact IHr. }
  assert (Hl0 : 0 <= hl).
  { subst hl. destruct l as [l' |]; [pose proof (height_nonneg l') |]; lia. }
  assert (Hr0 : 0 <= hr).
  { subst hr. destruct r as [r' |]; [pose proof (height_nonneg r') |]; lia. }
  assert (H1 : 2 ^ hl <= 2 ^ Z.max hl hr) by (apply Z.pow_le_mono_r; lia).
  assert (H2 : 2 ^ hr <= 2 ^ Z.max hl hr) by (apply Z.pow_le_mono_r; lia).
  rewrite Z.pow_add_r by lia. change (2 ^ 1) with 2. lia.
Qed.

Section GeneratedForms.

Variable UNARY_OPS : list string.
Variable BINARY_OPS : list string.
Variable get_var_name : Z -> string.
Variable default_TreeConfig : TreeConfig.t.

Local Abbreviation create_random_tree_rec :=
  (create_random_tree_rec UNARY_OPS BINARY_OPS get_var_name default_TreeConfig).
Local Abbreviation create_random_tree :=
  (create_random_tree UNARY_OPS BINARY_OPS get_var_name default_TreeConfig).

Lemma generated_node_form max_depth n_variables unary_weights binary_weights
    depth t :
  generated get_var_name max_depth n_variables unary_weights binary_weights
    depth t ->
  every_node (node_form get_var_name n_variables unary_weights binary_weights)
    t.
Proof.
  induction 1; simpl; repeat split; auto;
    try (eexists; split; [| reflexivity]; lia).
Qed.

(** X5: every node of a tree returned by [create_random_tree] has one of
    four forms: a constant leaf, a variable leaf with an index from 0 to
    [n_variables], a symbol of the unary weights over a left child only, or
    a symbol of the binary weights over two children.  No node carries both
    a symbol and a constant, and none has a right child only. *)
Theorem create_random_tree_node_forms :
  forall depth max_depth n_variables unary_weights binary_weights config
         st t st',
    create_random_tree depth max_depth n_variables
      unary_weights binary_weights config st = (Ok t, st') ->
    every_node
      (node_form get_var_name n_variables
         (weights_or_default unary_weights UNARY_OPS)
         (weights_or_default binary_weights BINARY_OPS)) t.
Proof.
  intros until st'. intros Hrun.
  apply create_random_tree_generated in Hrun.
  eapply generated_node_form. exact Hrun.
Qed.

(** X6: a tree returned by [create_random_tree] at a depth between 0 and
    [max_depth], with [max_depth] at least 1, has at most
    [2 ^ (max_depth - depth + 1) - 1] nodes. *)
Theorem create_random_tree_size :
  forall depth max_depth n_variables unary_weights binary_weights config
         st t st',
    0 <= depth <= max_depth -> 1 <= max_depth ->
    create_random_tree depth max_depth n_variables
      unary_weights binary_weights config st = (Ok t, st') ->
    Z.of_nat (size t) <= 2 ^ (max_depth - depth + 1) - 1.
Proof.
  intros depth max_depth n_variables unary_weights binary_weights config
         st t st' Hd Hm Hrun.
  apply create_random_tree_generated, generated_height in Hrun.
  pose proof (size_height t) as Hs.
  assert (2 ^ (height t + 1) <= 2 ^ (max_depth - depth + 1)).
  { apply Z.pow_le_mono_r; [lia |].
    pose proof (height_nonneg t). lia. }
  lia.
Qed.

(** X7: at or below the floor, that is for a non-zero [depth] with
    [depth >= max_depth], [create_random_tree] returns a leaf after exactly
    two draws: [random.random()], then either [randint(1, n_variables)] for
    a variable leaf or [uniform(-5, 5)] for a constant leaf; the bounds -5
    and 5 are fixed, [config.CONSTANT_RANGE] is not read there. *)
Theorem create_random_tree_floor_leaf :
  forall depth max_depth n_variables unary_weights binary_weights config
         st t st',
    depth <> 0 -> max_depth <= depth ->
    create_random_tree depth max_depth n_variables
      unary_weights binary_weights config st = (Ok t, st') ->
    left t = None /\ right t = None
    /\ (exists d1 d2, tape st = d1 :: d2 :: tape st')
    /\ ((exists i, 1 <= i <= n_variables
                   /\ t = Node_op (get_var_name i)
                   /\ calls st'
                      = (calls st ++ [Crandom; Crandint 1 n_variables])%list)
        \/ (exists v, t = Node_value v
                      /\ calls st'
                         = (calls st ++ [Crandom; Cuniform (-5) 5])%list)).
Proof.
  intros depth max_depth n_variables unary_weights binary_weights config
         st t st' Hd Hfloor Hrun.
  rewrite create_random_tree_eq in Hrun. unfold nesting_bound in Hrun.
  cbn [create_random_tree_rec] in Hrun.
  replace (depth =? 0) with false in Hrun
    by (symmetry; apply Z.eqb_neq; exact Hd).
  replace (depth >=? max_depth) with true in Hrun
    by (symmetry; rewrite Z.geb_leb; apply Z.leb_le; exact Hfloor).
  run_inversion Hrun.
  - apply random_random_Ok in Hrun0. destruct Hrun0 as [Ht0 Hc0].
    apply random_randint_Ok in Hrun1. destruct Hrun1 as (Hi & Ht1 & Hc1).
    repeat split; try reflexivity.
    + exists (DUnit a), (DInt a0). rewrite Ht0, Ht1. reflexivity.
    + left. exists a0. repeat split; try lia.
      rewrite Hc1, Hc0, <- app_assoc. reflexivity.
  - apply random_random_Ok in Hrun0. destruct Hrun0 as [Ht0 Hc0].
    pose proof (draw_with_Ok _ _ _ _ _ Hrun1) as (d & Ht1 & _ & Hc1).
    repeat split; try reflexivity.
    + exists (DUnit a), d. rewrite Ht0, Ht1. reflexivity.
    + right. exists a0. split; [reflexivity |].
      rewrite Hc1, Hc0, <- app_assoc. reflexivity.
Qed.

(** X8: with no variable ([n_variables < 1]), a call at the floor whose
    first draw is below [config.VARIABLE_PROBABILITY] raises the
    [ValueError] of [random.randint(1, n_variables)] on an empty range. *)
Theorem create_random_tree_no_variables :
  forall depth max_depth n_variables unary_weights binary_weights config
         st u st1,
    depth <> 0 -> max_depth <= depth -> n_variables < 1 ->
    random_random st = (Ok u, st1) ->
    PrimFloat.ltb u (TreeConfig.VARIABLE_PROBABILITY config) = true ->
    create_random_tree depth max_depth n_variables
      unary_weights binary_weights config st
    = (Raise ValueError,
       mkRng (tape st1) (calls st1 ++ [Crandint 1 n_variables])).
Proof.
  intros depth max_depth n_variables unary_weights binary_weights config
         st u st1 Hd Hfloor Hn Hu Hlt.
  rewrite create_random_tree_eq. unfold nesting_bound.
  cbn [create_random_tree_rec].
  replace (depth =? 0) with false by (symmetry; apply Z.eqb_neq; exact Hd).
  replace (depth >=? max_depth) with true
    by (symmetry; rewrite Z.geb_leb; apply Z.leb_le; exact Hfloor).
  rewrite (bind_run _ _ _ _ _ Hu), Hlt. unfold bind, random_randint.
  replace (n_variables <? 1) with true by (symmetry; apply Z.ltb_lt; exact Hn).
  reflexivity.
Qed.

End GeneratedForms.

(** ** The sign of the mean squared error *)

Lemma float_of_nat_nonneg n : nonneg (float_of_nat n).
Proof.
  unfold nonneg, float_of_nat. rewrite of_uint63_spec.
  pose proof (to_Z_bounded (of_Z (Z.of_nat n))) as Hb.
  destruct (to_Z (of_Z (Z.of_nat n))) as [| p | p]; try lia.
  - reflexivity.
  - apply binary_round_nonneg.
Qed.

Lemma div_nonneg x y : nonneg x -> nonneg y -> nonneg (PrimFloat.div x y).
Proof.
  unfold nonneg. rewrite FloatAxioms.div_spec. unfold SF64div, SpecFloat.SFdiv.
  destruct (Prim2SF x) as [s | s | | s m e];
    destruct (Prim2SF y) as [s' | s' | | s' m' e'];
    simpl; intros Hx Hy; subst; simpl; auto.
  destruct (SpecFloat.SFdiv_core_binary _ _ _ _ _ _) as [[mz ez] lz].
  apply binary_round_aux_nonneg.
Qed.

Lemma nonneg_not_below_zero x : nonneg x -> PrimFloat.ltb x 0 = false.
Proof.
  unfold nonneg. rewrite FloatAxioms.ltb_spec.
  destruct (Prim2SF x) as [s | s | | s m e]; simpl; intros Hx; subst;
    reflexivity.
Qed.

(** X9: the mean squared error returned by the metric computation is never
    negative: it is [+0.0], a positive number, [+inf] or NaN, whatever the
    predictions and the targets; [mse < 0] is false. *)
Theorem score_mse_not_negative :
  forall y_pred y mse r2,
    score y_pred y = Returns (mse, r2) ->
    nonneg mse /\ PrimFloat.ltb mse 0 = false.
Proof.
  intros y_pred y mse r2 H. unfold score in H.
  destruct (np_sub y y_pred) as [residual | e]; [| discriminate].
  inversion H; subst. clear H.
  assert (Hn : nonneg (np_mean (np_square residual))).
  { unfold np_mean. apply div_nonneg.
    - apply np_sum_nonneg, np_square_nonneg.
    - apply float_of_nat_nonneg. }
  split; [exact Hn | apply nonneg_not_below_zero; exact Hn].
Qed.

(** ** Data handling *)


Lemma and_then_Done {A B} (m : attempt A) (f : A -> attempt B) b :
  and_then m f = Done b -> exists a, m = Done a /\ f a = Done b.
Proof. destruct m as [a | e]; simpl; [eauto | discriminate]. Qed.

Lemma take_list_in_range {A} (d : A) (l : list A) (idx : list nat) :
  Forall (fun i => (i < List.length l)%nat) idx ->
  take_list l idx = Done (map (fun i => nth i l d) idx).
Proof.
  induction 1 as [| i idx Hi _ IH]; [reflexivity |].
  simpl. destruct (nth_error l i) as [a |] eqn:Hnth.
  - rewrite IH. simpl. f_equal. f_equal. symmetry.
    apply nth_error_nth; exact Hnth.
  - apply nth_error_None in Hnth. lia.
Qed.

Lemma take_list_failure {A} (l : list A) (idx : list nat) e :
  take_list l idx = Failed e -> e = Builtin IndexError.
Proof.
  induction idx as [| i idx IH]; simpl; [discriminate |].
  destruct (nth_error l i); [| congruence].
  destruct (take_list l idx); simpl; [discriminate |].
  intros H. inversion H; subst. apply IH; reflexivity.
Qed.

Lemma take_list_out_of_range {A} (l : list A) (idx : list nat) i :
  In i idx -> (List.length l <= i)%nat ->
  take_list l idx = Failed (Builtin IndexError).
Proof.
  intros Hin Hi. destruct (take_list l idx) as [r | e] eqn:Ht.
  - exfalso. revert r Ht. induction idx as [| j idx IH]; [destruct Hin |].
    simpl. intros r. destruct (nth_error l j) eqn:Hnth; [| discriminate].
    destruct Hin as [-> | Hin].
    + assert (nth_error l i = None) by (apply nth_error_None; exact Hi).
      congruence.
    + destruct (take_list l idx); simpl; [| discriminate].
      intros _. eapply IH; eauto.
  - f_equal. eapply take_list_failure; exact Ht.
Qed.

Lemma take_failure x idx e :
  take x idx = Failed e -> e = Builtin IndexError.
Proof.
  destruct x as [data | rows ncols]; simpl.
  - destruct (take_list data idx) eqn:Ht; simpl; [discriminate |].
    intros H; inversion H; subst. eapply take_list_failure; exact Ht.
  - destruct (take_list rows idx) eqn:Ht; simpl; [discriminate |].
    intros H; inversion H; subst. eapply take_list_failure; exact Ht.
Qed.

Lemma take_out_of_range x idx i :
  In i idx -> (len x <= i)%nat -> take x idx = Failed (Builtin IndexError).
Proof.
  intros Hin Hi. destruct x as [data | rows ncols]; simpl in *;
    erewrite take_list_out_of_range; eauto.
Qed.

Lemma take_in_range x idx :
  Forall (fun i => (i < len x)%nat) idx ->
  exists t, take x idx = Done t /\ ndim t = ndim x /\ shape1 t = shape1 x /\
            entries t = map (fun i => nth i (entries x) []) idx.
Proof.
  intros Hall. destruct x as [data | rows ncols]; simpl in *.
  - rewrite (take_list_in_range 0%float) by exact Hall. simpl.
    eexists; split; [reflexivity |]. simpl. repeat split.
    rewrite map_map. apply map_ext_in. intros i Hi.
    rewrite Forall_forall in Hall. specialize (Hall i Hi).
    rewrite (nth_indep _ [] [0%float]) by (rewrite length_map; exact Hall).
    exact (eq_sym (map_nth (fun v => [v]) data 0%float i)).
  - rewrite (take_list_in_range []) by exact Hall. simpl.
    eexists; split; [reflexivity |]. simpl. repeat split.
Qed.

Lemma len_entries x : List.length (entries x) = len x.
Proof. destruct x; simpl; [apply length_map | reflexivity]. Qed.

Lemma slices_cover {A} (k : Z) (l : list A) : (slice_to k l ++ slice_from k l)%list = l.
Proof. apply firstn_skipn. Qed.

Lemma map_nth_seq {A} (d : A) (l : list A) :
  map (fun i => nth i l d) (seq 0 (List.length l)) = l.
Proof.
  induction l as [| a l IH]; [reflexivity |].
  simpl. f_equal. rewrite <- seq_shift, map_map. exact IH.
Qed.

Lemma permutation_in_range perm n :
  Permutation perm (seq 0 n) -> Forall (fun i => (i < n)%nat) perm.
Proof.
  intros Hp. apply Forall_forall. intros i Hi.
  apply (Permutation_in _ Hp), in_seq in Hi. lia.
Qed.

Lemma Forall_slices {A} (P : A -> Prop) k l :
  Forall P l -> Forall P (slice_to k l) /\ Forall P (slice_from k l).
Proof.
  intros H. rewrite <- (slices_cover k l) in H.
  apply Forall_app in H. exact H.
Qed.

Lemma len_transpose x : ndim x = 2%nat -> len (transpose x) = shape1 x.
Proof.
  destruct x as [data | rows ncols]; simpl; [discriminate |].
  intros _. rewrite length_map. apply length_seq.
Qed.

Lemma split_data_index_out_of_range permutation x y train_ratio train_size i :
  let x' := if Nat.eqb (ndim x) 2 && Nat.ltb (shape1 x) (len x)
            then transpose x else x in
  In i permutation ->
  (len x' <= i)%nat \/ (len y <= i)%nat ->
  py_int (PrimFloat.mul (float_of_nat (len x)) train_ratio) = Done train_size ->
  split_data permutation x y train_ratio = Failed (Builtin IndexError).
Proof.
  intros x' Hin Hout Hint. unfold split_data. rewrite Hint. cbn [and_then].
  fold x'. rewrite <- (slices_cover train_size permutation) in Hin.
  apply in_app_or in Hin.
  destruct (take x' (slice_to train_size permutation)) as [xt | e] eqn:Ext;
    cbn [and_then]; [| f_equal; eapply take_failure; exact Ext].
  destruct (take x' (slice_from train_size permutation)) as [xv | e] eqn:Exv;
    cbn [and_then]; [| f_equal; eapply take_failure; exact Exv].
  destruct Hout as [Hout | Hout].
  - exfalso. destruct Hin as [Hin | Hin].
    + rewrite (take_out_of_range _ _ _ Hin Hout) in Ext. discriminate.
    + rewrite (take_out_of_range _ _ _ Hin Hout) in Exv. discriminate.
  - destruct Hin as [Hin | Hin].
    + rewrite (take_out_of_range _ _ _ Hin Hout). reflexivity.
    + destruct (take y (slice_to train_size permutation)) as [t | e] eqn:Ht;
        cbn [and_then].
      * rewrite (take_out_of_range _ _ _ Hin Hout). reflexivity.
      * f_equal. eapply take_failure; exact Ht.
Qed.

Lemma last_index_drawn permutation n :
  Permutation permutation (seq 0 n) -> (0 < n)%nat ->
  In (n - 1)%nat permutation.
Proof.
  intros Hperm Hn.
  apply (Permutation_in _ (Permutation_sym Hperm)), in_seq. lia.
Qed.

(** X10: [split_data] takes [n = len(x)] before it transposes [x].  For
    every two-dimensional [x] with more rows than columns, whatever [y], the
    permutation drawn and the ratio (with [int(n * train_ratio)] defined),
    the call raises [IndexError]: the indices range over the rows of the
    original array, of which the transposed one has fewer. *)
Theorem split_data_transposed :
  forall permutation x y train_ratio train_size,
    Permutation permutation (seq 0 (len x)) ->
    ndim x = 2%nat ->
    (shape1 x < len x)%nat ->
    py_int (PrimFloat.mul (float_of_nat (len x)) train_ratio) = Done train_size ->
    split_data permutation x y train_ratio = Failed (Builtin IndexError).
Proof.
  intros perm x y r k Hperm Hdim Hshape Hint.
  apply (split_data_index_out_of_range _ _ _ _ k (len x - 1)%nat).
  - apply last_index_drawn; [exact Hperm | lia].
  - left. rewrite Hdim. apply Nat.ltb_lt in Hshape as Hlt. rewrite Hlt.
    cbn [Nat.eqb andb]. rewrite len_transpose by exact Hdim. lia.
  - exact Hint.
Qed.

(** X11: when [x] is one-dimensional, or two-dimensional with no more rows
    than columns, and [y] has at least [len(x)] entries, [split_data]
    returns.  The training and validation parts of [x], put end to end, are
    the entries of [x] in the order of the permutation, hence each entry of
    [x] exactly once; the parts of [y] are taken at the same indices, so
    that the i-th training (validation) input goes with the i-th training
    (validation) target; and the training part has [train_size] entries when
    [0 <= train_size <= len(x)]. *)
Theorem split_data_partitions :
  forall permutation x y train_ratio train_size,
    Permutation permutation (seq 0 (len x)) ->
    (ndim x = 1%nat \/ (len x <= shape1 x)%nat) ->
    (len x <= len y)%nat ->
    py_int (PrimFloat.mul (float_of_nat (len x)) train_ratio) = Done train_size ->
    exists x_train x_val y_train y_val,
      split_data permutation x y train_ratio
        = Done (x_train, x_val, y_train, y_val) /\
      (entries x_train ++ entries x_val)%list
        = map (fun i => nth i (entries x) []) permutation /\
      (entries y_train ++ entries y_val)%list
        = map (fun i => nth i (entries y) []) permutation /\
      Permutation (entries x_train ++ entries x_val)%list (entries x) /\
      len x_train = len y_train /\ len x_val = len y_val /\
      (0 <= train_size <= Z.of_nat (len x) ->
       Z.of_nat (len x_train) = train_size).
Proof.
  intros perm x y r k Hperm Hshape Hy Hint.
  unfold split_data. rewrite Hint. cbn [and_then].
  assert (Hkeep : Nat.eqb (ndim x) 2 && Nat.ltb (shape1 x) (len x) = false).
  { destruct Hshape as [H1 | H2].
    - rewrite H1. reflexivity.
    - apply Nat.ltb_ge in H2. rewrite H2. apply andb_false_r. }
  rewrite Hkeep.
  pose proof (permutation_in_range _ _ Hperm) as Hx.
  assert (Hyr : Forall (fun i => (i < len y)%nat) perm).
  { eapply Forall_impl; [| exact Hx]. simpl. intros; lia. }
  destruct (Forall_slices _ k _ Hx) as [Hx1 Hx2].
  destruct (Forall_slices _ k _ Hyr) as [Hy1 Hy2].
  destruct (take_in_range _ _ Hx1) as (xt & -> & _ & _ & Ext).
  destruct (take_in_range _ _ Hx2) as (xv & -> & _ & _ & Exv).
  destruct (take_in_range _ _ Hy1) as (yt & -> & _ & _ & Eyt).
  destruct (take_in_range _ _ Hy2) as (yv & -> & _ & _ & Eyv).
  cbn [and_then]. exists xt, xv, yt, yv.
  assert (Hxs : (entries xt ++ entries xv)%list
                = map (fun i => nth i (entries x) []) perm).
  { rewrite Ext, Exv, <- map_app, slices_cover. reflexivity. }
  assert (Hlt : len xt = List.length (slice_to k perm)).
  { rewrite <- len_entries, Ext. apply length_map. }
  repeat split.
  - exact Hxs.
  - rewrite Eyt, Eyv, <- map_app, slices_cover. reflexivity.
  - rewrite Hxs.
    apply (Permutation_trans
             (l' := map (fun i => nth i (entries x) []) (seq 0 (len x)))).
    + apply Permutation_map. exact Hperm.
    + rewrite <- len_entries, map_nth_seq. apply Permutation_refl.
  - rewrite Hlt, <- (len_entries yt), Eyt. symmetry. apply length_map.
  - rewrite <- (len_entries xv), <- (len_entries yv), Exv, Eyv.
    rewrite !length_map. reflexivity.
  - intros Hk. rewrite Hlt. unfold slice_to, slice_bound.
    rewrite length_firstn.
    apply Permutation_length in Hperm. rewrite length_seq in Hperm.
    destruct (k <? 0) eqn:Hneg; [apply Z.ltb_lt in Hneg; lia |].
    rewrite Hperm. lia.
Qed.

(** X12: when [y] has fewer entries than [x] has along its first axis,
    [split_data] raises [IndexError], whatever the permutation and the
    ratio (with [int(n * train_ratio)] defined). *)
Theorem split_data_short_targets :
  forall permutation x y train_ratio train_size,
    Permutation permutation (seq 0 (len x)) ->
    (len y < len x)%nat ->
    py_int (PrimFloat.mul (float_of_nat (len x)) train_ratio) = Done train_size ->
    split_data permutation x y train_ratio = Failed (Builtin IndexError).
Proof.
  intros perm x y r k Hperm Hy Hint.
  apply (split_data_index_out_of_range _ _ _ _ k (len x - 1)%nat).
  - apply last_index_drawn; [exact Hperm | lia].
  - right. lia.
  - exact Hint.
Qed.

Lemma for_each_Done {A} (l : list A) body :
  for_each l body = Done tt <-> forall a, In a l -> body a = Done tt.
Proof.
  induction l as [| a l IH]; simpl.
  - split; [intros _ a [] | reflexivity].
  - destruct (body a) as [[] | e] eqn:Hb; simpl.
    + rewrite IH. split.
      * intros H b [<- | Hin]; [exact Hb | apply H; exact Hin].
      * intros H b Hin. apply H. right. exact Hin.
    + split; [discriminate |]. intros H.
      specialize (H a (or_introl eq_refl)). congruence.
Qed.

Lemma print_statistics_Done x y :
  print_statistics x y = Done tt <->
  y <> [] /\
  (ndim x = 2%nat -> (1 <= shape1 x)%nat -> len x = List.length y).
Proof.
  unfold print_statistics. destruct x as [data | rows ncols]; simpl.
  - destruct y; simpl; split.
    + discriminate.
    + intros [H _]. congruence.
    + intros _. split; [discriminate | discriminate].
    + reflexivity.
  - destruct (for_each (seq 0 ncols) _) as [[] | e] eqn:Hfor; simpl.
    + rewrite for_each_Done in Hfor.
      destruct y as [| v y]; simpl; split; try discriminate;
        try reflexivity.
      * intros [H _]. congruence.
      * intros _. split; [discriminate |]. intros _ Hn.
        specialize (Hfor 0%nat). rewrite in_seq in Hfor.
        specialize (Hfor ltac:(lia)).
        apply and_then_Done in Hfor. destruct Hfor as ([] & _ & Hc).
        unfold np_corrcoef_defined, column_of in Hc. rewrite length_map in Hc.
        destruct (Nat.eqb_spec (List.length rows) (List.length (v :: y)));
          [assumption | discriminate].
    + split; [discriminate |]. intros [Hy Hrows]. exfalso.
      assert (Hall : for_each (seq 0 ncols) (fun i =>
                 and_then (np_min_defined (column_of rows i)) (fun _ =>
                 np_corrcoef_defined (column_of rows i) y)) = Done tt);
        [| congruence].
      apply for_each_Done. intros i Hi. apply in_seq in Hi.
      specialize (Hrows eq_refl ltac:(lia)).
      unfold np_corrcoef_defined, column_of. rewrite length_map, Hrows.
      rewrite Nat.eqb_refl.
      destruct rows as [| row rows]; simpl in *.
      * destruct y; [congruence | discriminate].
      * reflexivity.
Qed.

Section FilesProperties.

Variable os_path_join : string -> string -> string.
Variable os_path_exists : string -> bool.
Variable np_load : string -> attempt npz.

Local Abbreviation load_data := (load_data os_path_join os_path_exists np_load).

Lemma load_data_Done data_dir problem_name x y :
  load_data data_dir problem_name = Done (x, y) <->
  exists data x0,
    os_path_exists (os_path_join data_dir (problem_name ++ ".npz")) = true /\
    np_load (os_path_join data_dir (problem_name ++ ".npz")) = Done data /\
    npz_x data = Some x0 /\ npz_y data = Some y /\
    x = (if Nat.eqb (ndim x0) 2 && Nat.ltb (len x0) (shape1 x0)
         then transpose x0 else x0) /\
    print_statistics x y = Done tt.
Proof.
  unfold load_data.
  destruct (os_path_exists _) eqn:Hex; simpl.
  - destruct (np_load _) as [data | e] eqn:Hload; simpl.
    + destruct data as [[x0 |] [y0 |]]; simpl.
      * set (x' := if Nat.eqb (ndim x0) 2 && Nat.ltb (len x0) (shape1 x0)
                   then transpose x0 else x0).
        destruct (print_statistics x' y0) as [[] | e] eqn:Hp; simpl; split.
        -- intros H. inversion H; subst. exists (mkNpz (Some x0) (Some y)), x0.
           simpl. repeat split; auto.
        -- intros (data & x1 & _ & Hd & Hx & Hy & -> & _).
           inversion Hd; subst. simpl in *. inversion Hx; inversion Hy; subst.
           reflexivity.
        -- discriminate.
        -- intros (data & x1 & _ & Hd & Hx & Hy & -> & Hp').
           inversion Hd; subst. simpl in *. inversion Hx; inversion Hy; subst.
           fold x' in Hp'. congruence.
      * split; [discriminate |].
        intros (data & x1 & _ & Hd & _ & Hy & _). inversion Hd; subst.
        discriminate.
      * split; [discriminate |].
        intros (data & x1 & _ & Hd & Hx & _). inversion Hd; subst.
        discriminate.
      * split; [discriminate |].
        intros (data & x1 & _ & Hd & Hx & _). inversion Hd; subst.
        discriminate.
    + split; [discriminate |]. intros (data & x1 & _ & Hd & _). discriminate.
  - split; [discriminate |]. intros (data & x1 & He & _). discriminate.
Qed.

(** X13: the arrays [load_data] returns: [y] is not empty; a
    two-dimensional [x] has at least as many rows as columns and, when it
    has a column, as many rows as [y] has entries. *)
Theorem load_data_returns_oriented :
  forall data_dir problem_name x y,
    load_data data_dir problem_name = Done (x, y) ->
    y <> [] /\
    (ndim x = 2%nat ->
     (shape1 x <= len x)%nat /\
     ((1 <= shape1 x)%nat -> len x = List.length y)).
Proof.
  intros data_dir problem_name x y Hload.
  apply load_data_Done in Hload.
  destruct Hload as (data & x0 & _ & _ & _ & _ & Hx & Hp).
  apply print_statistics_Done in Hp. destruct Hp as [Hy Hrows].
  split; [exact Hy |]. intros Hdim. split; [| exact (Hrows Hdim)].
  subst x. destruct x0 as [d0 | rows ncols]; [discriminate |].
  cbn [ndim len shape1 Nat.eqb andb] in *.
  destruct (Nat.ltb_spec (List.length rows) ncols) as [Hlt | Hge].
  - cbn [transpose len shape1]. rewrite length_map, length_seq. lia.
  - cbn [len shape1]. exact Hge.
Qed.

(** X14: [load_data] raises nothing but [ValueError], a missing file
    included (its [FileNotFoundError] is raised inside the [try] block and
    caught), and it raises only for one of these reasons: the file is
    missing, [np.load] fails, the file has no [x] or no [y], [y] is empty,
    or [x] is two-dimensional without an empty axis and its longer axis
    differs in length from [y]. *)
Theorem load_data_failure :
  forall data_dir problem_name e,
    load_data data_dir problem_name = Failed e ->
    e = Builtin ValueError /\
    let file_path := os_path_join data_dir (problem_name ++ ".npz") in
    (os_path_exists file_path = false \/
     (exists e', np_load file_path = Failed e') \/
     (exists data, np_load file_path = Done data /\
        (npz_x data = None \/ npz_y data = None \/
         npz_y data = Some [] \/
         exists x0 y, npz_x data = Some x0 /\ npz_y data = Some y /\
           ndim x0 = 2%nat /\ (1 <= len x0)%nat /\ (1 <= shape1 x0)%nat /\
           Nat.max (len x0) (shape1 x0) <> List.length y))).
Proof.
  intros data_dir problem_name e Hfail. split.
  - unfold load_data, reraise_ValueError in Hfail.
    destruct (if negb _ then _ else _); [discriminate | congruence].
  - intros file_path.
    destruct (os_path_exists file_path) eqn:Hex; [| left; reflexivity].
    right. destruct (np_load file_path) as [data | e'] eqn:Hload;
      [| left; exists e'; reflexivity].
    right. exists data. split; [reflexivity |].
    destruct (npz_x data) as [x0 |] eqn:Hx; [| left; reflexivity].
    destruct (npz_y data) as [y |] eqn:Hy; [| right; left; reflexivity].
    right; right.
    destruct y as [| v y]; [left; reflexivity |]. right.
    exists x0, (v :: y). split; [reflexivity |]. split; [reflexivity |].
    set (x := if Nat.eqb (ndim x0) 2 && Nat.ltb (len x0) (shape1 x0)
              then transpose x0 else x0).
    destruct (print_statistics x (v :: y)) as [[] | e'] eqn:Hp.
    + exfalso.
      assert (Hdone : load_data data_dir problem_name = Done (x, v :: y)).
      { apply load_data_Done. exists data, x0. fold file_path.
        repeat split; assumption. }
      congruence.
    + assert (Hnot : ~ (v :: y <> [] /\
                (ndim x = 2%nat -> (1 <= shape1 x)%nat ->
                 len x = List.length (v :: y)))).
      { intros H. apply print_statistics_Done in H. congruence. }
      destruct x0 as [d0 | rows ncols].
      * exfalso. apply Hnot. split; [discriminate |]. discriminate.
      * split; [reflexivity |]. subst x.
        cbn [ndim len shape1 Nat.eqb andb] in *.
        destruct (Nat.ltb_spec (List.length rows) ncols) as [Hlt | Hge];
          cbn [transpose ndim len shape1] in Hnot;
          try rewrite length_map, length_seq in Hnot.
        -- assert (Hne : ~ ((1 <= List.length rows)%nat ->
                            ncols = List.length (v :: y))).
           { intros H. apply Hnot. split; [discriminate |]. intros _. exact H. }
           assert (H1 : (1 <= List.length rows)%nat).
           { destruct rows; [exfalso; apply Hne; simpl; lia | simpl; lia]. }
           split; [exact H1 |]. split; [lia |].
           intros Hm. apply Hne. intros _. lia.
        -- assert (Hne : ~ ((1 <= ncols)%nat ->
                            List.length rows = List.length (v :: y))).
           { intros H. apply Hnot. split; [discriminate |]. intros _. exact H. }
           assert (H1 : (1 <= ncols)%nat).
           { destruct ncols; [exfalso; apply Hne; lia | lia]. }
           split; [lia |]. split; [exact H1 |].
           intros Hm. apply Hne. intros _. lia.
Qed.

(** X15: [split_data] fails on what [load_data] returns: for every
    two-dimensional [x] returned by [load_data] that is not square, the call
    [split_data(x, y, train_ratio)] raises [IndexError].  [load_data] puts
    the longer axis first, [split_data] puts it second after having taken
    [n] from the first. *)
Theorem load_data_then_split_data :
  forall data_dir problem_name x y permutation train_ratio train_size,
    load_data data_dir problem_name = Done (x, y) ->
    ndim x = 2%nat ->
    len x <> shape1 x ->
    Permutation permutation (seq 0 (len x)) ->
    py_int (PrimFloat.mul (float_of_nat (len x)) train_ratio) = Done train_size ->
    split_data permutation x (Array1 y) train_ratio
      = Failed (Builtin IndexError).
Proof.
  intros data_dir problem_name x y perm r k Hload Hdim Hsq Hperm Hint.
  apply load_data_Done in Hload.
  destruct Hload as (data & x0 & _ & _ & _ & _ & Hx & _).
  assert (Hshape : (shape1 x < len x)%nat).
  { subst x. destruct x0 as [d0 | rows ncols]; [discriminate |].
    cbn [ndim len shape1 Nat.eqb andb] in *.
    destruct (Nat.ltb_spec (List.length rows) ncols) as [Hlt | Hge].
    - cbn [transpose len shape1]. rewrite length_map, length_seq. lia.
    - cbn [len shape1] in *. lia. }
  apply (split_data_index_out_of_range _ _ _ _ k (len x - 1)%nat).
  - apply last_index_drawn; [exact Hperm | lia].
  - left. rewrite Hdim. apply Nat.ltb_lt in Hshape as Hlt. rewrite Hlt.
    cbn [Nat.eqb andb]. rewrite len_transpose by exact Hdim. lia.
  - exact Hint.
Qed.

End FilesProperties.


(** ** Simplification alone *)

Section SimplifyOnly.

Variable UNARY_OPS : list string.
Variable BINARY_OPS : list string.
Variable get_var_name : Z -> string.
Variable default_TreeConfig : TreeConfig.t.
Variable default_MutationConfig : MutationConfig.t.

Local Abbreviation mutate_node :=
  (mutate_node UNARY_OPS BINARY_OPS get_var_name default_TreeConfig).
Local Abbreviation mutate :=
  (mutate UNARY_OPS BINARY_OPS get_var_name default_TreeConfig
     default_MutationConfig).

(** What the block of [mutate] does under such a configuration. *)
Lemma mutate_node_simplify_only node mutation_prob max_depth n_variables
    unary_weights binary_weights config st fl st' :
  simplify_only config = true ->
  mutate_node node mutation_prob max_depth n_variables
    unary_weights binary_weights config st = (Ok fl, st') ->
  fl = Fallthrough node
  \/ fl = Return node
  \/ fl = Return (Node_value 0)
  \/ exists c, (left node = Some c \/ right node = Some c) /\ fl = Return c.
Proof.
  intros Hc H. unfold mutate_node in H.
  apply bind_Ok in H. destruct H as (u & st1 & _ & H).
  destruct (PrimFloat.ltb u mutation_prob).
  2:{ injection H as <- <-. left. reflexivity. }
  apply bind_Ok in H. destruct H as (mt & st2 & Hmt & H).
  apply random_choices_Ok in Hmt. destruct Hmt as [Hin _].
  unfold simplify_only in Hc. rewrite forallb_forall in Hc.
  specialize (Hc _ Hin).
  destruct mt as [| | | name]; try discriminate; cbn [MutationType_eqb] in H.
  - destruct (op_is (op node) "*").
    2:{ injection H as <- <-. left. reflexivity. }
    destruct (child_value_is (left node) 0 || child_value_is (right node) 0).
    { injection H as <- <-. right. right. left. reflexivity. }
    destruct (child_value_is (left node) 1).
    { injection H as <- <-. destruct (right node) as [c |] eqn:Hr.
      - right. right. right. exists c. rewrite copy_id. auto.
      - right. left. reflexivity. }
    destruct (child_value_is (right node) 1).
    { injection H as <- <-. destruct (left node) as [c |] eqn:Hl.
      - right. right. right. exists c. rewrite copy_id. auto.
      - right. left. reflexivity. }
    injection H as <- <-. left. reflexivity.
  - simpl in H. injection H as <- <-. left. reflexivity.
Qed.

Lemma size_positive t : (1 <= size t)%nat.
Proof. destruct t. cbn [size]. lia. Qed.

(** X16: when the mutation weights of the configuration and of the default
    configuration name neither [SUBTREE] nor [OPERATOR], [mutate] never
    grows a tree: the tree returned has at most as many nodes as the
    argument and is at most as high. *)
Theorem simplify_mutation_shrinks :
  forall node mutation_prob max_depth n_variables unary_weights binary_weights
         config st t st',
    simplify_only config = true ->
    simplify_only default_MutationConfig = true ->
    mutate node mutation_prob max_depth n_variables
      unary_weights binary_weights config st = (Ok t, st') ->
    (size t <= size node)%nat /\ height t <= height node.
Proof.
  intros node mutation_prob max_depth n_variables unary_weights binary_weights
         config st t st' Hc Hd.
  revert mutation_prob config st t st' Hc.
  induction node as [o v l r IHl IHr] using Node_induction.
  intros mutation_prob config st t st' Hc H.
  rewrite mutate_eq in H. apply bind_Ok in H.
  destruct H as (fl & st1 & Hblock & H).
  destruct (mutate_node_simplify_only _ _ _ _ _ _ _ _ _ _ Hc Hblock)
    as [-> | [-> | [-> | (c & Hchild & ->)]]].
  - cbn zeta in H. cbn [op value] in H.
    apply bind_Ok in H. destruct H as (l' & st2 & Hl & H).
    apply bind_Ok in H. destruct H as (r' & st3 & Hr & H).
    injection H as <- <-.
    assert (HL : match l, l' with
                 | Some a, Some b =>
                     (size b <= size a)%nat /\ height b <= height a
                 | None, None => True
                 | _, _ => False
                 end).
    { destruct l as [ln |].
      - apply bind_Ok in Hl. destruct Hl as (x & st4 & Hx & Hl).
        injection Hl as <- <-. eapply (IHl _ eq_refl); [exact Hd | exact Hx].
      - injection Hl as <- <-. exact I. }
    assert (HR : match r, r' with
                 | Some a, Some b =>
                     (size b <= size a)%nat /\ height b <= height a
                 | None, None => True
                 | _, _ => False
                 end).
    { destruct r as [rn |].
      - apply bind_Ok in Hr. destruct Hr as (x & st4 & Hx & Hr).
        injection Hr as <- <-. eapply (IHr _ eq_refl); [exact Hd | exact Hx].
      - injection Hr as <- <-. exact I. }
    cbn [size height].
    destruct l as [ln |], l' as [ln' |], r as [rn |], r' as [rn' |];
      try contradiction; lia.
  - injection H as <- <-. split; [lia | lia].
  - injection H as <- <-. split.
    + apply size_positive.
    + pose proof (height_nonneg (mkNode o v l r)). cbn [height Node_value] in *.
      lia.
  - injection H as <- <-. cbn [left right] in Hchild. cbn [size height].
    pose proof (height_nonneg c).
    destruct Hchild as [-> | ->].
    + destruct r; split; lia.
    + destruct l; split; lia.
Qed.

End SimplifyOnly.

(** ** Drawing of expression trees *)

Section DrawingProperties.

Local Open Scope list_scope.

Lemma side_eqb_eq a b : side_eqb a b = true <-> a = b.
Proof. destruct a, b; simpl; split; congruence. Qed.

Lemma ident_eqb_eq p : forall q, ident_eqb p q = true <-> p = q.
Proof.
  induction p as [| a p IH]; intros [| b q]; simpl; split; try congruence.
  - intros H. apply andb_true_iff in H. destruct H as [Ha Hp].
    apply side_eqb_eq in Ha. apply IH in Hp. congruence.
  - intros H. injection H as -> ->. apply andb_true_iff. split.
    + apply side_eqb_eq. reflexivity.
    + apply IH. reflexivity.
Qed.

Lemma ident_eqb_refl p : ident_eqb p p = true.
Proof. apply ident_eqb_eq. reflexivity. Qed.

Lemma ident_eqb_neq p q : p <> q -> ident_eqb p q = false.
Proof.
  intros H. destruct (ident_eqb p q) eqn:E; [| reflexivity].
  apply ident_eqb_eq in E. contradiction.
Qed.

Lemma get_set_same {V} k (v : V) d : get_item (set_item k v d) k = Some v.
Proof.
  induction d as [| [k' v'] d IH]; simpl.
  - rewrite ident_eqb_refl. reflexivity.
  - destruct (ident_eqb k' k) eqn:E; simpl; rewrite E; [reflexivity | exact IH].
Qed.

Lemma get_set_other {V} k (v : V) d q :
  k <> q -> get_item (set_item k v d) q = get_item d q.
Proof.
  intros Hne. induction d as [| [k' v'] d IH]; simpl.
  - rewrite (ident_eqb_neq _ _ Hne). reflexivity.
  - destruct (ident_eqb k' k) eqn:E; simpl.
    + apply ident_eqb_eq in E. subst k'.
      rewrite (ident_eqb_neq _ _ Hne). reflexivity.
    + destruct (ident_eqb k' q); [reflexivity | exact IH].
Qed.

Lemma get_add_node G n q :
  get_item (add_node G n) q
  = match get_item G q with
    | Some s => Some s
    | None => if ident_eqb n q then Some [] else None
    end.
Proof.
  unfold add_node. destruct (get_item G n) as [s |] eqn:En.
  - destruct (get_item G q) as [s' |] eqn:Eq; [reflexivity |].
    destruct (ident_eqb n q) eqn:E; [| reflexivity].
    apply ident_eqb_eq in E. congruence.
  - destruct (ident_eqb n q) eqn:E.
    + apply ident_eqb_eq in E. subst q. rewrite get_set_same, En. reflexivity.
    + rewrite get_set_other
        by (intros ->; rewrite ident_eqb_refl in E; discriminate).
      destruct (get_item G q); reflexivity.
Qed.

Lemma get_add_edge u v G q :
  u <> v ->
  ~ In v (successors_or_none G u) ->
  get_item (add_edge u v G) q
  = if ident_eqb u q then Some (successors_or_none G u ++ [v])%list
    else if ident_eqb v q then Some (successors_or_none G v)
    else get_item G q.
Proof.
  intros Huv Hnew. unfold add_edge.
  assert (Hu : get_item (add_node (add_node G u) v) u
               = Some (successors_or_none G u)).
  { rewrite !get_add_node, ident_eqb_refl. unfold successors_or_none.
    destruct (get_item G u); reflexivity. }
  rewrite Hu.
  assert (Hex : existsb (ident_eqb v) (successors_or_none G u) = false).
  { destruct (existsb _ _) eqn:E; [| reflexivity].
    apply existsb_exists in E. destruct E as (x & Hin & Hx).
    apply ident_eqb_eq in Hx. subst x. contradiction. }
  rewrite Hex.
  destruct (ident_eqb u q) eqn:Euq.
  - apply ident_eqb_eq in Euq. subst q. apply get_set_same.
  - rewrite get_set_other
      by (intros ->; rewrite ident_eqb_refl in Euq; discriminate).
    rewrite !get_add_node, Euq. unfold successors_or_none.
    destruct (get_item G q) as [s |] eqn:Eq.
    + destruct (ident_eqb v q) eqn:Evq; [| reflexivity].
      apply ident_eqb_eq in Evq. subst q. rewrite Eq. reflexivity.
    + destruct (ident_eqb v q) eqn:Evq; [| reflexivity].
      apply ident_eqb_eq in Evq. subst q. rewrite Eq. reflexivity.
Qed.

Lemma app_eq_self {A} (p s : list A) : p ++ s = p -> s = [].
Proof.
  intros H. apply (app_inv_head p). rewrite app_nil_r. exact H.
Qed.

Lemma snoc_app {A} (p : list A) a s : (p ++ [a]) ++ s = p ++ a :: s.
Proof. rewrite <- app_assoc. reflexivity. Qed.

(** The graph after [collect_nodes(node, parent_id)], for a node whose
    identity and those below it are new to the graph. *)
Lemma collect_nodes_graph :
  forall node (p : ident) (parent : option ident)
         (st : DiGraph * list (ident * Node)),
    (forall s, get_item (fst st) (p ++ s) = None) ->
    (forall pp, parent = Some pp ->
       (forall s, pp <> p ++ s) /\ ~ In p (successors_or_none (fst st) pp)) ->
    (forall q, (forall s, q <> p ++ s) -> parent <> Some q ->
       get_item (fst (collect_nodes node p parent st)) q = get_item (fst st) q)
    /\ (forall pp, parent = Some pp ->
          get_item (fst (collect_nodes node p parent st)) pp
          = Some (successors_or_none (fst st) pp ++ [p])%list)
    /\ (forall s n, subtree_at node s = Some n ->
          s <> [] \/ parent <> None \/ is_leaf n = false ->
          get_item (fst (collect_nodes node p parent st)) (p ++ s)
          = Some (children_ids (p ++ s) n))
    /\ (forall s, subtree_at node s = None ->
          get_item (fst (collect_nodes node p parent st)) (p ++ s) = None)
    /\ (parent = None -> is_leaf node = true ->
        get_item (fst (collect_nodes node p parent st)) p = None).
Proof.
  induction node as [o v l r IHl IHr] using Node_induction.
  intros p parent [G0 nl0] Hfresh Hparent. cbn [fst] in Hfresh, Hparent.
  cbn [collect_nodes fst snd].
  set (nl' := (nl0 ++ [(p, mkNode o v l r)])%list).
  set (G' := match parent with
             | Some pp => add_edge pp p G0
             | None => G0
             end).
  assert (Hp0 : get_item G0 p = None).
  { rewrite <- (app_nil_r p). apply Hfresh. }
  assert (HG'p : get_item G' p
                 = match parent with Some _ => Some [] | None => None end).
  { subst G'. destruct parent as [pp |]; [| exact Hp0].
    destruct (Hparent pp eq_refl) as [Hpp Hnew].
    assert (Hne : pp <> p) by (rewrite <- (app_nil_r p); apply Hpp).
    rewrite get_add_edge by assumption.
    rewrite (ident_eqb_neq _ _ Hne), ident_eqb_refl.
    unfold successors_or_none. rewrite Hp0. reflexivity. }
  assert (HG'pp : forall pp, parent = Some pp ->
             get_item G' pp = Some (successors_or_none G0 pp ++ [p])%list).
  { intros pp ->. subst G'. destruct (Hparent pp eq_refl) as [Hpp Hnew].
    assert (Hne : pp <> p) by (rewrite <- (app_nil_r p); apply Hpp).
    rewrite get_add_edge by assumption. rewrite ident_eqb_refl. reflexivity. }
  assert (HG'o : forall q, q <> p -> parent <> Some q ->
             get_item G' q = get_item G0 q).
  { intros q Hq Hpq. subst G'. destruct parent as [pp |]; [| reflexivity].
    destruct (Hparent pp eq_refl) as [Hpp Hnew].
    assert (Hne : pp <> p) by (rewrite <- (app_nil_r p); apply Hpp).
    rewrite get_add_edge by assumption.
    rewrite ident_eqb_neq by congruence.
    rewrite ident_eqb_neq by congruence. reflexivity. }
  assert (HG'fresh : forall a s, get_item G' (p ++ a :: s) = None).
  { intros a s. rewrite HG'o.
    - apply Hfresh.
    - intros H. apply app_eq_self in H. discriminate.
    - intros H. destruct (Hparent _ H) as [Hpp _]. apply (Hpp (a :: s)).
      reflexivity. }
  clearbody G'.
  (* the left child *)
  set (stL := match l with
              | Some ln =>
                  collect_nodes ln (p ++ [Left])%list (Some p) (G', nl')
              | None => (G', nl')
              end).
  assert (HL :
    (forall q, (forall s, q <> p ++ Left :: s) -> q <> p ->
       get_item (fst stL) q = get_item G' q)
    /\ get_item (fst stL) p
       = match l with
         | Some _ => Some (successors_or_none G' p ++ [p ++ [Left]])%list
         | None => get_item G' p
         end
    /\ (forall ln s n, l = Some ln -> subtree_at ln s = Some n ->
          get_item (fst stL) (p ++ Left :: s)
          = Some (children_ids (p ++ Left :: s) n))
    /\ (forall s, match l with
                  | Some ln => subtree_at ln s = None
                  | None => True
                  end ->
          get_item (fst stL) (p ++ Left :: s) = None)).
  { subst stL. destruct l as [ln |].
    - destruct (IHl ln eq_refl (p ++ [Left])%list (Some p) (G', nl'))
        as (H1 & H2 & H3 & H4 & _).
      + intros s. cbn [fst]. rewrite snoc_app. apply HG'fresh.
      + intros pp Hpp. injection Hpp as <-. cbn [fst]. split.
        * intros s H. rewrite snoc_app in H. symmetry in H.
          apply app_eq_self in H. discriminate.
        * unfold successors_or_none. rewrite HG'p.
          destruct parent; intros [].
      + cbn [fst] in *. repeat split.
        * intros q Hq Hqp. apply H1; [| congruence].
          intros s. rewrite snoc_app. apply Hq.
        * apply H2. reflexivity.
        * intros ln' s n E Hs. injection E as <-.
          rewrite <- (snoc_app p Left s). apply H3; [exact Hs |].
          right. left. discriminate.
        * intros s Hs. rewrite <- (snoc_app p Left s). apply H4. exact Hs.
    - cbn [fst]. repeat split.
      + intros ln' s n E. discriminate.
      + intros s _. apply HG'fresh. }
  destruct HL as (HL1 & HL2 & HL3 & HL4).
  assert (HLfresh : forall s, get_item (fst stL) (p ++ Right :: s) = None).
  { intros s. rewrite HL1.
    - apply HG'fresh.
    - intros s' H. apply app_inv_head in H. discriminate.
    - intros H. apply app_eq_self in H. discriminate. }
  clearbody stL.
  (* the right child *)
  set (stR := match r with
              | Some rn => collect_nodes rn (p ++ [Right])%list (Some p) stL
              | None => stL
              end).
  assert (HR :
    (forall q, (forall s, q <> p ++ Right :: s) -> q <> p ->
       get_item (fst stR) q = get_item (fst stL) q)
    /\ get_item (fst stR) p
       = match r with
         | Some _ =>
             Some (successors_or_none (fst stL) p ++ [p ++ [Right]])%list
         | None => get_item (fst stL) p
         end
    /\ (forall rn s n, r = Some rn -> subtree_at rn s = Some n ->
          get_item (fst stR) (p ++ Right :: s)
          = Some (children_ids (p ++ Right :: s) n))
    /\ (forall s, match r with
                  | Some rn => subtree_at rn s = None
                  | None => True
                  end ->
          get_item (fst stR) (p ++ Right :: s) = None)).
  { subst stR. destruct r as [rn |].
    - destruct (IHr rn eq_refl (p ++ [Right])%list (Some p) stL)
        as (H1 & H2 & H3 & H4 & _).
      + intros s. rewrite snoc_app. apply HLfresh.
      + intros pp Hpp. injection Hpp as <-. split.
        * intros s H. rewrite snoc_app in H. symmetry in H.
          apply app_eq_self in H. discriminate.
        * unfold successors_or_none. rewrite HL2.
          destruct l as [ln |].
          -- unfold successors_or_none. rewrite HG'p.
             destruct parent; simpl; intros [H | []];
               apply app_inv_head in H; discriminate.
          -- rewrite HG'p. destruct parent; intros [].
      + repeat split.
        * intros q Hq Hqp. apply H1; [| congruence].
          intros s. rewrite snoc_app. apply Hq.
        * apply H2. reflexivity.
        * intros rn' s n E Hs. injection E as <-.
          rewrite <- (snoc_app p Right s). apply H3; [exact Hs |].
          right. left. discriminate.
        * intros s Hs. rewrite <- (snoc_app p Right s). apply H4. exact Hs.
    - repeat split.
      + intros rn' s n E. discriminate.
      + intros s _. apply HLfresh. }
  destruct HR as (HR1 & HR2 & HR3 & HR4).
  clearbody stR.
  repeat split.
  - (* elsewhere *)
    intros q Hq Hpq.
    assert (Hqp : q <> p) by (rewrite <- (app_nil_r p); apply Hq).
    rewrite HR1, HL1, HG'o; auto.
  - (* the parent *)
    intros pp Hpp. destruct (Hparent pp Hpp) as [Hunder _].
    assert (Hne : pp <> p) by (rewrite <- (app_nil_r p); apply Hunder).
    rewrite HR1, HL1; auto.
  - (* the nodes of the subtree *)
    intros s n Hs Hcase. destruct s as [| [|] s].
    + cbn [subtree_at] in Hs. injection Hs as <-.
      rewrite app_nil_r. rewrite HR2. unfold children_ids.
      cbn [left right]. unfold successors_or_none. rewrite HL2.
      unfold successors_or_none. rewrite HG'p.
      destruct l as [ln |], r as [rn |], parent as [pp |];
        try reflexivity.
      exfalso. destruct Hcase as [H | [H | H]];
        [apply H; reflexivity | apply H; reflexivity | discriminate].
    + cbn [subtree_at left] in Hs. destruct l as [ln |]; [| discriminate].
      rewrite HR1.
      * eapply HL3; [reflexivity | exact Hs].
      * intros s' H. apply app_inv_head in H. discriminate.
      * intros H. apply app_eq_self in H. discriminate.
    + cbn [subtree_at right] in Hs. destruct r as [rn |]; [| discriminate].
      eapply HR3; [reflexivity | exact Hs].
  - (* no other node below *)
    intros s Hs. destruct s as [| [|] s]; [discriminate | |].
    + cbn [subtree_at left] in Hs. rewrite HR1.
      * apply HL4. destruct l; [exact Hs | exact I].
      * intros s' H. apply app_inv_head in H. discriminate.
      * intros H. apply app_eq_self in H. discriminate.
    + cbn [subtree_at right] in Hs. apply HR4.
      destruct r; [exact Hs | exact I].
  - (* a root without children *)
    intros -> Hleaf. unfold is_leaf in Hleaf. cbn [left right] in Hleaf.
    destruct l; [discriminate |]. destruct r; [discriminate |].
    rewrite HR2, HL2. exact HG'p.
Qed.

Lemma subtree_at_snoc root p n a c :
  subtree_at root p = Some n ->
  match a with Left => left n | Right => right n end = Some c ->
  subtree_at root (p ++ [a]) = Some c.
Proof.
  revert root. induction p as [| b p IH]; intros root Hn Hc.
  - cbn [subtree_at] in Hn. injection Hn as E. subst n.
    cbn [app subtree_at]. rewrite Hc. reflexivity.
  - cbn [app subtree_at] in *.
    destruct (match b with Left => left root | Right => right root end);
      [| discriminate].
    apply IH; assumption.
Qed.

(** The layout of the subtree at [p], in a graph that has the children of
    each node of the tree as its successors. *)
Lemma hierarchy_pos_subtree (G : DiGraph) (root : Node) :
  (forall p n, subtree_at root p = Some n ->
     p <> [] \/ is_leaf n = false ->
     get_item G p = Some (children_ids p n)) ->
  forall n (p : ident) fuel width vert_loc xcenter
         (pos : id_dict (float * float)) (parsed : list ident),
    subtree_at root p = Some n ->
    p <> [] \/ is_leaf n = false ->
    height n < Z.of_nat fuel ->
    (forall s, ~ In (p ++ s) parsed) ->
    exists pos' parsed',
      _hierarchy_pos fuel G p width 1 vert_loc xcenter (pos, parsed)
      = Some (Done (pos', parsed'))
      /\ (forall q, (forall s, q <> p ++ s) ->
            get_item pos' q = get_item pos q)
      /\ (forall q, (forall s, q <> p ++ s) -> In q parsed' -> In q parsed)
      /\ (forall s m, subtree_at n s = Some m ->
            exists x, get_item pos' (p ++ s)
                      = Some (x, level (List.length s) vert_loc))
      /\ get_item pos' p = Some (xcenter, vert_loc).
Proof.
  intros HG.
  induction n as [o v l r IHl IHr] using Node_induction.
  intros p fuel width vert_loc xcenter pos parsed Hat Hcase Hfuel Hparsed.
  destruct fuel as [| fuel].
  { pose proof (height_nonneg (mkNode o v l r)). lia. }
  cbn [_hierarchy_pos].
  assert (Hnew : existsb (ident_eqb p) parsed = false).
  { destruct (existsb _ _) eqn:E; [| reflexivity].
    apply existsb_exists in E. destruct E as (q & Hin & Hq).
    apply ident_eqb_eq in Hq. subst q. exfalso.
    apply (Hparsed []). rewrite app_nil_r. exact Hin. }
  rewrite Hnew. unfold neighbors. rewrite (HG _ _ Hat Hcase).
  (* a visit of a child *)
  assert (Hchild : forall a c,
    match a with Left => l | Right => r end = Some c ->
    forall w x (pos0 : id_dict (float * float)) (parsed0 : list ident),
      (forall s, ~ In (p ++ a :: s) parsed0) ->
      exists pos1 parsed1,
        _hierarchy_pos fuel G (p ++ [a]) w 1 (PrimFloat.sub vert_loc 1) x
          (pos0, parsed0)
        = Some (Done (pos1, parsed1))
        /\ (forall q, (forall s, q <> p ++ a :: s) ->
              get_item pos1 q = get_item pos0 q)
        /\ (forall q, (forall s, q <> p ++ a :: s) ->
              In q parsed1 -> In q parsed0)
        /\ (forall s m, subtree_at c s = Some m ->
              exists x', get_item pos1 (p ++ a :: s)
                         = Some (x', level (List.length (a :: s)) vert_loc))).
  { intros a c Hc w x pos0 parsed0 Hp0.
    assert (Hh : height c < Z.of_nat fuel).
    { cbn [height] in Hfuel. destruct a; subst; lia. }
    assert (Hsub : subtree_at root (p ++ [a]) = Some c).
    { eapply subtree_at_snoc; [exact Hat |]. destruct a; exact Hc. }
    assert (Hne : p ++ [a] <> [] \/ is_leaf c = false).
    { left. destruct p; discriminate. }
    assert (Hp1 : forall s, ~ In ((p ++ [a]) ++ s) parsed0).
    { intros s. rewrite snoc_app. apply Hp0. }
    destruct a.
    - destruct (IHl c Hc (p ++ [Left]) fuel w (PrimFloat.sub vert_loc 1) x
                  pos0 parsed0 Hsub Hne Hh Hp1)
        as (pos1 & parsed1 & Hrun & Ho & Hps & Hsubs & _).
      exists pos1, parsed1. repeat split.
      + exact Hrun.
      + intros q Hq. apply Ho. intros s. rewrite snoc_app. apply Hq.
      + intros q Hq. apply Hps. intros s. rewrite snoc_app. apply Hq.
      + intros s m Hm. destruct (Hsubs s m Hm) as (x' & Hx').
        exists x'. rewrite <- (snoc_app p Left s). exact Hx'.
    - destruct (IHr c Hc (p ++ [Right]) fuel w (PrimFloat.sub vert_loc 1) x
                  pos0 parsed0 Hsub Hne Hh Hp1)
        as (pos1 & parsed1 & Hrun & Ho & Hps & Hsubs & _).
      exists pos1, parsed1. repeat split.
      + exact Hrun.
      + intros q Hq. apply Ho. intros s. rewrite snoc_app. apply Hq.
      + intros q Hq. apply Hps. intros s. rewrite snoc_app. apply Hq.
      + intros s m Hm. destruct (Hsubs s m Hm) as (x' & Hx').
        exists x'. rewrite <- (snoc_app p Right s). exact Hx'. }
  clear IHl IHr.
  assert (Hparsed1 : forall a s, ~ In (p ++ a :: s) (parsed ++ [p])).
  { intros a s Hin. apply in_app_or in Hin. destruct Hin as [Hin | [H | []]].
    - exact (Hparsed _ Hin).
    - symmetry in H. apply app_eq_self in H. discriminate. }
  assert (Hself : forall a s, p <> p ++ a :: s).
  { intros a s H. symmetry in H. apply app_eq_self in H. discriminate. }
  assert (Hkeep : forall q, (forall s, q <> p ++ s) ->
            (q <> p) /\ forall a s, q <> p ++ a :: s).
  { intros q Hq. split; [rewrite <- (app_nil_r p); apply Hq |].
    intros a s. apply Hq. }
  assert (Hback : forall q, q <> p -> In q (parsed ++ [p]) -> In q parsed).
  { intros q Hq Hin. apply in_app_or in Hin.
    destruct Hin as [Hin | [H | []]]; [exact Hin | congruence]. }
  unfold children_ids. cbn [left right].
  destruct l as [ln |], r as [rn |]; cbn [app List.length visit_neighbors].
  - (* two children *)
    match goal with
    | |- context [_hierarchy_pos fuel G (p ++ [Left]) ?w 1 _ ?x (pos, ?ps)] =>
        destruct (Hchild Left ln eq_refl w x pos ps (Hparsed1 Left))
          as (pos1 & parsed1 & -> & Ho1 & Hp1 & Hs1)
    end.
    assert (Hparsed2 : forall s, ~ In (p ++ Right :: s) parsed1).
    { intros s Hin. apply Hp1 in Hin; [exact (Hparsed1 _ _ Hin) |].
      intros s' H. apply app_inv_head in H. discriminate. }
    match goal with
    | |- context [_hierarchy_pos fuel G (p ++ [Right]) ?w 1 _ ?x (pos1, ?ps)] =>
        destruct (Hchild Right rn eq_refl w x pos1 ps Hparsed2)
          as (pos2 & parsed2 & -> & Ho2 & Hp2 & Hs2)
    end.
    eexists. eexists. split; [reflexivity |]. repeat split.
    + intros q Hq. destruct (Hkeep q Hq) as [Hqp Hqs].
      rewrite get_set_other by congruence.
      rewrite Ho2 by (intros s; apply Hqs).
      apply Ho1. intros s; apply Hqs.
    + intros q Hq Hin. destruct (Hkeep q Hq) as [Hqp Hqs].
      apply Hback; [exact Hqp |]. apply Hp1; [intros s; apply Hqs |].
      apply Hp2; [intros s; apply Hqs | exact Hin].
    + intros s m Hm. destruct s as [| [|] s].
      * rewrite app_nil_r, get_set_same. eexists. reflexivity.
      * cbn [subtree_at left] in Hm. destruct (Hs1 s m Hm) as (x' & Hx').
        exists x'. rewrite get_set_other by apply Hself.
        rewrite Ho2; [exact Hx' |].
        intros s' H. apply app_inv_head in H. discriminate.
      * cbn [subtree_at right] in Hm. destruct (Hs2 s m Hm) as (x' & Hx').
        exists x'. rewrite get_set_other by apply Hself. exact Hx'.
    + apply get_set_same.
  - (* a left child only *)
    match goal with
    | |- context [_hierarchy_pos fuel G (p ++ [Left]) ?w 1 _ ?x (pos, ?ps)] =>
        destruct (Hchild Left ln eq_refl w x pos ps (Hparsed1 Left))
          as (pos1 & parsed1 & -> & Ho1 & Hp1 & Hs1)
    end.
    eexists. eexists. split; [reflexivity |]. repeat split.
    + intros q Hq. destruct (Hkeep q Hq) as [Hqp Hqs].
      rewrite get_set_other by congruence.
      apply Ho1. intros s; apply Hqs.
    + intros q Hq Hin. destruct (Hkeep q Hq) as [Hqp Hqs].
      apply Hback; [exact Hqp |]. apply Hp1; [intros s; apply Hqs | exact Hin].
    + intros s m Hm. destruct s as [| [|] s].
      * rewrite app_nil_r, get_set_same. eexists. reflexivity.
      * cbn [subtree_at left] in Hm. destruct (Hs1 s m Hm) as (x' & Hx').
        exists x'. rewrite get_set_other by apply Hself. exact Hx'.
      * discriminate.
    + apply get_set_same.
  - (* a right child only *)
    match goal with
    | |- context [_hierarchy_pos fuel G (p ++ [Right]) ?w 1 _ ?x (pos, ?ps)] =>
        destruct (Hchild Right rn eq_refl w x pos ps (Hparsed1 Right))
          as (pos1 & parsed1 & -> & Ho1 & Hp1 & Hs1)
    end.
    eexists. eexists. split; [reflexivity |]. repeat split.
    + intros q Hq. destruct (Hkeep q Hq) as [Hqp Hqs].
      rewrite get_set_other by congruence.
      apply Ho1. intros s; apply Hqs.
    + intros q Hq Hin. destruct (Hkeep q Hq) as [Hqp Hqs].
      apply Hback; [exact Hqp |]. apply Hp1; [intros s; apply Hqs | exact Hin].
    + intros s m Hm. destruct s as [| [|] s].
      * rewrite app_nil_r, get_set_same. eexists. reflexivity.
      * discriminate.
      * cbn [subtree_at right] in Hm. destruct (Hs1 s m Hm) as (x' & Hx').
        exists x'. rewrite get_set_other by apply Hself. exact Hx'.
    + apply get_set_same.
  - (* a leaf *)
    eexists. eexists. split; [reflexivity |]. repeat split.
    + intros q Hq. destruct (Hkeep q Hq) as [Hqp Hqs].
      apply get_set_other. congruence.
    + intros q Hq Hin. destruct (Hkeep q Hq) as [Hqp Hqs].
      apply Hback; assumption.
    + intros s m Hm. destruct s as [| [|] s]; try discriminate.
      rewrite app_nil_r, get_set_same. eexists. reflexivity.
    + apply get_set_same.
Qed.

Lemma collect_nodes_list :
  forall node (p : ident) (parent : option ident)
         (st : DiGraph * list (ident * Node)),
    snd (collect_nodes node p parent st) = snd st ++ preorder node p.
Proof.
  induction node as [o v l r IHl IHr] using Node_induction.
  intros p parent st. cbn [collect_nodes preorder].
  destruct l as [ln |], r as [rn |];
    rewrite ?(IHr _ eq_refl), ?(IHl _ eq_refl); cbn [snd];
    rewrite <- ?app_assoc, ?app_nil_r; reflexivity.
Qed.

Lemma in_preorder :
  forall node (p q : ident) m,
    In (q, m) (preorder node p) <->
    exists s, q = p ++ s /\ subtree_at node s = Some m.
Proof.
  induction node as [o v l r IHl IHr] using Node_induction.
  intros p q m. cbn [preorder]. split.
  - intros [H | H].
    + injection H as <- <-. exists []. rewrite app_nil_r. split; reflexivity.
    + apply in_app_or in H. destruct H as [H | H].
      * destruct l as [ln |]; [| destruct H].
        apply (IHl _ eq_refl) in H. destruct H as (s & -> & Hs).
        exists (Left :: s). rewrite snoc_app. split; [reflexivity | exact Hs].
      * destruct r as [rn |]; [| destruct H].
        apply (IHr _ eq_refl) in H. destruct H as (s & -> & Hs).
        exists (Right :: s). rewrite snoc_app. split; [reflexivity | exact Hs].
  - intros (s & -> & Hs). destruct s as [| [|] s].
    + left. rewrite app_nil_r. cbn [subtree_at] in Hs. congruence.
    + right. apply in_or_app. left. cbn [subtree_at left] in Hs.
      destruct l as [ln |]; [| discriminate].
      apply (IHl _ eq_refl). exists s. rewrite snoc_app. split; auto.
    + right. apply in_or_app. right. cbn [subtree_at right] in Hs.
      destruct r as [rn |]; [| discriminate].
      apply (IHr _ eq_refl). exists s. rewrite snoc_app. split; auto.
Qed.

(** The dictionary of labels: for each identity, the label of the last node
    listed with it. *)
Lemma get_labels {V} (f : Node -> V) (nl : list (ident * Node)) :
  forall q,
    get_item (fold_left (fun d n => set_item (fst n) (f (snd n)) d) nl []) q
    = match find (fun n => ident_eqb (fst n) q) (rev nl) with
      | Some n => Some (f (snd n))
      | None => None
      end.
Proof.
  induction nl as [| [k n] nl IH] using rev_ind; intros q; [reflexivity |].
  rewrite fold_left_app, rev_app_distr. cbn [fold_left rev app find fst snd].
  destruct (ident_eqb k q) eqn:E.
  - apply ident_eqb_eq in E. subst q. apply get_set_same.
  - rewrite get_set_other
      by (intros ->; rewrite ident_eqb_refl in E; discriminate).
    apply IH.
Qed.

Lemma in_get_item {V} (d : id_dict V) k v :
  In (k, v) d -> exists v', get_item d k = Some v'.
Proof.
  induction d as [| [k' v'] d IH]; intros Hin; [destruct Hin |].
  cbn [get_item]. destruct (ident_eqb k' k) eqn:E; [eauto |].
  destruct Hin as [H | H]; [| auto].
  injection H as -> ->. rewrite ident_eqb_refl in E. discriminate.
Qed.

Section DrawingStatements.

Variable str : float -> string.

Local Abbreviation plot_expression_tree := (plot_expression_tree str).
Local Abbreviation label := (label str).

(** X17: a tree of a single node cannot be drawn.  [collect_nodes] adds
    the edges of the tree to the graph and nothing else, so the graph of a
    root without children is empty, and the layout fails on
    [G.neighbors(root)] with [NetworkXError]. *)
Theorem plot_expression_tree_single_node :
  forall root_node fuel,
    is_leaf root_node = true ->
    plot_expression_tree (S fuel) root_node = Some (Failed NetworkXError).
Proof.
  intros [o v [l |] [r |]] fuel Hleaf; try discriminate. reflexivity.
Qed.

(** X18: a tree whose root has a child is drawn (the recursion of the
    layout nests one call per level).  The graph has exactly the nodes of
    the tree, each with its children as successors, the left one first;
    every node is placed, a node at depth [k] at the height [0 - 1.0 - ...
    - 1.0] ([k] times) and the root at [(0.5, 0)]; and every node is
    labelled, by its symbol if it has one, else by its constant. *)
Theorem plot_expression_tree_draws :
  forall root_node fuel,
    is_leaf root_node = false ->
    height root_node < Z.of_nat fuel ->
    exists d,
      plot_expression_tree fuel root_node = Some (Done d)
      /\ (forall p n, subtree_at root_node p = Some n ->
            get_item (drawn_graph d) p = Some (children_ids p n)
            /\ (exists x, get_item (drawn_pos d) p
                          = Some (x, level (List.length p) 0))
            /\ get_item (drawn_labels d) p = Some (label n))
      /\ (forall p, subtree_at root_node p = None ->
            get_item (drawn_graph d) p = None
            /\ get_item (drawn_labels d) p = None)
      /\ get_item (drawn_pos d) [] = Some (0.5%float, 0%float).
Proof.
  intros root fuel Hleaf Hfuel. unfold plot_expression_tree.
  destruct (collect_nodes root [] None ([], [])) as [G nodes_list] eqn:Hcollect.
  destruct (collect_nodes_graph root [] None ([], [])) as (_ & _ & HG & HGn & _).
  { intros s. reflexivity. }
  { intros pp H. discriminate. }
  pose proof (collect_nodes_list root [] None ([], [])) as Hlist.
  rewrite Hcollect in HG, HGn, Hlist. cbn [fst snd app] in HG, HGn, Hlist.
  assert (HG' : forall p n, subtree_at root p = Some n ->
                  p <> [] \/ is_leaf n = false ->
                  get_item G p = Some (children_ids p n)).
  { intros p n Hn Hcase. apply HG; [exact Hn |]. tauto. }
  destruct (hierarchy_pos_subtree G root HG' root [] fuel 4 0 0.5 [] []
              eq_refl (or_intror Hleaf) Hfuel (fun s H => H))
    as (pos & parsed & Hrun & _ & _ & Hpos & Hroot).
  cbv zeta. unfold hierarchical_layout.
  unfold id_dict in Hrun |- *. rewrite Hrun.
  assert (Hdraw : nx_draw G pos = Done tt).
  { unfold nx_draw.
    replace (forallb _ G) with true; [reflexivity |].
    symmetry. apply forallb_forall. intros [k succ] Hin. cbn [fst].
    destruct (in_get_item _ _ _ Hin) as (s' & Hk).
    destruct (subtree_at root k) as [n |] eqn:Hn.
    - destruct (Hpos k n Hn) as (x & Hx). cbn [app] in Hx. rewrite Hx.
      reflexivity.
    - rewrite (HGn k Hn) in Hk. discriminate. }
  rewrite Hdraw. cbn [and_then].
  set (labels := fold_left _ nodes_list []).
  assert (Hlabels : forall p,
            get_item labels p
            = match subtree_at root p with
              | Some n => Some (label n)
              | None => None
              end).
  { intros p. subst labels. rewrite (get_labels label), Hlist.
    destruct (find _ (rev (preorder root []))) as [[k m] |] eqn:Hfind.
    - apply find_some in Hfind. destruct Hfind as [Hin Hk].
      cbn [fst] in Hk. apply ident_eqb_eq in Hk. subst k.
      apply in_rev, in_preorder in Hin. destruct Hin as (s & -> & Hs).
      cbn [app]. rewrite Hs. reflexivity.
    - destruct (subtree_at root p) as [n |] eqn:Hn; [| reflexivity].
      exfalso.
      assert (Hin : In (p, n) (rev (preorder root []))).
      { apply in_rev. rewrite rev_involutive. apply in_preorder.
        exists p. split; [reflexivity | exact Hn]. }
      apply (find_none _ _ Hfind) in Hin. cbn [fst] in Hin.
      rewrite ident_eqb_refl in Hin. discriminate. }
  assert (Hdrawl : nx_draw_networkx_labels pos labels = Done tt).
  { unfold nx_draw_networkx_labels.
    replace (forallb _ labels) with true; [reflexivity |].
    symmetry. apply forallb_forall. intros [k lab] Hin. cbn [fst].
    destruct (in_get_item _ _ _ Hin) as (s' & Hk). rewrite Hlabels in Hk.
    destruct (subtree_at root k) as [n |] eqn:Hn; [| discriminate].
    destruct (Hpos k n Hn) as (x & Hx). cbn [app] in Hx. rewrite Hx.
    reflexivity. }
  rewrite Hdrawl. cbn [and_then].
  eexists. split; [reflexivity |].
  cbn [drawn_graph drawn_pos drawn_labels]. repeat split.
  - destruct p as [| a p].
    + apply HG'; [exact H |]. right. cbn [subtree_at] in H. congruence.
    + apply HG'; [exact H |]. left. discriminate.
  - exact (Hpos p n H).
  - rewrite Hlabels, H. reflexivity.
  - apply HGn. exact H.
  - rewrite Hlabels, H. reflexivity.
  - exact Hroot.
Qed.

End DrawingStatements.

End DrawingProperties.

(** ** Simplification, then drawing *)

Section SimplifiedThenDrawn.

Variable UNARY_OPS : list string.
Variable BINARY_OPS : list string.
Variable get_var_name : Z -> string.
Variable default_TreeConfig : TreeConfig.t.
Variable default_MutationConfig : MutationConfig.t.
Variable str : float -> string.

Local Abbreviation mutate :=
  (mutate UNARY_OPS BINARY_OPS get_var_name default_TreeConfig
     default_MutationConfig).

(** X19: [mutate] can return a tree that [plot_expression_tree] cannot
    draw: under the Simplify mutation a product with a zero constant child
    becomes the single node [Node(value=0)], on which the drawing raises
    [NetworkXError]. *)
Theorem simplified_product_cannot_be_drawn :
  forall node mutation_prob max_depth n_variables unary_weights binary_weights
         config st st' fuel,
    draws_mutation mutation_prob config SIMPLIFY st st' ->
    op node = Some "*" ->
    child_value_is (left node) 0 || child_value_is (right node) 0 = true ->
    exists t,
      mutate node mutation_prob max_depth n_variables
        unary_weights binary_weights config st = (Ok t, st')
      /\ plot_expression_tree str (S fuel) t = Some (Failed NetworkXError).
Proof.
  intros node mutation_prob max_depth n_variables unary_weights binary_weights
         config st st' fuel Hd Hop Hzero.
  exists (Node_value 0). split; [| reflexivity].
  apply mutate_returns.
  rewrite (mutate_node_simplify _ _ _ _ _ _ _ _ _ _ _ _ _ Hd Hop), Hzero.
  reflexivity.
Qed.

End SimplifiedThenDrawn.

(** ** The plot of the evolution *)

Section EvolutionProperties.

Local Open Scope list_scope.

(** Comparisons of floats that are not NaN form a total preorder. *)
Lemma SFcompare_trans x y z :
  SpecFloat.SFcompare x y = Some Lt \/ SpecFloat.SFcompare x y = Some Eq ->
  SpecFloat.SFcompare y z = Some Lt ->
  SpecFloat.SFcompare x z = Some Lt.
Proof.
  destruct x as [sx | sx | | sx mx ex], y as [sy | sy | | sy my ey],
           z as [sz | sz | | sz mz ez];
    simpl; try (intros [H | H]; discriminate); try discriminate;
    try (destruct sx, sy, sz; simpl; intros [H | H] H';
         first [discriminate | reflexivity]).
  all: destruct sx, sy, sz; intros [H | H] H';
    try discriminate; try reflexivity;
    injection H as H; injection H' as H'; f_equal;
    destruct (Z.compare_spec ex ey), (Z.compare_spec ey ez),
             (Z.compare_spec ex ez); try discriminate; try lia;
    try reflexivity; subst;
    rewrite <- ?Pos.compare_cont_Eq in *;
    fold (Pos.compare mx my) in *; fold (Pos.compare my mz) in *;
    fold (Pos.compare mx mz) in *;
    destruct (Pos.compare_spec mx my), (Pos.compare_spec my mz),
             (Pos.compare_spec mx mz); simpl in *;
    try discriminate; try lia; try reflexivity.
Qed.

Lemma SFcompare_Gt x y :
  SpecFloat.SFcompare x y = Some Gt -> SpecFloat.SFcompare y x = Some Lt.
Proof.
  destruct x as [sx | sx | | sx mx ex], y as [sy | sy | | sy my ey];
    simpl; try discriminate;
    try (destruct sx; try destruct sy; simpl; intros H;
         first [discriminate | reflexivity]).
  destruct sx, sy; intros H; try discriminate; try reflexivity;
    injection H as H; f_equal;
    rewrite (Z.compare_antisym ex ey);
    destruct (Z.compare ex ey) eqn:E; simpl in *; try discriminate;
    try reflexivity;
    rewrite <- ?Pos.compare_cont_Eq in *;
    fold (Pos.compare mx my) in *; fold (Pos.compare my mx) in *;
    rewrite (Pos.compare_antisym mx my);
    destruct (Pos.compare mx my); simpl in *; try discriminate;
    reflexivity.
Qed.

Lemma SFcompare_refl x :
  x <> SpecFloat.S754_nan -> SpecFloat.SFcompare x x = Some Eq.
Proof.
  destruct x as [s | s | | s m e]; simpl; intros H;
    try reflexivity; try congruence.
  - destruct s; reflexivity.
  - rewrite Z.compare_refl. rewrite <- ?Pos.compare_cont_Eq.
    fold (Pos.compare m m). rewrite Pos.compare_refl.
    destruct s; reflexivity.
Qed.

Lemma SFcompare_defined x y :
  x <> SpecFloat.S754_nan -> y <> SpecFloat.S754_nan ->
  exists c, SpecFloat.SFcompare x y = Some c.
Proof.
  destruct x as [sx | sx | | sx mx ex], y as [sy | sy | | sy my ey];
    simpl; intros Hx Hy; try congruence; eauto.
Qed.

Lemma is_nan_false x :
  PrimFloat.is_nan x = false -> Prim2SF x <> SpecFloat.S754_nan.
Proof.
  unfold PrimFloat.is_nan. rewrite FloatAxioms.eqb_spec.
  intros H E. rewrite E in H. discriminate.
Qed.

Lemma leb_compare x y :
  PrimFloat.leb x y = true <->
  SpecFloat.SFcompare (Prim2SF x) (Prim2SF y) = Some Lt
  \/ SpecFloat.SFcompare (Prim2SF x) (Prim2SF y) = Some Eq.
Proof.
  rewrite FloatAxioms.leb_spec. unfold SpecFloat.SFleb.
  destruct (SpecFloat.SFcompare _ _) as [[| |] |]; split;
    intros H; try discriminate; try tauto;
    destruct H; discriminate.
Qed.

Lemma ltb_compare x y :
  PrimFloat.ltb x y = true <->
  SpecFloat.SFcompare (Prim2SF x) (Prim2SF y) = Some Lt.
Proof.
  rewrite FloatAxioms.ltb_spec. unfold SpecFloat.SFltb.
  destruct (SpecFloat.SFcompare _ _) as [[| |] |]; split;
    intros H; try discriminate; reflexivity.
Qed.

(** [x <= x] unless [x] is NaN. *)
Lemma leb_refl x : PrimFloat.is_nan x = false -> PrimFloat.leb x x = true.
Proof.
  intros H. apply leb_compare. right. apply SFcompare_refl, is_nan_false, H.
Qed.

(** An element that is not [<= mp] is above it, NaN apart. *)
Lemma not_leb_ltb x mp :
  PrimFloat.is_nan x = false -> PrimFloat.is_nan mp = false ->
  PrimFloat.leb x mp = false -> PrimFloat.ltb mp x = true.
Proof.
  intros Hx Hm Hle. apply ltb_compare. apply SFcompare_Gt.
  destruct (SFcompare_defined _ _ (is_nan_false _ Hx) (is_nan_false _ Hm))
    as (c & Hc).
  destruct c; [| | exact Hc]; exfalso;
    assert (PrimFloat.leb x mp = true) by (apply leb_compare; auto);
    congruence.
Qed.

Lemma leb_ltb_trans a mp x :
  PrimFloat.leb a mp = true -> PrimFloat.ltb mp x = true ->
  PrimFloat.ltb a x = true.
Proof.
  rewrite leb_compare, !ltb_compare. apply SFcompare_trans.
Qed.

Lemma ltb_leb a x : PrimFloat.ltb a x = true -> PrimFloat.leb a x = true.
Proof. rewrite ltb_compare, leb_compare. auto. Qed.

(** The scan returns the index of the first greatest element, NaN apart. *)
Lemma argmax_scan_first_greatest :
  forall l pre mp max_ind,
    Forall (fun x => PrimFloat.is_nan x = false) (pre ++ l) ->
    nth_error pre max_ind = Some mp ->
    (forall j x, nth_error pre j = Some x -> PrimFloat.leb x mp = true) ->
    (forall j x, (j < max_ind)%nat -> nth_error pre j = Some x ->
                 PrimFloat.ltb x mp = true) ->
    exists m,
      nth_error (pre ++ l) (argmax_scan l (List.length pre) mp max_ind)
      = Some m
      /\ (forall j x, nth_error (pre ++ l) j = Some x ->
                      PrimFloat.leb x m = true)
      /\ (forall j x,
             (j < argmax_scan l (List.length pre) mp max_ind)%nat ->
             nth_error (pre ++ l) j = Some x -> PrimFloat.ltb x m = true).
Proof.
  induction l as [| x l IH]; intros pre mp max_ind Hnan Hmp Hle Hlt.
  - rewrite app_nil_r. cbn [argmax_scan]. exists mp. auto.
  - cbn [argmax_scan].
    assert (Hx : PrimFloat.is_nan x = false).
    { rewrite Forall_forall in Hnan. apply Hnan, in_or_app. right. left.
      reflexivity. }
    assert (Hm : PrimFloat.is_nan mp = false).
    { rewrite Forall_forall in Hnan. apply Hnan, in_or_app. left.
      eapply nth_error_In. exact Hmp. }
    assert (Hbound : (max_ind < List.length pre)%nat).
    { apply nth_error_Some. congruence. }
    replace (pre ++ x :: l) with ((pre ++ [x]) ++ l) in *
      by (rewrite <- app_assoc; reflexivity).
    replace (S (List.length pre)) with (List.length (pre ++ [x]))
      by (rewrite length_app; simpl; lia).
    destruct (PrimFloat.leb x mp) eqn:Hxm; cbn [negb].
    + apply IH.
      * exact Hnan.
      * rewrite nth_error_app1 by exact Hbound. exact Hmp.
      * intros j a Ha.
        destruct (Nat.lt_ge_cases j (List.length pre)) as [Hj | Hj].
        -- rewrite nth_error_app1 in Ha by exact Hj. eapply Hle; exact Ha.
        -- rewrite nth_error_app2 in Ha by exact Hj.
           destruct (j - List.length pre)%nat as [| k]; simpl in Ha.
           ++ injection Ha as <-. exact Hxm.
           ++ destruct k; discriminate.
      * intros j a Hj Ha.
        rewrite nth_error_app1 in Ha by lia. eapply Hlt; eassumption.
    + rewrite Hx.
      pose proof (not_leb_ltb _ _ Hx Hm Hxm) as Hup.
      apply IH.
      * exact Hnan.
      * rewrite nth_error_app2 by lia. rewrite Nat.sub_diag. reflexivity.
      * intros j a Ha.
        destruct (Nat.lt_ge_cases j (List.length pre)) as [Hj | Hj].
        -- rewrite nth_error_app1 in Ha by exact Hj.
           apply ltb_leb. eapply leb_ltb_trans; [| exact Hup].
           eapply Hle; exact Ha.
        -- rewrite nth_error_app2 in Ha by exact Hj.
           destruct (j - List.length pre)%nat as [| k]; simpl in Ha.
           ++ injection Ha as <-. apply leb_refl. exact Hx.
           ++ destruct k; discriminate.
      * intros j a Hj Ha.
        rewrite nth_error_app1 in Ha by exact Hj.
        eapply leb_ltb_trans; [| exact Hup]. eapply Hle; exact Ha.
Qed.

(** X20: on an empty history [plot_evolution_metrics] raises [ValueError]
    (from [max] of an empty list) and draws nothing.  On a history with no
    NaN among the best fitnesses it returns, having drawn the three curves
    and a vertical line at the generation of the first entry whose best
    fitness is the greatest: no entry has a greater one, and every earlier
    entry has a smaller one. *)
Theorem plot_evolution_metrics_marks_first_best :
  forall metrics_history ax,
    Forall (fun m => PrimFloat.is_nan (best_fitness m) = false)
           metrics_history ->
    (metrics_history = [] ->
     plot_evolution_metrics metrics_history ax = Failed (Builtin ValueError))
    /\ (metrics_history <> [] ->
        exists i m,
          nth_error metrics_history i = Some m
          /\ (forall m', In m' metrics_history ->
                PrimFloat.leb (best_fitness m') (best_fitness m) = true)
          /\ (forall j m', (j < i)%nat ->
                nth_error metrics_history j = Some m' ->
                PrimFloat.ltb (best_fitness m') (best_fitness m) = true)
          /\ plot_evolution_metrics metrics_history ax
             = Done (ax ++ [ax_plot (map generation metrics_history)
                              (map best_fitness metrics_history) "g-" "Best";
                            ax_plot (map generation metrics_history)
                              (map avg_fitness metrics_history) "b-" "Average";
                            ax_plot (map generation metrics_history)
                              (map worst_fitness metrics_history) "r-" "Worst";
                            ax_axvline (generation m);
                            ax_set_xlabel "Generation";
                            ax_set_ylabel "Fitness (1 / (1 + MSE))";
                            ax_set_title "Fitness Evolution";
                            ax_legend;
                            ax_grid true])).
Proof.
  intros mh ax Hnan. split; [intros ->; reflexivity |].
  intros Hne. destruct mh as [| m0 mh]; [congruence |]. clear Hne.
  assert (Hnan' : Forall (fun x => PrimFloat.is_nan x = false)
                    ([best_fitness m0] ++ map best_fitness mh)).
  { apply Forall_forall. intros x Hin. change ([best_fitness m0] ++ map best_fitness mh)
      with (map best_fitness (m0 :: mh)) in Hin.
    apply in_map_iff in Hin. destruct Hin as (m & <- & Hin).
    rewrite Forall_forall in Hnan. apply Hnan. exact Hin. }
  destruct (argmax_scan_first_greatest (map best_fitness mh)
              [best_fitness m0] (best_fitness m0) 0 Hnan' eq_refl)
    as (b & Hb & Hle & Hlt).
  { intros j x Hx. destruct j as [| [| j]]; try discriminate.
    injection Hx as <-. apply leb_refl.
    inversion Hnan; assumption. }
  { intros j x Hj. lia. }
  cbn [List.length] in Hb, Hlt.
  set (i := argmax_scan (map best_fitness mh) 1 (best_fitness m0) 0) in *.
  change ([best_fitness m0] ++ map best_fitness mh)
    with (map best_fitness (m0 :: mh)) in Hb, Hle, Hlt.
  rewrite nth_error_map in Hb.
  destruct (nth_error (m0 :: mh) i) as [m |] eqn:Hm; [| discriminate].
  injection Hb as <-.
  exists i, m. split; [exact Hm |]. split; [| split].
  - intros m' Hin. apply In_nth_error in Hin. destruct Hin as (j & Hj).
    apply (Hle j). rewrite nth_error_map, Hj. reflexivity.
  - intros j m' Hj Hm'. apply (Hlt j); [exact Hj |].
    rewrite nth_error_map, Hm'. reflexivity.
  - unfold plot_evolution_metrics. cbn [map py_max and_then np_argmax].
    replace (PrimFloat.is_nan (best_fitness m0)) with false
      by (symmetry; inversion Hnan; assumption).
    fold i. unfold list_item.
    change (generation m0 :: map generation mh)
      with (map generation (m0 :: mh)).
    rewrite nth_error_map, Hm. reflexivity.
Qed.

End EvolutionProperties.

(** ** The zero a sum starts from *)

Lemma add_zeros_same_or_zeros v :
  same_or_zeros (PrimFloat.add 0 v) (PrimFloat.add neg_zero v).
Proof.
  unfold same_or_zeros.
  destruct (Prim2SF v) as [s | s | | s m e] eqn:E.
  - destruct s.
    + right. split; apply Prim2SF_inj; rewrite FloatAxioms.add_spec, E;
        reflexivity.
    + left. apply Prim2SF_inj. rewrite !FloatAxioms.add_spec, E. reflexivity.
  - left. apply Prim2SF_inj. rewrite !FloatAxioms.add_spec, E. reflexivity.
  - left. apply Prim2SF_inj. rewrite !FloatAxioms.add_spec, E. reflexivity.
  - left. apply Prim2SF_inj. rewrite !FloatAxioms.add_spec, E. reflexivity.
Qed.

Lemma add_same_or_zeros p q v :
  same_or_zeros p q -> same_or_zeros (PrimFloat.add p v) (PrimFloat.add q v).
Proof.
  intros [-> | [-> ->]]; [left; reflexivity | apply add_zeros_same_or_zeros].
Qed.

Lemma accumulate_same_or_zeros a : forall p q,
  same_or_zeros p q -> same_or_zeros (accumulate p a) (accumulate q a).
Proof.
  induction a as [| v a IH]; intros p q H; [exact H |].
  cbn [accumulate fold_left]. apply IH, add_same_or_zeros, H.
Qed.

Lemma start_same_or_zeros p q :
  same_or_zeros p q ->
  same_or_zeros (PrimFloat.add 0 p) (PrimFloat.add neg_zero q).
Proof.
  intros [-> | [-> ->]]; [apply add_zeros_same_or_zeros |].
  right. split; reflexivity.
Qed.

Lemma np_sum_same_or_zeros a : same_or_zeros (np_sum_from_zero a) (np_sum a).
Proof.
  destruct a as [| v a]; [left; reflexivity |].
  cbn [np_sum_from_zero np_sum]. apply start_same_or_zeros.
  destruct (Nat.ltb (List.length (v :: a)) 8) eqn:E; [| left; reflexivity].
  rewrite pairwise_sum_small by (apply Nat.ltb_lt; exact E).
  apply accumulate_same_or_zeros. right. split; reflexivity.
Qed.

(** On entries that are not negative the two sums are equal. *)
Lemma nonneg_same_or_zeros p q :
  same_or_zeros p q -> nonneg q -> p = q.
Proof.
  intros [H | [_ ->]] Hq; [exact H |]. discriminate Hq.
Qed.

Lemma np_sum_from_zero_nonneg a :
  Forall nonneg a -> np_sum_from_zero a = np_sum a.
Proof.
  intros Ha. apply nonneg_same_or_zeros;
    [apply np_sum_same_or_zeros | apply np_sum_nonneg, Ha].
Qed.

Lemma div_same_or_zeros p q d :
  same_or_zeros p q -> nonneg d ->
  same_or_zeros (PrimFloat.div p d) (PrimFloat.div q d).
Proof.
  intros [-> | [-> ->]] Hd; [left; reflexivity |].
  unfold same_or_zeros, nonneg in *.
  destruct (Prim2SF d) as [s | s | | s m e] eqn:E; simpl in Hd; subst.
  - left. apply Prim2SF_inj. rewrite !FloatAxioms.div_spec, E. reflexivity.
  - right. split; apply Prim2SF_inj; rewrite FloatAxioms.div_spec, E;
      reflexivity.
  - left. apply Prim2SF_inj. rewrite !FloatAxioms.div_spec, E. reflexivity.
  - right. split; apply Prim2SF_inj; rewrite FloatAxioms.div_spec, E;
      reflexivity.
Qed.

(** The square of a deviation does not depend on the sign of a zero mean. *)
Lemma square_deviation_same_or_zeros p q v :
  same_or_zeros p q ->
  PrimFloat.mul (PrimFloat.sub v p) (PrimFloat.sub v p)
  = PrimFloat.mul (PrimFloat.sub v q) (PrimFloat.sub v q).
Proof.
  intros [-> | [-> ->]]; [reflexivity |].
  apply Prim2SF_inj.
  rewrite !FloatAxioms.mul_spec, !FloatAxioms.sub_spec.
  replace (Prim2SF 0) with (SpecFloat.S754_zero false) by reflexivity.
  replace (Prim2SF neg_zero) with (SpecFloat.S754_zero true) by reflexivity.
  destruct (Prim2SF v) as [s | s | | s m e]; try reflexivity.
  destruct s; reflexivity.
Qed.

(** The metrics do not depend on the zero the sums start from: the mean of
    the squared residuals, their sum and the denominator of r2 are the same
    when every sum is started from [+0.0]. *)
Lemma metrics_start_independent (residual y : ndarray) :
  PrimFloat.div (np_sum_from_zero (np_square residual))
                (float_of_nat (List.length (np_square residual)))
  = np_mean (np_square residual)
  /\ np_sum_from_zero (np_square residual) = np_sum (np_square residual)
  /\ np_sum_from_zero
       (np_square
          (np_sub_scalar y
             (PrimFloat.div (np_sum_from_zero y)
                            (float_of_nat (List.length y)))))
     = total_sum_of_squares y.
Proof.
  pose proof np_square_nonneg as Hsq.
  split; [| split].
  - unfold np_mean. rewrite np_sum_from_zero_nonneg by apply Hsq. reflexivity.
  - apply np_sum_from_zero_nonneg, Hsq.
  - rewrite np_sum_from_zero_nonneg by apply Hsq. unfold total_sum_of_squares. f_equal.
    unfold np_square, np_sub_scalar, np_mean. rewrite !map_map.
    apply map_ext. intros v. apply square_deviation_same_or_zeros.
    apply div_same_or_zeros;
      [apply np_sum_same_or_zeros | apply float_of_nat_nonneg].
Qed.

(** ** The plot of the predictions *)

Section PredictionPlotProperties.

Variable matrix : Type.
Variable evaluate : Node -> matrix -> ndarray.
Variable np_min_value : ndarray -> float.
Variable np_max_value : ndarray -> float.
Variable metrics_text : float -> float -> string.

Local Abbreviation plot_prediction_analysis :=
  (plot_prediction_analysis matrix evaluate np_min_value np_max_value
     metrics_text).
Local Abbreviation evaluate_and_score :=
  (evaluate_and_score matrix evaluate np_min_value np_max_value metrics_text).

Lemma score_raises y_pred y e : score y_pred y = Raises e -> e = ValueError.
Proof.
  unfold score, np_sub.
  destruct (Nat.eqb _ _); [discriminate |].
  destruct y as [| a [| b y]], y_pred as [| c [| d y_pred]];
    try discriminate; intros H; injection H as <-; reflexivity.
Qed.

(** X21: [plot_prediction_analysis] returns only for non-empty targets
    with one prediction each.  On empty targets, and on predictions whose
    number differs from that of the targets (even when broadcasting lets
    the metrics be computed), it raises [ValueError]; otherwise it returns
    the pair of the metrics, [score], and has made its eight calls on the
    axes. *)
Theorem plot_prediction_analysis_outcome :
  forall expression x y ax,
    (y = [] \/ List.length (evaluate expression x) <> List.length y ->
     plot_prediction_analysis expression x y ax
     = Failed (Builtin ValueError))
    /\ (y <> [] -> List.length (evaluate expression x) = List.length y ->
        exists mse r2,
          score (evaluate expression x) y = Returns (mse, r2)
          /\ plot_prediction_analysis expression x y ax
             = Done ((mse, r2),
                     (ax ++ [ax_scatter y (evaluate expression x)
                               "Predictions";
                             ax_plot_line
                               [np_min_value
                                  [np_min_value y;
                                   np_min_value (evaluate expression x)];
                                np_max_value
                                  [np_max_value y;
                                   np_max_value (evaluate expression x)]]
                               [np_min_value
                                  [np_min_value y;
                                   np_min_value (evaluate expression x)];
                                np_max_value
                                  [np_max_value y;
                                   np_max_value (evaluate expression x)]]
                               "r--" "Perfect Prediction";
                             ax_set_xlabel "True Values";
                             ax_set_ylabel "Predicted Values";
                             ax_set_title "Predicted vs True Values";
                             ax_grid true;
                             ax_legend;
                             ax_text 0x1.0333333333333p+2 1.5
                               (metrics_text mse r2)])%list)).
Proof.
  intros expression x y ax. unfold plot_prediction_analysis.
  set (y_pred := evaluate expression x). split.
  - intros Hbad.
    destruct (score y_pred y) as [[mse r2] | e] eqn:Hscore.
    + unfold scatter.
      destruct (Nat.eqb_spec (List.length y) (List.length y_pred))
        as [Hlen | Hlen]; [| reflexivity].
      destruct Hbad as [-> | Hne]; [| congruence].
      reflexivity.
    + apply score_raises in Hscore. subst e. reflexivity.
  - intros Hy Hlen. fold y_pred.
    unfold score. rewrite np_sub_same_length by (symmetry; exact Hlen).
    eexists. eexists. split; [reflexivity |].
    unfold scatter. rewrite <- Hlen, Nat.eqb_refl. cbn [and_then].
    destruct y as [| a y]; [congruence |].
    destruct y_pred as [| b y_pred]; [discriminate |].
    cbn [np_min np_max and_then]. rewrite <- app_assoc. reflexivity.
Qed.

(** What the function returns for non-empty targets with one prediction
    each. *)
Lemma evaluate_and_score_returns expression x y ax :
  y <> [] ->
  List.length (evaluate expression x) = List.length y ->
  evaluate_and_score expression x y ax
  = Done (spec_mse (evaluate expression x) y,
          spec_r2 (evaluate expression x) y).
Proof.
  intros Hy Hlen. unfold evaluate_and_score, plot_prediction_analysis.
  set (y_pred := evaluate expression x) in *.
  unfold score. rewrite np_sub_same_length by (symmetry; exact Hlen).
  unfold scatter. rewrite <- Hlen, Nat.eqb_refl. cbn [and_then].
  destruct y as [| a y]; [congruence |].
  destruct y_pred as [| b y_pred]; [discriminate |].
  cbn [np_min np_max and_then fst]. unfold spec_mse, spec_r2, np_mean.
  rewrite length_np_square, length_zip_sub by (symmetry; exact Hlen).
  reflexivity.
Qed.

Lemma evaluate_and_score_empty expression x ax :
  evaluate_and_score expression x [] ax = Failed (Builtin ValueError).
Proof.
  unfold evaluate_and_score, plot_prediction_analysis.
  destruct (score (evaluate expression x) []) as [[mse r2] | e] eqn:Hscore.
  - unfold scatter.
    destruct (evaluate expression x) as [| b y_pred]; reflexivity.
  - apply score_raises in Hscore. subst e. reflexivity.
Qed.

(** C5, as the code has it.  On non-empty targets with one prediction each
    (equal targets included) the call raises nothing, and a zero
    denominator is not special-cased: whenever [sum((y - mean(y))^2)]
    computes to zero, r2 is what the division by zero gives, NaN when the
    residual sum of squares is zero or NaN, minus infinity otherwise.  The
    denominator does compute to zero on equal finite targets whose mean is
    computed exactly.  On empty targets the call raises [ValueError]. *)
Theorem evaluate_and_score_zero_denominator :
  forall expression x y ax,
    (y = [] ->
     evaluate_and_score expression x y ax = Failed (Builtin ValueError))
    /\ (y <> [] ->
        List.length (evaluate expression x) = List.length y ->
        exists mse r2,
          evaluate_and_score expression x y ax = Done (mse, r2)
          /\ (PrimFloat.eqb (total_sum_of_squares y) 0 = true ->
              r2 = if PrimFloat.eqb
                        (residual_sum_of_squares (evaluate expression x) y) 0
                      || PrimFloat.is_nan
                           (residual_sum_of_squares (evaluate expression x) y)
                   then nan else neg_infinity)
          /\ (forall c,
                 y = repeat c (List.length y) ->
                 PrimFloat.is_finite c = true ->
                 np_mean y = c ->
                 PrimFloat.eqb (total_sum_of_squares y) 0 = true)).
Proof.
  intros expression x y ax. split.
  - intros ->. apply evaluate_and_score_empty.
  - intros Hy Hlen. eexists. eexists.
    split; [apply evaluate_and_score_returns; assumption |]. split.
    + intros Hzero. unfold spec_r2.
      fold (residual_sum_of_squares (evaluate expression x) y).
      fold (total_sum_of_squares y).
      apply one_minus_div_zero.
      * apply residual_sum_of_squares_nonneg.
      * apply nonneg_zero; [apply total_sum_of_squares_nonneg | exact Hzero].
    + intros c Hrep Hc Hmean. rewrite Hrep in Hmean |- *.
      rewrite (constant_targets_zero_denominator c _ Hc Hmean). reflexivity.
Qed.

(** C6, with the inputs it holds for.  On non-empty targets with one
    prediction each the pair returned is [(mse, r2)] as the formulas give
    them, the sums being numpy's.  On a perfect fit of finite targets
    (fewer than [2^53]) mse is [0.0]; r2 is [1.0] when the denominator
    [sum((y - mean(y))^2)] computes to a positive number, and NaN when it
    computes to zero. *)
Theorem evaluate_and_score_formulas :
  forall expression x y ax,
    y <> [] ->
    List.length (evaluate expression x) = List.length y ->
    evaluate_and_score expression x y ax
    = Done (spec_mse (evaluate expression x) y,
            spec_r2 (evaluate expression x) y)
    /\ (evaluate expression x = y ->
        Z.of_nat (List.length y) < 2 ^ 53 ->
        Forall (fun v => PrimFloat.is_finite v = true) y ->
        exists r2,
          evaluate_and_score expression x y ax = Done (0%float, r2)
          /\ (PrimFloat.ltb 0 (total_sum_of_squares y) = true ->
              r2 = 1%float)
          /\ (PrimFloat.eqb (total_sum_of_squares y) 0 = true ->
              r2 = nan)).
Proof.
  intros expression x y ax Hy Hlen.
  pose proof (evaluate_and_score_returns expression x y ax Hy Hlen) as Hscore.
  split; [exact Hscore |].
  intros Hfit Hsmall Hfin. rewrite Hscore, Hfit.
  pose proof (np_sum_zero _ (np_square_zero _ (zip_sub_diag y Hfin)))
    as Hrss.
  assert (Hmse : spec_mse y y = 0%float).
  { unfold spec_mse. rewrite Hrss.
    apply zero_div_positive. left.
    apply float_of_nat_positive; [| exact Hsmall].
    destruct y; [congruence | simpl; lia]. }
  rewrite Hmse. exists (spec_r2 y y). split; [reflexivity |].
  unfold spec_r2. fold (total_sum_of_squares y). rewrite Hrss. split.
  - intros Hpos.
    rewrite (zero_div_positive _ (ltb_zero_positive _ Hpos)). reflexivity.
  - intros Hzero. rewrite one_minus_div_zero; [reflexivity | reflexivity |].
    apply nonneg_zero; [apply total_sum_of_squares_nonneg | exact Hzero].
Qed.

End PredictionPlotProperties.


(** * The statements on the concrete instance *)

Lemma ex_variables_are_not_operators :
  forall i, mem (ex_get_var_name i) ex_UNARY_OPS = false
            /\ mem (ex_get_var_name i) ex_BINARY_OPS = false.
Proof. intros i. split; reflexivity. Qed.

Lemma ex_unary_weights_not_binary :
  forall o, In o (keys ex_unary_weights) -> mem o ex_BINARY_OPS = false.
Proof. intros o [<- | [<- | []]]; reflexivity. Qed.

Lemma ex_binary_weights_not_unary :
  forall o, In o (keys ex_binary_weights) -> mem o ex_UNARY_OPS = false.
Proof. intros o [<- | [<- | []]]; reflexivity. Qed.

(** The draws that select each mutation type under [ex_MutationConfig]. *)
Lemma ex_draws (i : nat) (mt : MutationType) (rest : list draw) :
  nth_error [SUBTREE; OPERATOR; SIMPLIFY] i = Some mt ->
  draws_mutation 1 ex_MutationConfig mt
    (on_tape (DUnit 0.25 :: DPick i :: rest))
    (mkRng rest [Crandom; Cchoices 3]).
Proof.
  intros Hi. exists 0.25%float, (mkRng (DPick i :: rest) [Crandom]).
  split; [reflexivity |]. split; [reflexivity |].
  destruct i as [| [| [| i]]]; simpl in Hi; try injection Hi as <-;
    try reflexivity.
  destruct i; discriminate.
Qed.

(** The Operator branch on the variable leaf [x0]. *)
Lemma operator_mutation_unregistered_noop_witness :
  ex_mutate_node leaf_x0 1 2 2 ex_unary_weights ex_binary_weights ex_MutationConfig
    (on_tape [DUnit 0.25; DPick 1])
  = (Ok (Fallthrough leaf_x0), spent [Crandom; Cchoices 3]).
Proof.
  apply operator_mutation_unregistered_noop.
  - reflexivity.
  - reflexivity.
  - apply (ex_draws 1 OPERATOR []). reflexivity.
Defined.

(** [0 * x0] becomes [0]; [x0 * 1] becomes [x0]. *)
Lemma simplify_multiplication_identities_witness :
  ex_mutate (binary "*" (Node_value 0) leaf_x0) 1 2 2
    ex_unary_weights ex_binary_weights ex_MutationConfig
    (on_tape [DUnit 0.25; DPick 2])
  = (Ok (Node_value 0), spent [Crandom; Cchoices 3])
  /\ exists t,
      ex_mutate (binary "*" leaf_x0 (Node_value 1)) 1 2 2
        ex_unary_weights ex_binary_weights ex_MutationConfig
        (on_tape [DUnit 0.25; DPick 2])
      = (Ok t, spent [Crandom; Cchoices 3])
      /\ Node_eqb t (copy leaf_x0) = true.
Proof.
  split.
  - apply (proj1 (simplify_multiplication_identities
                    ex_UNARY_OPS ex_BINARY_OPS ex_get_var_name ex_TreeConfig
                    ex_MutationConfig (binary "*" (Node_value 0) leaf_x0) 1 2 2
                    ex_unary_weights ex_binary_weights ex_MutationConfig
                    _ _ (ex_draws 2 SIMPLIFY [] eq_refl) eq_refl)).
    reflexivity.
  - apply (proj2 (simplify_multiplication_identities
                    ex_UNARY_OPS ex_BINARY_OPS ex_get_var_name ex_TreeConfig
                    ex_MutationConfig (binary "*" leaf_x0 (Node_value 1)) 1 2 2
                    ex_unary_weights ex_binary_weights ex_MutationConfig
                    _ _ (ex_draws 2 SIMPLIFY [] eq_refl) eq_refl)
             leaf_x0 (Node_value 1));
      reflexivity.
Defined.

(** [x0 * 0] becomes [0]; [1 * x0] becomes [x0]; a multiplication node with
    the constant 1 as its only child is returned as it is. *)
Lemma simplify_mirrored_identities_witness :
  ex_mutate (binary "*" leaf_x0 (Node_value 0)) 1 2 2
    ex_unary_weights ex_binary_weights ex_MutationConfig
    (on_tape [DUnit 0.25; DPick 2])
  = (Ok (Node_value 0), spent [Crandom; Cchoices 3])
  /\ (exists t,
         ex_mutate (binary "*" (Node_value 1) leaf_x0) 1 2 2
           ex_unary_weights ex_binary_weights ex_MutationConfig
           (on_tape [DUnit 0.25; DPick 2])
         = (Ok t, spent [Crandom; Cchoices 3])
         /\ Node_eqb t (copy leaf_x0) = true)
  /\ ex_mutate (unary "*" (Node_value 1)) 1 2 2
       ex_unary_weights ex_binary_weights ex_MutationConfig
       (on_tape [DUnit 0.25; DPick 2])
     = (Ok (unary "*" (Node_value 1)), spent [Crandom; Cchoices 3])
  /\ ex_mutate (mkNode (Some "*") None None (Some (Node_value 1))) 1 2 2
       ex_unary_weights ex_binary_weights ex_MutationConfig
       (on_tape [DUnit 0.25; DPick 2])
     = (Ok (mkNode (Some "*") None None (Some (Node_value 1))),
        spent [Crandom; Cchoices 3]).
Proof.
  pose (thm := fun node =>
          simplify_mirrored_identities
            ex_UNARY_OPS ex_BINARY_OPS ex_get_var_name ex_TreeConfig
            ex_MutationConfig node 1 2 2
            ex_unary_weights ex_binary_weights ex_MutationConfig
            _ _ (ex_draws 2 SIMPLIFY [] eq_refl)).
  split; [| split; [| split]].
  - apply (proj1 (thm (binary "*" leaf_x0 (Node_value 0)) eq_refl)). reflexivity.
  - apply (proj1 (proj2 (thm (binary "*" (Node_value 1) leaf_x0) eq_refl))
             (Node_value 1) leaf_x0); reflexivity.
  - apply (proj1 (proj2 (proj2 (thm (unary "*" (Node_value 1)) eq_refl))));
      reflexivity.
  - apply (proj2 (proj2 (proj2
             (thm (mkNode (Some "*") None None (Some (Node_value 1)))
                  eq_refl))));
      reflexivity.
Defined.

Lemma ex_root_run :
  ex_create_random_tree 0 2 2 (Some ex_unary_weights) (Some ex_binary_weights)
    ex_TreeConfig (on_tape ex_root_tape)
  = (Ok ex_root_tree, spent ex_root_log).
Proof. reflexivity. Qed.

Lemma ex_inner_run :
  ex_create_random_tree 1 2 2 (Some ex_unary_weights) (Some ex_binary_weights)
    ex_TreeConfig (on_tape ex_inner_tape)
  = (Ok (binary "*" leaf_x1 leaf_x2), spent ex_inner_log).
Proof. reflexivity. Qed.

Lemma create_random_tree_valid_and_bounded_witness :
  arity_ok ex_UNARY_OPS ex_BINARY_OPS ex_root_tree = true
  /\ 0 + height ex_root_tree <= 2.
Proof.
  apply (create_random_tree_valid_and_bounded
           ex_UNARY_OPS ex_BINARY_OPS ex_get_var_name ex_TreeConfig
           0 2 2 (Some ex_unary_weights) (Some ex_binary_weights)
           ex_TreeConfig (on_tape ex_root_tape) ex_root_tree (spent ex_root_log)).
  - lia.
  - lia.
  - exact ex_unary_weights_not_binary.
  - exact ex_binary_weights_not_unary.
  - exact ex_variables_are_not_operators.
  - exact ex_root_run.
Defined.

(** C3 as stated fails: the root-level call under [max_depth = 0] returns
    the tree [x0 + x1], whose leaves lie at depth 1. *)
Lemma create_random_tree_exceeds_max_depth :
  ex_create_random_tree 0 0 1 None None ex_TreeConfig
    (on_tape [DPick 0; DInt 0; DUnit 0.25; DUnit 0.25; DInt 1])
  = (Ok (binary "+" leaf_x0 leaf_x1),
     spent [Cchoices 4; Crandint 0 1; Crandom; Crandom; Crandint 1 1])
  /\ ~ (0 + height (binary "+" leaf_x0 leaf_x1) <= 0).
Proof. split; [reflexivity | simpl; lia]. Qed.

Lemma root_tree_has_variable_witness :
  (exists o idx sub,
      In o (keys ex_binary_weights)
      /\ 0 <= idx <= 2
      /\ generated ex_get_var_name 2 2 ex_unary_weights ex_binary_weights 1 sub
      /\ (ex_root_tree
          = mkNode (Some o) None
              (Some (Node_op (ex_get_var_name idx))) (Some sub)
          \/ ex_root_tree
             = mkNode (Some o) None
                 (Some sub) (Some (Node_op (ex_get_var_name idx)))))
  /\ has_variable_leaf ex_get_var_name ex_root_tree.
Proof.
  apply (root_tree_has_variable
           ex_UNARY_OPS ex_BINARY_OPS ex_get_var_name ex_TreeConfig
           2 2 (Some ex_unary_weights) (Some ex_binary_weights)
           ex_TreeConfig (on_tape ex_root_tape) ex_root_tree (spent ex_root_log)
           ex_root_run).
Defined.

Lemma variable_index_ranges_witness :
  (exists o idx sub i rest log,
      0 <= idx <= 2
      /\ (ex_root_tree
          = mkNode (Some o) None
              (Some (Node_op (ex_get_var_name idx))) (Some sub)
          \/ ex_root_tree
             = mkNode (Some o) None
                 (Some sub) (Some (Node_op (ex_get_var_name idx))))
      /\ leaf_indices_within ex_get_var_name 1 2 sub
      /\ ex_root_tape = DPick i :: DInt idx :: rest
      /\ ex_root_log
         = ([] ++ Cchoices 2 :: Crandint 0 2 :: Crandom :: log)%list
      /\ Forall (randint_bounds_are 1 2) log)
  /\ (exists i, 1 <= i <= 2 /\ "x2" = ex_get_var_name i)
  /\ leaf_indices_within ex_get_var_name 1 2 (binary "*" leaf_x1 leaf_x2)
  /\ exists log,
      ex_inner_log = ([] ++ log)%list /\ Forall (randint_bounds_are 1 2) log.
Proof.
  split; [| split].
  - apply (proj1 (variable_index_ranges
                    ex_UNARY_OPS ex_BINARY_OPS ex_get_var_name ex_TreeConfig
                    0 2 2 (Some ex_unary_weights) (Some ex_binary_weights)
                    ex_TreeConfig (on_tape ex_root_tape) ex_root_tree
                    (spent ex_root_log) ex_root_run) eq_refl).
  - apply (proj1 (proj2 (variable_index_ranges
                    ex_UNARY_OPS ex_BINARY_OPS ex_get_var_name ex_TreeConfig
                    2 2 2 (Some ex_unary_weights) (Some ex_binary_weights)
                    ex_TreeConfig (on_tape [DUnit 0.25; DInt 2]) leaf_x2
                    (spent [Crandom; Crandint 1 2]) eq_refl)));
      [lia | reflexivity | reflexivity | reflexivity].
  - apply (proj2 (proj2 (variable_index_ranges
                    ex_UNARY_OPS ex_BINARY_OPS ex_get_var_name ex_TreeConfig
                    1 2 2 (Some ex_unary_weights) (Some ex_binary_weights)
                    ex_TreeConfig (on_tape ex_inner_tape)
                    (binary "*" leaf_x1 leaf_x2)
                    (spent ex_inner_log) ex_inner_run))).
    lia.
Defined.

(** The root-level call can name its forced leaf [x0]: the index 0 is taken
    from the range of the root, and is refused at the floor. *)
Lemma ex_index_zero_at_root_only :
  fst (ex_create_random_tree 0 2 2 None None ex_TreeConfig
         (on_tape [DPick 0; DInt 0; DUnit 0.25; DUnit 0.75; DUnit 0.25; DInt 1]))
  = Ok (binary "+" leaf_x0 leaf_x1)
  /\ fst (ex_create_random_tree 2 2 2 None None ex_TreeConfig
            (on_tape [DUnit 0.25; DInt 0]))
     = Stuck.
Proof. split; reflexivity. Qed.

(** C2 as stated fails: the input tree has no node deeper than
    [max_depth = 2]; after the replacement of a node at depth 2 the tree has
    a node at depth 3. *)
Lemma subtree_mutation_exceeds_max_depth :
  height (binary "+" (binary "+" leaf_x0 leaf_x1) leaf_x1) = 2
  /\ ex_mutate (binary "+" (binary "+" leaf_x0 leaf_x1) leaf_x1) 0.5 2 2
       ex_unary_weights ex_binary_weights ex_MutationConfig
       (on_tape ex_mutation_tape)
     = (Ok (binary "+" (binary "+" (unary "sin" leaf_x1) leaf_x1) leaf_x1),
        spent ex_mutation_log)
  /\ ~ (height (binary "+" (binary "+" (unary "sin" leaf_x1) leaf_x1) leaf_x1) <= 2).
Proof. split; [reflexivity | split; [reflexivity | simpl; lia]]. Qed.

Lemma subtree_mutation_depth_witness :
  exists s st2,
    random_randint 1 3 (mkRng [DInt 1; DUnit 0.25; DUnit 0.25; DPick 0;
                               DUnit 0.25; DInt 1] [Crandom; Cchoices 3])
    = (Ok s, st2)
    /\ 1 <= s <= 3
    /\ ex_create_random_tree s 2 2
         (Some ex_unary_weights) (Some ex_binary_weights) ex_TreeConfig st2
       = (Ok (unary "sin" leaf_x1),
          spent [Crandom; Cchoices 3; Crandint 1 3; Crandom; Crandom;
                 Cchoices 2; Crandom; Crandint 1 2])
    /\ s + height (unary "sin" leaf_x1) <= Z.max 2 (Z.max s 1)
    /\ (1 <= s <= 2 -> height (unary "sin" leaf_x1) <= 2 - s).
Proof.
  apply (subtree_mutation_depth
           ex_UNARY_OPS ex_BINARY_OPS ex_get_var_name ex_TreeConfig
           ex_MutationConfig leaf_x0 1 2 2
           ex_unary_weights ex_binary_weights ex_MutationConfig
           (on_tape [DUnit 0.25; DPick 0; DInt 1; DUnit 0.25; DUnit 0.25;
                   DPick 0; DUnit 0.25; DInt 1])).
  - apply (ex_draws 0 SUBTREE). reflexivity.
  - reflexivity.
Defined.

(** C5 as stated fails: on the constant targets [[2.0, 2.0]], fitted exactly
    by the constant tree [2.0], the r2 returned is NaN, the result of
    [0.0 / 0.0]. *)
Lemma zero_variance_r2_is_nan :
  ex_evaluate (Node_value 2) [[1]; [3]]%float = [2; 2]%float
  /\ ex_evaluate_and_score (Node_value 2) [[1]; [3]]%float [2; 2]%float []
     = Done (0%float, nan)
  /\ PrimFloat.is_nan nan = true.
Proof. repeat split; reflexivity. Qed.

Lemma evaluate_and_score_zero_denominator_witness :
  exists mse r2,
    ex_evaluate_and_score (binary "+" leaf_x0 (Node_value 1)) [[1]; [3]]%float
      [2; 2]%float []
    = Done (mse, r2)
    /\ (PrimFloat.eqb (total_sum_of_squares [2; 2]%float) 0 = true ->
        r2 = if PrimFloat.eqb
                  (residual_sum_of_squares
                     (ex_evaluate (binary "+" leaf_x0 (Node_value 1))
                        [[1]; [3]]%float)
                     [2; 2]%float) 0
                || PrimFloat.is_nan
                     (residual_sum_of_squares
                        (ex_evaluate (binary "+" leaf_x0 (Node_value 1))
                           [[1]; [3]]%float)
                        [2; 2]%float)
             then nan else neg_infinity)
    /\ (forall c,
           [2; 2]%float = repeat c (List.length [2; 2]%float) ->
           PrimFloat.is_finite c = true ->
           np_mean [2; 2]%float = c ->
           PrimFloat.eqb (total_sum_of_squares [2; 2]%float) 0 = true).
Proof.
  apply (proj2 (evaluate_and_score_zero_denominator (list (list float))
                  ex_evaluate ex_np_min_value ex_np_max_value ex_metrics_text
                  (binary "+" leaf_x0 (Node_value 1)) [[1]; [3]]%float
                  [2; 2]%float [])).
  - discriminate.
  - reflexivity.
Defined.

(** On these inputs the denominator is zero and the residuals are not: the
    r2 returned is minus infinity. *)
Lemma ex_zero_variance_imperfect_fit :
  ex_evaluate_and_score (binary "+" leaf_x0 (Node_value 1)) [[1]; [3]]%float
    [2; 2]%float []
  = Done (2%float, neg_infinity).
Proof. reflexivity. Qed.

(** On empty targets the call raises. *)
Lemma ex_empty_targets :
  ex_evaluate_and_score leaf_x0 [] [] [] = Failed (Builtin ValueError).
Proof. reflexivity. Qed.

(** Equal targets do not always make the denominator zero: the mean of
    three times [0.1] is not [0.1]. *)
Lemma ex_constant_targets_nonzero_denominator :
  PrimFloat.eqb (total_sum_of_squares (repeat ex_tenth 3)) 0 = false.
Proof. reflexivity. Qed.

(** Eight times [0.1] are added in eight partial sums and their mean is
    [0.1]: the denominator is zero, and on an exact fit r2 is NaN. *)
Lemma ex_eight_equal_targets :
  np_mean (repeat ex_tenth 8) = ex_tenth
  /\ total_sum_of_squares (repeat ex_tenth 8) = 0%float
  /\ ex_evaluate_and_score leaf_x0 (repeat [ex_tenth] 8) (repeat ex_tenth 8) []
     = Done (0%float, nan).
Proof. repeat split; reflexivity. Qed.

(** Ten times [1.9], predicted as [2.9]: the mean of the targets is not
    [1.9], the denominator is not zero and r2 is a finite number. *)
Lemma ex_ten_equal_targets :
  ex_evaluate (binary "+" leaf_x0 (Node_value 1)) (repeat [ex_1_9] 10)
  = repeat ex_2_9 10
  /\ PrimFloat.eqb (np_mean (repeat ex_1_9 10)) ex_1_9 = false
  /\ PrimFloat.eqb (total_sum_of_squares (repeat ex_1_9 10)) 0 = false
  /\ exists mse r2,
       ex_evaluate_and_score (binary "+" leaf_x0 (Node_value 1))
         (repeat [ex_1_9] 10) (repeat ex_1_9 10) []
       = Done (mse, r2)
       /\ PrimFloat.is_finite r2 = true.
Proof.
  split; [reflexivity |]. split; [reflexivity |]. split; [reflexivity |].
  eexists. eexists. split; reflexivity.
Qed.

(** C6 as stated fails on its perfect-fit scenario: the tree [x0] fits the
    targets [[3.0, 3.0]] exactly, and the r2 returned is NaN, not [1.0]. *)
Lemma perfect_fit_r2_is_not_one :
  ex_evaluate leaf_x0 [[3]; [3]]%float = [3; 3]%float
  /\ ex_evaluate_and_score leaf_x0 [[3]; [3]]%float [3; 3]%float []
     = Done (0%float, nan)
  /\ PrimFloat.eqb nan 1 = false.
Proof. repeat split; reflexivity. Qed.

Lemma evaluate_and_score_formulas_witness :
  ex_evaluate_and_score leaf_x0 [[1]; [2]; [4]]%float [1; 2; 4]%float []
  = Done (spec_mse (ex_evaluate leaf_x0 [[1]; [2]; [4]]%float) [1; 2; 4]%float,
          spec_r2 (ex_evaluate leaf_x0 [[1]; [2]; [4]]%float) [1; 2; 4]%float)
  /\ exists r2,
      ex_evaluate_and_score leaf_x0 [[1]; [2]; [4]]%float [1; 2; 4]%float []
      = Done (0%float, r2)
      /\ (PrimFloat.ltb 0 (total_sum_of_squares [1; 2; 4]%float) = true ->
          r2 = 1%float)
      /\ (PrimFloat.eqb (total_sum_of_squares [1; 2; 4]%float) 0 = true ->
          r2 = nan).
Proof.
  pose proof (evaluate_and_score_formulas (list (list float)) ex_evaluate
                ex_np_min_value ex_np_max_value ex_metrics_text
                leaf_x0 [[1]; [2]; [4]]%float [1; 2; 4]%float []
                ltac:(discriminate) eq_refl)
    as [Hformulas Hfit].
  split; [exact Hformulas |].
  apply Hfit.
  - reflexivity.
  - simpl. lia.
  - repeat constructor.
Defined.

Lemma mutate_zero_probability_witness :
  binary "+" leaf_x0 leaf_x1 = binary "+" leaf_x0 leaf_x1
  /\ calls (spent [Crandom; Crandom; Crandom])
     = (calls (on_tape [DUnit 0.75; DUnit 0.75; DUnit 0.75])
        ++ repeat Crandom (size (binary "+" leaf_x0 leaf_x1)))%list.
Proof.
  apply (mutate_zero_probability
           ex_UNARY_OPS ex_BINARY_OPS ex_get_var_name ex_TreeConfig
           ex_MutationConfig (binary "+" leaf_x0 leaf_x1) 0 2 2
           ex_unary_weights ex_binary_weights ex_MutationConfig
           (on_tape [DUnit 0.75; DUnit 0.75; DUnit 0.75])).
  - exact I.
  - reflexivity.
Defined.

Lemma create_random_tree_never_raises_witness :
  (forall e,
      fst (ex_create_random_tree 0 2 2
             (Some ex_unary_weights) (Some ex_binary_weights) ex_TreeConfig
             (on_tape ex_root_tape)) <> Raise e)
  /\ fst (ex_create_random_tree 0 2 2
            (Some ex_unary_weights) (Some ex_binary_weights) ex_TreeConfig
            (on_tape ex_root_tape)) <> OutOfFuel.
Proof.
  apply (create_random_tree_never_raises
           ex_UNARY_OPS ex_BINARY_OPS ex_get_var_name ex_TreeConfig
           0 2 2 (Some ex_unary_weights) (Some ex_binary_weights)
           ex_TreeConfig (on_tape ex_root_tape)).
  - lia.
  - reflexivity.
  - reflexivity.
Defined.

Lemma mutate_never_raises_witness :
  (forall e,
      fst (ex_mutate (binary "+" (binary "+" leaf_x0 leaf_x1) leaf_x1) 0.5 2 2
             ex_unary_weights ex_binary_weights ex_MutationConfig
             (on_tape ex_mutation_tape)) <> Raise e)
  /\ fst (ex_mutate (binary "+" (binary "+" leaf_x0 leaf_x1) leaf_x1) 0.5 2 2
            ex_unary_weights ex_binary_weights ex_MutationConfig
            (on_tape ex_mutation_tape)) <> OutOfFuel.
Proof.
  apply (mutate_never_raises
           ex_UNARY_OPS ex_BINARY_OPS ex_get_var_name ex_TreeConfig
           ex_MutationConfig
           (binary "+" (binary "+" leaf_x0 leaf_x1) leaf_x1) 0.5 2 2
           ex_unary_weights ex_binary_weights ex_MutationConfig
           (on_tape ex_mutation_tape)).
  - lia.
  - reflexivity.
  - reflexivity.
  - reflexivity.
  - reflexivity.
Defined.

Lemma operator_mutation_keeps_shape_witness :
  symbols_swapped ex_UNARY_OPS ex_BINARY_OPS ex_unary_weights ex_binary_weights
    (binary "+" (unary "sin" leaf_x0) leaf_x1)
    (binary "*" (unary "sin" leaf_x0) leaf_x1).
Proof.
  apply (operator_mutation_keeps_shape
           ex_UNARY_OPS ex_BINARY_OPS ex_get_var_name ex_TreeConfig
           ex_operator_MutationConfig
           (binary "+" (unary "sin" leaf_x0) leaf_x1) 1 2 2
           ex_unary_weights ex_binary_weights ex_operator_MutationConfig
           (on_tape ex_operator_tape)
           (binary "*" (unary "sin" leaf_x0) leaf_x1)
           (spent [Crandom; Cchoices 1; Cchoices 2; Crandom; Crandom;
                   Crandom])).
  - reflexivity.
  - reflexivity.
  - reflexivity.
Defined.

Lemma create_random_tree_node_forms_witness :
  every_node
    (node_form ex_get_var_name 2 ex_unary_weights ex_binary_weights)
    ex_root_tree.
Proof.
  apply (create_random_tree_node_forms
           ex_UNARY_OPS ex_BINARY_OPS ex_get_var_name ex_TreeConfig
           0 2 2 (Some ex_unary_weights) (Some ex_binary_weights)
           ex_TreeConfig (on_tape ex_root_tape) ex_root_tree
           (spent ex_root_log)).
  exact ex_root_run.
Defined.

Lemma create_random_tree_size_witness :
  Z.of_nat (size ex_root_tree) <= 2 ^ (2 - 0 + 1) - 1.
Proof.
  apply (create_random_tree_size
           ex_UNARY_OPS ex_BINARY_OPS ex_get_var_name ex_TreeConfig
           0 2 2 (Some ex_unary_weights) (Some ex_binary_weights)
           ex_TreeConfig (on_tape ex_root_tape) ex_root_tree
           (spent ex_root_log)).
  - lia.
  - lia.
  - exact ex_root_run.
Defined.

Lemma create_random_tree_floor_leaf_witness :
  left leaf_x1 = None /\ right leaf_x1 = None
  /\ (exists d1 d2,
         tape (on_tape [DUnit 0.25; DInt 1])
         = d1 :: d2 :: tape (spent [Crandom; Crandint 1 2]))
  /\ ((exists i, 1 <= i <= 2
                 /\ leaf_x1 = Node_op (ex_get_var_name i)
                 /\ calls (spent [Crandom; Crandint 1 2])
                    = (calls (on_tape [DUnit 0.25; DInt 1])
                       ++ [Crandom; Crandint 1 2])%list)
      \/ (exists v, leaf_x1 = Node_value v
                    /\ calls (spent [Crandom; Crandint 1 2])
                       = (calls (on_tape [DUnit 0.25; DInt 1])
                          ++ [Crandom; Cuniform (-5) 5])%list)).
Proof.
  apply (create_random_tree_floor_leaf
           ex_UNARY_OPS ex_BINARY_OPS ex_get_var_name ex_TreeConfig
           2 2 2 (Some ex_unary_weights) (Some ex_binary_weights)
           ex_TreeConfig (on_tape [DUnit 0.25; DInt 1]) leaf_x1
           (spent [Crandom; Crandint 1 2])).
  - lia.
  - lia.
  - reflexivity.
Defined.

Lemma create_random_tree_no_variables_witness :
  ex_create_random_tree 1 1 0 None None ex_TreeConfig (on_tape [DUnit 0.25])
  = (Raise ValueError,
     mkRng (tape (spent [Crandom]))
           (calls (spent [Crandom]) ++ [Crandint 1 0])).
Proof.
  apply (create_random_tree_no_variables
           ex_UNARY_OPS ex_BINARY_OPS ex_get_var_name ex_TreeConfig
           1 1 0 None None ex_TreeConfig (on_tape [DUnit 0.25])
           0.25%float (spent [Crandom])).
  - lia.
  - lia.
  - lia.
  - reflexivity.
  - reflexivity.
Defined.

Lemma score_mse_not_negative_witness :
  nonneg 0.5 /\ PrimFloat.ltb 0.5 0 = false.
Proof.
  apply (score_mse_not_negative [1; 2]%float [1; 3]%float 0.5%float 0.5%float).
  reflexivity.
Defined.

Lemma ex_permutation_3 : Permutation [2; 0; 1]%nat (seq 0 3).
Proof.
  simpl. apply (perm_trans (l' := [0; 2; 1]%nat)).
  - apply perm_swap.
  - apply perm_skip, perm_swap.
Qed.

Lemma split_data_transposed_witness :
  split_data [2; 0; 1]%nat (Array2 [[10; 11]; [12; 13]; [14; 15]]%float 2)
    (Array1 [0; 1; 2]%float) ex_train_ratio
  = Failed (Builtin IndexError).
Proof.
  apply (split_data_transposed [2; 0; 1]%nat
           (Array2 [[10; 11]; [12; 13]; [14; 15]]%float 2)
           (Array1 [0; 1; 2]%float) ex_train_ratio 2).
  - exact ex_permutation_3.
  - reflexivity.
  - simpl. lia.
  - reflexivity.
Defined.

Lemma split_data_partitions_witness :
  exists x_train x_val y_train y_val,
    split_data [2; 0; 1]%nat (Array1 [10; 11; 12]%float)
      (Array1 [0; 1; 2]%float) ex_train_ratio
    = Done (x_train, x_val, y_train, y_val)
    /\ (entries x_train ++ entries x_val)%list
       = map (fun i => nth i (entries (Array1 [10; 11; 12]%float)) [])
             [2; 0; 1]%nat
    /\ (entries y_train ++ entries y_val)%list
       = map (fun i => nth i (entries (Array1 [0; 1; 2]%float)) [])
             [2; 0; 1]%nat
    /\ Permutation (entries x_train ++ entries x_val)%list
         (entries (Array1 [10; 11; 12]%float))
    /\ len x_train = len y_train /\ len x_val = len y_val
    /\ (0 <= 2 <= Z.of_nat (len (Array1 [10; 11; 12]%float)) ->
        Z.of_nat (len x_train) = 2).
Proof.
  apply (split_data_partitions [2; 0; 1]%nat (Array1 [10; 11; 12]%float)
           (Array1 [0; 1; 2]%float) ex_train_ratio 2).
  - exact ex_permutation_3.
  - left. reflexivity.
  - simpl. lia.
  - reflexivity.
Defined.

Lemma split_data_short_targets_witness :
  split_data [2; 0; 1]%nat (Array1 [10; 11; 12]%float)
    (Array1 [0; 1]%float) ex_train_ratio
  = Failed (Builtin IndexError).
Proof.
  apply (split_data_short_targets [2; 0; 1]%nat (Array1 [10; 11; 12]%float)
           (Array1 [0; 1]%float) ex_train_ratio 2).
  - exact ex_permutation_3.
  - simpl. lia.
  - reflexivity.
Defined.

Lemma ex_load_data_run :
  ex_load_data "data" "problem_1" = Done (ex_loaded_x, [7; 8; 9]%float).
Proof. reflexivity. Qed.

Lemma load_data_returns_oriented_witness :
  [7; 8; 9]%float <> []
  /\ (ndim ex_loaded_x = 2%nat ->
      (shape1 ex_loaded_x <= len ex_loaded_x)%nat
      /\ ((1 <= shape1 ex_loaded_x)%nat ->
          len ex_loaded_x = List.length [7; 8; 9]%float)).
Proof.
  apply (load_data_returns_oriented ex_os_path_join ex_os_path_exists
           ex_np_load "data" "problem_1").
  exact ex_load_data_run.
Defined.

Lemma load_data_failure_witness :
  Builtin ValueError = Builtin ValueError
  /\ let file_path := ex_os_path_join "data" ("problem_2" ++ ".npz") in
     (ex_os_path_exists file_path = false
      \/ (exists e', ex_np_load file_path = Failed e')
      \/ (exists data, ex_np_load file_path = Done data
            /\ (npz_x data = None \/ npz_y data = None
                \/ npz_y data = Some []
                \/ exists x0 y, npz_x data = Some x0 /\ npz_y data = Some y
                     /\ ndim x0 = 2%nat /\ (1 <= len x0)%nat
                     /\ (1 <= shape1 x0)%nat
                     /\ Nat.max (len x0) (shape1 x0) <> List.length y))).
Proof.
  apply (load_data_failure ex_os_path_join ex_os_path_exists ex_np_load
           "data" "problem_2" (Builtin ValueError)).
  reflexivity.
Defined.

Lemma load_data_then_split_data_witness :
  split_data [2; 0; 1]%nat ex_loaded_x (Array1 [7; 8; 9]%float) ex_train_ratio
  = Failed (Builtin IndexError).
Proof.
  apply (load_data_then_split_data ex_os_path_join ex_os_path_exists
           ex_np_load "data" "problem_1" ex_loaded_x [7; 8; 9]%float
           [2; 0; 1]%nat ex_train_ratio 2).
  - exact ex_load_data_run.
  - reflexivity.
  - simpl. lia.
  - exact ex_permutation_3.
  - reflexivity.
Defined.

Lemma simplify_mutation_shrinks_witness :
  (size leaf_x0 <= size (binary "*" (Node_value 1) leaf_x0))%nat
  /\ height leaf_x0 <= height (binary "*" (Node_value 1) leaf_x0).
Proof.
  apply (simplify_mutation_shrinks
           ex_UNARY_OPS ex_BINARY_OPS ex_get_var_name ex_TreeConfig
           ex_simplify_MutationConfig
           (binary "*" (Node_value 1) leaf_x0) 1 2 2
           ex_unary_weights ex_binary_weights ex_simplify_MutationConfig
           (on_tape [DUnit 0.25; DPick 0]) leaf_x0
           (spent [Crandom; Cchoices 1])).
  - reflexivity.
  - reflexivity.
  - reflexivity.
Defined.

Lemma plot_expression_tree_single_node_witness :
  ex_plot_expression_tree 1 leaf_x0 = Some (Failed NetworkXError).
Proof.
  apply (plot_expression_tree_single_node ex_str leaf_x0 0). reflexivity.
Defined.

Lemma plot_expression_tree_draws_witness :
  exists d,
    ex_plot_expression_tree 3 ex_root_tree = Some (Done d)
    /\ (forall p n, subtree_at ex_root_tree p = Some n ->
          get_item (drawn_graph d) p = Some (children_ids p n)
          /\ (exists x, get_item (drawn_pos d) p
                        = Some (x, level (List.length p) 0))
          /\ get_item (drawn_labels d) p = Some (label ex_str n))
    /\ (forall p, subtree_at ex_root_tree p = None ->
          get_item (drawn_graph d) p = None
          /\ get_item (drawn_labels d) p = None)
    /\ get_item (drawn_pos d) [] = Some (0.5%float, 0%float).
Proof.
  apply (plot_expression_tree_draws ex_str ex_root_tree 3).
  - reflexivity.
  - simpl. lia.
Defined.

Lemma simplified_product_cannot_be_drawn_witness :
  exists t,
    ex_mutate (binary "*" (Node_value 0) leaf_x0) 1 2 2
      ex_unary_weights ex_binary_weights ex_MutationConfig
      (on_tape [DUnit 0.25; DPick 2])
    = (Ok t, mkRng [] [Crandom; Cchoices 3])
    /\ ex_plot_expression_tree 1 t = Some (Failed NetworkXError).
Proof.
  apply (simplified_product_cannot_be_drawn
           ex_UNARY_OPS ex_BINARY_OPS ex_get_var_name ex_TreeConfig
           ex_MutationConfig ex_str
           (binary "*" (Node_value 0) leaf_x0) 1 2 2
           ex_unary_weights ex_binary_weights ex_MutationConfig
           (on_tape [DUnit 0.25; DPick 2]) (mkRng [] [Crandom; Cchoices 3]) 0).
  - apply (ex_draws 2 SIMPLIFY). reflexivity.
  - reflexivity.
  - reflexivity.
Defined.

Lemma plot_evolution_metrics_marks_first_best_witness :
  (ex_metrics_history = [] ->
   plot_evolution_metrics ex_metrics_history [] = Failed (Builtin ValueError))
  /\ (ex_metrics_history <> [] ->
      exists i m,
        nth_error ex_metrics_history i = Some m
        /\ (forall m', In m' ex_metrics_history ->
              PrimFloat.leb (best_fitness m') (best_fitness m) = true)
        /\ (forall j m', (j < i)%nat ->
              nth_error ex_metrics_history j = Some m' ->
              PrimFloat.ltb (best_fitness m') (best_fitness m) = true)
        /\ plot_evolution_metrics ex_metrics_history []
           = Done ([] ++ [ax_plot (map generation ex_metrics_history)
                            (map best_fitness ex_metrics_history) "g-" "Best";
                          ax_plot (map generation ex_metrics_history)
                            (map avg_fitness ex_metrics_history)
                            "b-" "Average";
                          ax_plot (map generation ex_metrics_history)
                            (map worst_fitness ex_metrics_history)
                            "r-" "Worst";
                          ax_axvline (generation m);
                          ax_set_xlabel "Generation";
                          ax_set_ylabel "Fitness (1 / (1 + MSE))";
                          ax_set_title "Fitness Evolution";
                          ax_legend;
                          ax_grid true])%list).
Proof.
  apply (plot_evolution_metrics_marks_first_best ex_metrics_history []).
  repeat constructor.
Defined.

Lemma plot_prediction_analysis_outcome_witness :
  exists mse r2,
    score (ex_evaluate (binary "+" leaf_x0 (Node_value 1)) [[1]; [3]]%float)
      [2; 5]%float
    = Returns (mse, r2)
    /\ ex_plot_prediction_analysis (binary "+" leaf_x0 (Node_value 1))
         [[1]; [3]]%float [2; 5]%float []
       = Done ((mse, r2),
               [ax_scatter [2; 5]%float [2; 4]%float "Predictions";
                ax_plot_line [2; 5]%float [2; 5]%float
                  "r--" "Perfect Prediction";
                ax_set_xlabel "True Values";
                ax_set_ylabel "Predicted Values";
                ax_set_title "Predicted vs True Values";
                ax_grid true;
                ax_legend;
                ax_text 0x1.0333333333333p+2 1.5 "MSE, R2"]).
Proof.
  apply (proj2 (plot_prediction_analysis_outcome (list (list float))
                  ex_evaluate ex_np_min_value ex_np_max_value
                  ex_metrics_text (binary "+" leaf_x0 (Node_value 1))
                  [[1]; [3]]%float [2; 5]%float [])).
  - discriminate.
  - reflexivity.
Defined.
